(** * vpn-autorecovery: the monitoring loop of [docker/main.py]

    A shallow embedding of the watchdog script and the properties of its
    per-pair state machine, prober, remediator and scheduler.

    Modelling conventions.
    - Python [int] is [Z]; Python [float] is idealised as an exact rational
      [Q]: sums, products and comparisons are exact, and there is no
      rounding to a double, no [inf], no [nan] and no [OverflowError] on
      converting a big [int].  Properties that would not survive Python's
      floats say within which range of settings they are meant.
    - Python [str] is [string], read as a sequence of code points below
      256; [None] is [None], and a value is "truthy" as in Python ([None],
      the empty string and [0] are falsy).
    - The four state dictionaries of [main] are [gmap]s keyed by the
      (dc, srv) pair; [d[k]] on a missing key raises [KeyError].
    - Effects (logging, HTTP, SSH, Telegram, the clock, sleeping) are
      threaded through a small monad [M]: a computation reads the replies
      of the outside world from a [Network], advances a [Runtime] (clock and
      call counters), emits the [Event]s it performs in order, and either
      returns a value or raises a Python exception. *)

From Stdlib Require Import ZArith QArith Qround Qpower Lia Lqa String Ascii List Sorted.
From stdpp Require Import base gmap strings list.

Local Open Scope string_scope.
Local Open Scope Z_scope.

(** ** Python primitives used by the script *)

Module Py.

(** An exception object: its class name and [str(e)]. *)
Inductive exn : Type := Exn (cls : string) (msg : string).

Definition exn_msg (e : exn) : string := let 'Exn _ m := e in m.

Inductive result (A : Type) : Type :=
| Ret (a : A)
| Raise (e : exn).
Arguments Ret {A} a.
Arguments Raise {A} e.

(** Truthiness of [os.getenv(...)] values. *)
Definition truthy (o : option string) : bool :=
  match o with
  | Some s => negb (String.eqb s "")
  | None => false
  end.

Definition Qlt_bool (a b : Q) : bool := negb (Qle_bool b a).

(** [min(a, b)]: the first argument unless the second is strictly smaller. *)
Definition min (a b : Q) : Q := if Qlt_bool b a then b else a.

(** [round(x)] to the nearest integer, ties to even. *)
Definition round_half_even (q : Q) : Z :=
  let n := Qfloor q in
  match Qcompare (q - inject_Z n) (1 # 2) with
  | Lt => n
  | Gt => n + 1
  | Eq => if Z.even n then n else n + 1
  end.

(** [round(x, 2)]. *)
Definition round2 (q : Q) : Q :=
  (inject_Z (round_half_even (q * inject_Z 100)) / inject_Z 100)%Q.

(** [str.isspace] on the code points below 256: the ASCII white space
    and separators, NEL (133) and the no-break space (160). *)
Definition is_space (a : ascii) : bool :=
  let n := nat_of_ascii a in
  ((9 <=? n)%nat && (n <=? 13)%nat) || ((28 <=? n)%nat && (n <=? 32)%nat)
  || (n =? 133)%nat || (n =? 160)%nat.

Fixpoint lstrip (s : string) : string :=
  match s with
  | EmptyString => EmptyString
  | String a s' => if is_space a then lstrip s' else s
  end.

Fixpoint rstrip (s : string) : string :=
  match s with
  | EmptyString => EmptyString
  | String a s' =>
      let r := rstrip s' in
      if is_space a && String.eqb r "" then EmptyString else String a r
  end.

(** [s.strip()] *)
Definition strip (s : string) : string := rstrip (lstrip s).

(** [s.split(sep)] for a one-character separator. *)
Fixpoint split (sep : ascii) (s : string) : list string :=
  match s with
  | EmptyString => [EmptyString]
  | String a s' =>
      if Ascii.eqb a sep then EmptyString :: split sep s'
      else match split sep s' with
           | h :: t => String a h :: t
           | [] => [String a EmptyString]
           end
  end.

(** [s.split(sep, 1)] when [sep in s]; [None] when [sep not in s]. *)
Fixpoint split_first (sep : ascii) (s : string) : option (string * string) :=
  match s with
  | EmptyString => None
  | String a s' =>
      if Ascii.eqb a sep then Some (EmptyString, s')
      else match split_first sep s' with
           | Some (h, t) => Some (String a h, t)
           | None => None
           end
  end.

(** [s.lower()] on the code points below 256: the ASCII capitals and the
    capitals 192 to 222 other than the multiplication sign (215). *)
Definition lower_ascii (a : ascii) : ascii :=
  let n := nat_of_ascii a in
  if ((65 <=? n)%nat && (n <=? 90)%nat)
     || ((192 <=? n)%nat && (n <=? 222)%nat && negb (n =? 215)%nat)
  then ascii_of_nat (n + 32) else a.

Fixpoint lower (s : string) : string :=
  match s with
  | EmptyString => EmptyString
  | String a s' => String (lower_ascii a) (lower s')
  end.

Definition digit (a : ascii) : option Z :=
  let n := nat_of_ascii a in
  if ((48 <=? n)%nat && (n <=? 57)%nat) then Some (Z.of_nat (n - 48)) else None.

(** Reads a non-empty run of decimal digits from the front of [s]:
    the value read so far, the number of digits read and the rest. *)
Fixpoint digits (s : string) (acc : Z) (count : nat) : Z * nat * string :=
  match s with
  | EmptyString => (acc, count, s)
  | String a s' =>
      match digit a with
      | Some d => digits s' (10 * acc + d) (S count)
      | None => (acc, count, s)
      end
  end.

Definition signed (s : string) : bool * string :=
  match s with
  | String "-" s' => (true, s')
  | String "+" s' => (false, s')
  | _ => (false, s)
  end.

Definition is_digit (a : ascii) : bool :=
  match digit a with
  | Some _ => true
  | None => false
  end.

(** Removes the digit-grouping underscores of a numeric literal; [None]
    when an underscore does not stand between two digits. *)
Fixpoint ungroup_from (after_digit : bool) (s : string) : option string :=
  match s with
  | EmptyString => Some EmptyString
  | String a s' =>
      if Ascii.eqb a "_" then
        match s' with
        | String b _ => if after_digit && is_digit b then ungroup_from false s' else None
        | EmptyString => None
        end
      else
        match ungroup_from (is_digit a) s' with
        | Some r => Some (String a r)
        | None => None
        end
  end.

Definition ungroup (s : string) : option string := ungroup_from false s.

(** [sys.int_info.default_max_str_digits] of CPython 3.11: [int] refuses
    a literal with more digits. *)
Definition max_str_digits : nat := 4300.

(** [int(s)] in base 10: surrounding white space, an optional sign, at
    least one digit, single underscores between digits, and no more than
    [max_str_digits] digits.  Anything else is the [ValueError] of [int]
    ([None] here). *)
Definition int (s : string) : option Z :=
  let '(neg, body) := signed (strip s) in
  match ungroup body with
  | None => None
  | Some body =>
      match digits body 0 0%nat with
      | (v, S n, EmptyString) =>
          if (max_str_digits <? S n)%nat then None else Some (if neg then - v else v)
      | _ => None
      end
  end.

(** The exponent of a float literal: nothing, or [e] or [E], an optional
    sign and digits; the outer [None] when the text is neither. *)
Definition exponent (s : string) : option (option (bool * Z)) :=
  match s with
  | EmptyString => Some None
  | String a rest =>
      if Ascii.eqb a "e" || Ascii.eqb a "E" then
        let '(neg, body) := signed rest in
        match digits body 0 0%nat with
        | (v, S _, EmptyString) => Some (Some (neg, v))
        | _ => None
        end
      else None
  end.

Definition scale (q : Q) (e : option (bool * Z)) : Q :=
  match e with
  | None => q
  | Some (false, n) => (q * inject_Z (10 ^ n))%Q
  | Some (true, n) => (q / inject_Z (10 ^ n))%Q
  end.

(** [float(s)] on the literals of a finite number: an optional sign,
    [d+], [d+.d*] or [.d+], an optional exponent, single underscores
    between digits, surrounding white space.  The result is the exact
    rational the literal denotes, where Python rounds it to the nearest
    double (and to [inf] beyond the range of doubles).  The literals
    [inf], [infinity] and [nan], which Python accepts, have no rational
    counterpart: they are [None] here, like the texts on which [float]
    raises [ValueError]. *)
Definition float (s : string) : option Q :=
  let '(neg, body) := signed (strip s) in
  let sign (q : Q) : Q := if neg then Qopp q else q in
  match ungroup body with
  | None => None
  | Some body =>
      let '(ip, ni, rest) := digits body 0 0%nat in
      match rest with
      | String "." frac =>
          let '(fp, nf, rest') := digits frac 0 0%nat in
          match ni, nf with
          | O, O => None
          | _, _ =>
              match exponent rest' with
              | Some e =>
                  Some (sign (scale (inject_Z ip + inject_Z fp / inject_Z (10 ^ Z.of_nat nf))
                               e)%Q)
              | None => None
              end
          end
      | _ =>
          match ni with
          | O => None
          | S _ =>
              match exponent rest with
              | Some e => Some (sign (scale (inject_Z ip) e))
              | None => None
              end
          end
      end
  end.

End Py.

Import Py.

(** ** The outside world and the effect monad *)

(** A monitored pair [(dc, srv)], as produced by [parse_mappings]. *)
Definition Pair : Type := string * string.

Inductive LogLevel : Type := DEBUG | INFO | WARNING | ERROR.

(** The formatted texts of the script, by the place that builds them. *)
Inductive Message : Type :=
| MalformedMapping (pair : string)
| AttemptStatus (attempt max_attempts : Z) (url : string) (status_code : Z)
| AttemptError (attempt max_attempts : Z) (url : string) (err : string)
| CommandExecuted (pair : Pair) (dc_host : option string) (command output : string)
| SshError (host : option string) (err : string)
| TelegramNotConfigured
| TelegramError (text : string)
| TelegramSendError (err : string)
| MissingRequired (missing : list string)
| FactorTooSmall (backoff_factor : Q)
| ConfigError (err : string)
| StartInterval (base_interval : Z)
| StartFactor (backoff_factor : Q)
| StartMaxInterval (max_interval : Z)
| StartAttempts (check_attempts : Z)
| StartRetryDelay (check_retry_delay : Q)
| StartPairs (mappings : list Pair)
| StartLogSuccess (log_success : bool)
| UrlNotConfigured (srv url_var : string)
| StatusMsg (pair : Pair) (url : string) (is_available : bool)
    (response_time : Q) (attempts_made check_attempts : Z)
| RecoveryMsg (pair : Pair) (attempts : Z)
| IncompleteSsh (dc : string)
| RunningCommand (dc : string) (attempt : Z) (command : string)
| CommandResult (dc : string) (success : bool) (attempt : Z)
| FirstFailureMsg (attempts_made : Z) (command : string)
| StillDownMsg (attempts : Z) (command : string) (attempts_made : Z)
    (backoff_factor : Q).

(** The credential handed to [client.connect]. *)
Inductive Auth : Type :=
| Pkey (key_path : string)
| Password (password : option string).

(** The [text] of a Telegram message, by its parts. *)
Record AlertText : Type := {
  alert_pair : Pair;
  alert_recovered : bool;
  alert_attempt_info : option Z;
  alert_message : Message;
  alert_next_check : Q
}.

Inductive Event : Type :=
| Log (level : LogLevel) (msg : Message)
| HttpGet (url : string)
| Sleep (secs : Q)
| SshClient
| SshLoadKey (key_path : string)
| SshConnect (hostname : option string) (port : Z) (username : option string)
    (auth : Auth)
| SshExec (command : string)
| SshClose
| TelegramPost (bot_token chat_id : string) (text : AlertText).

(** What [requests.get] does: a response with its status code, or an
    exception; and how long it took. *)
Inductive HttpResult : Type :=
| Response (status_code : Z)
| RequestFailed (e : exn).

Record HttpReply : Type := { http_result : HttpResult; http_took : Q }.

(** What one SSH session does at each stage that can fail. *)
Record SshReply : Type := {
  key_error : option exn;
  connect_error : option exn;
  exec_result : string + exn;
  ssh_took : Q
}.

(** What the Telegram API call does: the ['ok'] field and text of the
    JSON answer, or an exception. *)
Inductive TelegramResult : Type :=
| TelegramJson (ok : bool) (text : string)
| TelegramFailed (e : exn).

Record TelegramReply : Type := { telegram_result : TelegramResult; telegram_took : Q }.

(** The replies of the outside world, by URL and by call number. *)
Record Network : Type := {
  http : string -> nat -> HttpReply;
  ssh : nat -> SshReply;
  telegram : nat -> TelegramReply
}.

Record Runtime : Type := {
  clock : Q;
  http_calls : nat;
  ssh_calls : nat;
  telegram_calls : nat
}.

Record Outcome (A : Type) : Type := {
  events : list Event;
  after : Runtime;
  value : result A
}.
Arguments events {A} _.
Arguments after {A} _.
Arguments value {A} _.

Definition M (A : Type) : Type := Runtime -> Outcome A.

Definition ret {A} (a : A) : M A :=
  fun rt => {| events := []; after := rt; value := Ret a |}.

Definition raise {A} (e : exn) : M A :=
  fun rt => {| events := []; after := rt; value := Raise e |}.

(** The events of [evs] followed by the outcome [o]. *)
Definition prepend {A} (evs : list Event) (o : Outcome A) : Outcome A :=
  let '{| events := evs'; after := rt; value := v |} := o in
  {| events := evs ++ evs'; after := rt; value := v |}.

Definition bind {A B} (m : M A) (f : A -> M B) : M B :=
  fun rt =>
    match m rt with
    | {| events := evs; after := rt'; value := Ret a |} => prepend evs (f a rt')
    | {| events := evs; after := rt'; value := Raise e |} =>
        {| events := evs; after := rt'; value := Raise e |}
    end.

(** [try: m  except Exception as e: handler e] *)
Definition try_except {A} (m : M A) (handler : exn -> M A) : M A :=
  fun rt =>
    match m rt with
    | {| events := evs; after := rt'; value := Ret a |} =>
        {| events := evs; after := rt'; value := Ret a |}
    | {| events := evs; after := rt'; value := Raise e |} => prepend evs (handler e rt')
    end.

(** [try: m  finally: cleanup], for a cleanup that does not raise. *)
Definition try_finally {A} (m : M A) (cleanup : M unit) : M A :=
  fun rt =>
    let '{| events := evs; after := rt'; value := v |} := m rt in
    let '{| events := evs'; after := rt''; value := _ |} := cleanup rt' in
    {| events := evs ++ evs'; after := rt''; value := v |}.

Notation "x <- m ;; k" := (bind m (fun x => k))
  (at level 20, m at level 99, k at level 200, only parsing).
Notation "' pat <- m ;; k" := (bind m (fun x => match x with pat => k end))
  (at level 20, pat pattern, m at level 99, k at level 200, only parsing).

Definition emit (e : Event) : M unit :=
  fun rt => {| events := [e]; after := rt; value := Ret tt |}.

Definition log (level : LogLevel) (msg : Message) : M unit := emit (Log level msg).

Definition advance (secs : Q) (rt : Runtime) : Runtime :=
  {| clock := (clock rt + secs)%Q; http_calls := http_calls rt;
     ssh_calls := ssh_calls rt; telegram_calls := telegram_calls rt |}.

(** [time.time()] *)
Definition time_time : M Q :=
  fun rt => {| events := []; after := rt; value := Ret (clock rt) |}.

(** The largest length in seconds whose nanoseconds fit the signed 64-bit
    integer that [time.sleep] converts its argument to (about 9.22e9). *)
Definition sleep_limit : Q := 9223372036854775808 # 1000000000.

(** [time.sleep(secs)]: a length beyond [sleep_limit] in either direction
    is an [OverflowError], a negative length is a [ValueError].  (Within
    a few seconds of the limit the call fails in platform-dependent ways;
    the properties below keep to lengths of at most [sleep_safe].) *)
Definition time_sleep (secs : Q) : M unit :=
  if Qlt_bool sleep_limit secs || Qlt_bool secs (- sleep_limit) then
    raise (Exn "OverflowError" "timestamp too large to convert to C _PyTime_t")
  else if Qlt_bool secs 0 then
    raise (Exn "ValueError" "sleep length must be non-negative")
  else fun rt => {| events := [Sleep secs]; after := advance secs rt; value := Ret tt |}.

(** A length that [time.sleep] accepts on every platform. *)
Definition sleep_safe : Q := inject_Z 9000000000.

(** [d[k]] *)
Definition getitem {V} (d : gmap Pair V) (k : Pair) : M V :=
  match d !! k with
  | Some v => ret v
  | None => raise (Exn "KeyError" "")
  end.

(** Number of events of a trace that satisfy a test. *)
Fixpoint count (p : Event -> bool) (evs : list Event) : nat :=
  match evs with
  | [] => O
  | e :: rest => ((if p e then 1 else 0) + count p rest)%nat
  end.

(** The construction of an SSH client: one per call of the remediator. *)
Definition is_ssh_client (e : Event) : bool :=
  match e with
  | SshClient => true
  | _ => false
  end.

Definition is_http_get (e : Event) : bool :=
  match e with
  | HttpGet _ => true
  | _ => false
  end.

Definition is_telegram_post (e : Event) : bool :=
  match e with
  | TelegramPost _ _ _ => true
  | _ => false
  end.

(** The status line that the loop logs after each probe of [pair]: one per
    check performed on it. *)
Definition is_check_of (pair : Pair) (e : Event) : bool :=
  match e with
  | Log _ (StatusMsg p _ _ _ _ _) => bool_decide (p = pair)
  | _ => false
  end.

(** ** The script *)

Record SshConfig : Type := {
  host : option string;
  port : Z;
  username : option string;
  password : option string;
  key : option string
}.

(** The configuration [main] reads once at startup (its local variables). *)
Record Config : Type := {
  base_interval : Z;
  max_interval : Z;
  backoff_factor : Q;
  check_attempts : Z;
  check_retry_delay : Q;
  mappings : list Pair;
  command : string
}.

(** The four dictionaries of [main]. *)
Record State : Type := {
  service_status : gmap Pair bool;
  next_checks : gmap Pair Q;
  current_intervals : gmap Pair Q;
  attempt_counters : gmap Pair Z
}.

Definition set_service_status (st : State) (pair : Pair) (v : bool) : State :=
  {| service_status := <[pair := v]> (service_status st);
     next_checks := next_checks st;
     current_intervals := current_intervals st;
     attempt_counters := attempt_counters st |}.

Definition set_next_checks (st : State) (pair : Pair) (v : Q) : State :=
  {| service_status := service_status st;
     next_checks := <[pair := v]> (next_checks st);
     current_intervals := current_intervals st;
     attempt_counters := attempt_counters st |}.

Definition set_current_intervals (st : State) (pair : Pair) (v : Q) : State :=
  {| service_status := service_status st;
     next_checks := next_checks st;
     current_intervals := <[pair := v]> (current_intervals st);
     attempt_counters := attempt_counters st |}.

Definition set_attempt_counters (st : State) (pair : Pair) (v : Z) : State :=
  {| service_status := service_status st;
     next_checks := next_checks st;
     current_intervals := current_intervals st;
     attempt_counters := <[pair := v]> (attempt_counters st) |}.

(** [{pair: f(pair) for pair in keys}] *)
Definition dict_of {V} (f : Pair -> V) (keys : list Pair) : gmap Pair V :=
  foldl (fun d k => <[k := f k]> d) ∅ keys.

(** [response.ok] of the [requests] library: true unless the status code is
    a client error (4xx) or a server error (5xx). *)
Definition response_ok (status_code : Z) : bool :=
  negb ((400 <=? status_code) && (status_code <? 600)).

(** [all(dc_config.values())] *)
Definition all_values (dc_config : SshConfig) : bool :=
  truthy (host dc_config) && negb (port dc_config =? 0)
  && truthy (username dc_config) && truthy (password dc_config)
  && truthy (key dc_config).

Section Monitor.

(** [os.environ] and the network the process talks to. *)
Variable environ : string -> option string.
Variable net : Network.

(** [os.getenv(name)] and [os.getenv(name, default)] *)
Definition getenv (name : string) : option string := environ name.

Definition getenv_default (name default : string) : string :=
  match environ name with
  | Some v => v
  | None => default
  end.

(** [int(x)] and [float(x)] on what [os.getenv] returned. *)
Definition to_int (x : option string) : M Z :=
  match x with
  | None => raise (Exn "TypeError" "int() argument must be a string")
  | Some s =>
      match Py.int s with
      | Some n => ret n
      | None => raise (Exn "ValueError" "invalid literal for int() with base 10")
      end
  end.

Definition to_float (x : option string) : M Q :=
  match x with
  | None => raise (Exn "TypeError" "float() argument must be a string")
  | Some s =>
      match Py.float s with
      | Some q => ret q
      | None => raise (Exn "ValueError" "could not convert string to float")
      end
  end.

(** The module-level [log_success] (line 16). *)
Definition log_success : bool :=
  String.eqb (lower (getenv_default "LOG_SUCCESS_REQUESTS" "false")) "true".

(** The loop of [parse_mappings] (lines 44-49) over the split string. *)
Fixpoint parse_pairs (pairs : list string) (mappings : list Pair) : M (list Pair) :=
  match pairs with
  | [] => ret mappings
  | token :: rest =>
      match split_first ":" token with
      | None =>
          _ <- log ERROR (MalformedMapping token) ;;
          parse_pairs rest mappings
      | Some (dc, srv) => parse_pairs rest (mappings ++ [(strip dc, strip srv)])
      end
  end.

(** [parse_mappings] (lines 40-50). *)
Definition parse_mappings (mapping_str : string) : M (list Pair) :=
  parse_pairs (split "," mapping_str) [].

(** [get_ssh_config] (lines 52-61): the dictionary is built entry by
    entry, and [int] on the port can raise. *)
Definition get_ssh_config (dc_name : string) : M SshConfig :=
  let prefix := dc_name ++ "_SSH_" in
  let host := getenv (prefix ++ "HOST") in
  port <- to_int (Some (getenv_default (prefix ++ "PORT") "22")) ;;
  ret {| host := host;
         port := port;
         username := getenv (prefix ++ "USERNAME");
         password := getenv (prefix ++ "PASSWORD");
         key := getenv (prefix ++ "KEY_PATH") |}.

(** [requests.get(url, timeout=10)]: the status code of the response. *)
Definition requests_get (url : string) : M Z :=
  fun rt =>
    let reply := http net url (http_calls rt) in
    {| events := [HttpGet url];
       after := {| clock := (clock rt + http_took reply)%Q;
                   http_calls := S (http_calls rt);
                   ssh_calls := ssh_calls rt;
                   telegram_calls := telegram_calls rt |};
       value := match http_result reply with
                | Response status_code => Ret status_code
                | RequestFailed e => Raise e
                end |}.

(** The [try] statement of the loop body of [check_service] (lines
    69-79): [Some result] where the source returns from inside it,
    [None] where control goes on to the retry delay. *)
Definition attempt_request (url : string) (max_attempts attempt : Z)
  : M (option (bool * Q * Z)) :=
  try_except
    (start_time <- time_time ;;
     status_code <- requests_get url ;;
     now <- time_time ;;
     let elapsed := round2 ((now - start_time) * inject_Z 1000)%Q in
     if response_ok status_code then ret (Some (true, elapsed, attempt))
     else
       _ <- log WARNING (AttemptStatus attempt max_attempts url status_code) ;;
       ret None)
    (fun e =>
       _ <- log WARNING (AttemptError attempt max_attempts url (exn_msg e)) ;;
       ret None).

(** The [for attempt in range(1, max_attempts + 1)] loop of
    [check_service], from [attempt] on with [remaining] iterations left. *)
Fixpoint check_service_from (url : string) (max_attempts : Z) (retry_delay : Q)
    (remaining : nat) (attempt : Z) : M (bool * Q * Z) :=
  match remaining with
  | O => ret (false, 0%Q, max_attempts)
  | S remaining' =>
      returned <- attempt_request url max_attempts attempt ;;
      match returned with
      | Some res => ret res
      | None =>
          _ <- (if attempt <? max_attempts then time_sleep retry_delay else ret tt) ;;
          check_service_from url max_attempts retry_delay remaining' (attempt + 1)
      end
  end.

(** [check_service] (lines 63-85). *)
Definition check_service (url : string) (max_attempts : Z) (retry_delay : Q)
  : M (bool * Q * Z) :=
  check_service_from url max_attempts retry_delay (Z.to_nat max_attempts) 1.

(** [paramiko.SSHClient()]: the session number, used to look up what the
    outside world does with this session. *)
Definition ssh_client : M nat :=
  fun rt =>
    {| events := [SshClient];
       after := {| clock := clock rt;
                   http_calls := http_calls rt;
                   ssh_calls := S (ssh_calls rt);
                   telegram_calls := telegram_calls rt |};
       value := Ret (ssh_calls rt) |}.

(** [paramiko.RSAKey.from_private_key_file(path)] *)
Definition from_private_key_file (client : nat) (key_path : string) : M string :=
  _ <- emit (SshLoadKey key_path) ;;
  match key_error (ssh net client) with
  | Some e => raise e
  | None => ret key_path
  end.

(** [client.connect] with the keyword arguments built before it. *)
Definition client_connect (client : nat) (hostname : option string) (port : Z)
    (username : option string) (auth : Auth) : M unit :=
  fun rt =>
    {| events := [SshConnect hostname port username auth];
       after := advance (ssh_took (ssh net client)) rt;
       value := match connect_error (ssh net client) with
                | Some e => Raise e
                | None => Ret tt
                end |}.

(** [client.exec_command(command)] followed by reading both streams. *)
Definition exec_command (client : nat) (command : string) : M string :=
  _ <- emit (SshExec command) ;;
  match exec_result (ssh net client) with
  | inl output => ret output
  | inr e => raise e
  end.

(** [execute_ssh_command] (lines 87-125). *)
Definition execute_ssh_command (dc_config : SshConfig) (command : string)
    (pair : Pair) : M (bool * string) :=
  client <- ssh_client ;;
  try_finally
    (try_except
       (auth <- (if truthy (key dc_config)
                 then
                   pkey <- from_private_key_file client (default "" (key dc_config)) ;;
                   ret (Pkey pkey)
                 else ret (Password (password dc_config))) ;;
        _ <- client_connect client (host dc_config) (port dc_config)
               (username dc_config) auth ;;
        output <- exec_command client command ;;
        _ <- log INFO (CommandExecuted pair (host dc_config) command output) ;;
        ret (true, output))
       (fun e =>
          let error := exn_msg e in
          _ <- log ERROR (SshError (host dc_config) error) ;;
          ret (false, error)))
    (emit SshClose).

(** [requests.post(url, json=payload, timeout=10)] to the bot API and
    [response.json().get('ok')], [response.text]. *)
Definition requests_post (bot_token chat_id : string) (text : AlertText)
  : M (bool * string) :=
  fun rt =>
    let reply := telegram net (telegram_calls rt) in
    {| events := [TelegramPost bot_token chat_id text];
       after := {| clock := (clock rt + telegram_took reply)%Q;
                   http_calls := http_calls rt;
                   ssh_calls := ssh_calls rt;
                   telegram_calls := S (telegram_calls rt) |};
       value := match telegram_result reply with
                | TelegramJson ok text => Ret (ok, text)
                | TelegramFailed e => Raise e
                end |}.

(** [send_telegram_alert] (lines 127-157). *)
Definition send_telegram_alert (pair : Pair) (next_check : Q) (message : Message)
    (attempt_count : Z) (is_recovered : bool) : M unit :=
  let bot_token := getenv "TELEGRAM_BOT_TOKEN" in
  let chat_id := getenv "TELEGRAM_CHAT_ID" in
  if negb (truthy bot_token) || negb (truthy chat_id) then
    log ERROR TelegramNotConfigured
  else
    let attempt_info := if 0 <? attempt_count then Some attempt_count else None in
    let text := {| alert_pair := pair;
                   alert_recovered := is_recovered;
                   alert_attempt_info := attempt_info;
                   alert_message := message;
                   alert_next_check := next_check |} in
    try_except
      ('(ok, body) <- requests_post (default "" bot_token) (default "" chat_id) text ;;
       if negb ok then log ERROR (TelegramError body) else ret tt)
      (fun e => log ERROR (TelegramSendError (exn_msg e))).

Definition required_vars : list string :=
  ["INTERVAL"; "MAPPINGS"; "TELEGRAM_BOT_TOKEN"; "TELEGRAM_CHAT_ID"; "COMMAND"].

(** The [try] block of [main] that reads the configuration (lines
    175-190).  (By then [MAPPINGS] and [COMMAND] are known to be set and
    not empty.) *)
Definition parse_config : M Config :=
  base_interval <- to_int (getenv "INTERVAL") ;;
  max_interval <- to_int (Some (getenv_default "MAX_INTERVAL" "300")) ;;
  backoff_factor <- to_float (Some (getenv_default "BACKOFF_FACTOR" "2")) ;;
  backoff_factor <-
    (if Qlt_bool backoff_factor 1 then
       _ <- log WARNING (FactorTooSmall backoff_factor) ;;
       ret 1%Q
     else ret backoff_factor) ;;
  check_attempts <- to_int (Some (getenv_default "CHECK_ATTEMPTS" "3")) ;;
  check_retry_delay <- to_float (Some (getenv_default "CHECK_RETRY_DELAY" "1")) ;;
  mappings <-
    match getenv "MAPPINGS" with
    | Some mapping_str => parse_mappings mapping_str
    | None => raise (Exn "AttributeError" "'NoneType' object has no attribute 'split'")
    end ;;
  ret {| base_interval := base_interval;
         max_interval := max_interval;
         backoff_factor := backoff_factor;
         check_attempts := check_attempts;
         check_retry_delay := check_retry_delay;
         mappings := mappings;
         command := default "" (getenv "COMMAND") |}.

(** The initial dictionaries (lines 196-199). *)
Definition init_state (cfg : Config) : State :=
  {| service_status := dict_of (fun _ => true) (mappings cfg);
     next_checks := dict_of (fun _ => 0%Q) (mappings cfg);
     current_intervals := dict_of (fun _ => inject_Z (base_interval cfg)) (mappings cfg);
     attempt_counters := dict_of (fun _ => 0) (mappings cfg) |}.

Section Loop.

Variable cfg : Config.

(** The branch [if is_available:] of the loop body (lines 250-269). *)
Definition on_success (st : State) (pair : Pair) : M State :=
  status <- getitem (service_status st) pair ;;
  if negb status then
    let st := set_service_status st pair true in
    let st := set_current_intervals st pair (inject_Z (base_interval cfg)) in
    attempts <- getitem (attempt_counters st) pair ;;
    let recovery_msg := RecoveryMsg pair attempts in
    _ <- log INFO recovery_msg ;;
    interval <- getitem (current_intervals st) pair ;;
    attempts <- getitem (attempt_counters st) pair ;;
    _ <- send_telegram_alert pair interval recovery_msg attempts true ;;
    ret (set_attempt_counters st pair 0)
  else ret st.

(** The [else:] branch of the loop body (lines 270-310). *)
Definition on_failure (st : State) (pair : Pair) (attempts_made : Z) : M State :=
  let dc := fst pair in
  attempts <- getitem (attempt_counters st) pair ;;
  let st := set_attempt_counters st pair (attempts + 1) in
  dc_config <- get_ssh_config dc ;;
  _ <- (if negb (all_values dc_config) then log ERROR (IncompleteSsh dc)
        else
          attempts <- getitem (attempt_counters st) pair ;;
          _ <- log INFO (RunningCommand dc attempts (command cfg)) ;;
          '(success, output) <- execute_ssh_command dc_config (command cfg) pair ;;
          attempts <- getitem (attempt_counters st) pair ;;
          log INFO (CommandResult dc success attempts)) ;;
  interval <- getitem (current_intervals st) pair ;;
  let new_interval :=
    Py.min (interval * backoff_factor cfg)%Q (inject_Z (max_interval cfg)) in
  let st := set_current_intervals st pair new_interval in
  status <- getitem (service_status st) pair ;;
  '(message, st) <-
    (if status : bool then
       ret (FirstFailureMsg attempts_made (command cfg),
            set_service_status st pair false)
     else
       attempts <- getitem (attempt_counters st) pair ;;
       ret (StillDownMsg attempts (command cfg) attempts_made (backoff_factor cfg),
            st)) ;;
  attempts <- getitem (attempt_counters st) pair ;;
  _ <- send_telegram_alert pair new_interval message attempts false ;;
  ret st.

(** The body of [for pair in mappings:] (lines 214-313); [continue]
    leaves with the state as it is. *)
Definition check_pair (current_time : Q) (st : State) (pair : Pair) : M State :=
  let srv := snd pair in
  next_check <- getitem (next_checks st) pair ;;
  if Qlt_bool current_time next_check then ret st
  else
    let url_var := srv ++ "_URL" in
    let url := getenv url_var in
    if negb (truthy url) then
      _ <- log ERROR (UrlNotConfigured srv url_var) ;;
      interval <- getitem (current_intervals st) pair ;;
      ret (set_next_checks st pair (current_time + interval)%Q)
    else
      let url := default "" url in
      '(is_available, response_time, attempts_made) <-
        check_service url (check_attempts cfg) (check_retry_delay cfg) ;;
      let status_msg :=
        StatusMsg pair url is_available response_time attempts_made
          (check_attempts cfg) in
      _ <- (if is_available : bool then
              if log_success then log INFO status_msg else log DEBUG status_msg
            else log WARNING status_msg) ;;
      st <- (if is_available : bool then on_success st pair
             else on_failure st pair attempts_made) ;;
      interval <- getitem (current_intervals st) pair ;;
      ret (set_next_checks st pair (current_time + interval)%Q).

(** [for pair in mappings:] *)
Fixpoint for_pairs (current_time : Q) (pairs : list Pair) (st : State) : M State :=
  match pairs with
  | [] => ret st
  | p :: rest =>
      st <- check_pair current_time st p ;;
      for_pairs current_time rest st
  end.

(** One iteration of [while True:] (lines 211-316). *)
Definition tick (st : State) : M State :=
  current_time <- time_time ;;
  st <- for_pairs current_time (mappings cfg) st ;;
  _ <- time_sleep (inject_Z 5) ;;
  ret st.

(** The first [ticks] iterations of [while True:]. *)
Fixpoint main_loop (ticks : nat) (st : State) : M State :=
  match ticks with
  | O => ret st
  | S ticks' =>
      st <- tick st ;;
      main_loop ticks' st
  end.

End Loop.

(** [main] (lines 159-316), stopped after [ticks] iterations of its loop;
    [None] when it returned before entering the loop. *)
Definition main (ticks : nat) : M (option State) :=
  let missing := List.filter (fun var => negb (truthy (getenv var))) required_vars in
  match missing with
  | _ :: _ =>
      _ <- log ERROR (MissingRequired missing) ;;
      ret None
  | [] =>
      parsed <-
        try_except
          (cfg <- parse_config ;; ret (Some cfg))
          (fun e => _ <- log ERROR (ConfigError (exn_msg e)) ;; ret None) ;;
      match parsed with
      | None => ret None
      | Some cfg =>
          let st := init_state cfg in
          _ <- log INFO (StartInterval (base_interval cfg)) ;;
          _ <- log INFO (StartFactor (backoff_factor cfg)) ;;
          _ <- log INFO (StartMaxInterval (max_interval cfg)) ;;
          _ <- log INFO (StartAttempts (check_attempts cfg)) ;;
          _ <- log INFO (StartRetryDelay (check_retry_delay cfg)) ;;
          _ <- log INFO (StartPairs (mappings cfg)) ;;
          _ <- log INFO (StartLogSuccess log_success) ;;
          st <- main_loop cfg ticks st ;;
          ret (Some st)
      end
  end.

End Monitor.

(** A concrete [os.environ] from a list of [NAME=value] settings. *)
Definition environ_of (vars : list (string * string)) (name : string) : option string :=
  snd <$> List.find (fun kv => String.eqb (fst kv) name) vars.

(** ** Vocabulary of the properties *)

(** Events that only the prober emits: none of them is an SSH session, a
    Telegram message or the status line of a check. *)
Definition probe_event (e : Event) : Prop :=
  match e with
  | HttpGet _ | Sleep _
  | Log WARNING (AttemptStatus _ _ _ _) | Log WARNING (AttemptError _ _ _ _) => True
  | _ => False
  end.

Section ProberVocabulary.

Variable net : Network.
Variables (url : string) (max_attempts : Z) (retry_delay : Q).

(** The runtime once the request number [http_calls rt] has been made. *)
Definition requested (rt : Runtime) : Runtime :=
  {| clock := (clock rt + http_took (http net url (http_calls rt)))%Q;
     http_calls := S (http_calls rt);
     ssh_calls := ssh_calls rt;
     telegram_calls := telegram_calls rt |}.

(** An attempt fails on an exception and on a 4xx or 5xx status. *)
Definition attempt_fails (call : nat) : bool :=
  match http_result (http net url call) with
  | Response status_code => negb (response_ok status_code)
  | RequestFailed _ => true
  end.

Definition elapsed_ms (rt : Runtime) : Q :=
  round2 ((clock (requested rt) - clock rt) * inject_Z 1000)%Q.

Definition attempt_log (attempt : Z) (rt : Runtime) : list Event :=
  match http_result (http net url (http_calls rt)) with
  | Response status_code =>
      if response_ok status_code then []
      else [Log WARNING (AttemptStatus attempt max_attempts url status_code)]
  | RequestFailed e => [Log WARNING (AttemptError attempt max_attempts url (exn_msg e))]
  end.

(** Where a failed attempt leaves the runtime and what it has emitted
    before the next one starts (there is no delay after the last). *)
Definition retry_runtime (attempt : Z) (rt : Runtime) : Runtime :=
  if attempt <? max_attempts then advance retry_delay (requested rt) else requested rt.

Definition retry_events (attempt : Z) (rt : Runtime) : list Event :=
  HttpGet url :: attempt_log attempt rt
  ++ (if attempt <? max_attempts then [Sleep retry_delay] else []).

End ProberVocabulary.

Section TransitionVocabulary.

Variable net : Network.
Variable cfg : Config.

(** The state after a recovery (lines 253-269). *)
Definition recovered_state (st : State) (pair : Pair) : State :=
  set_attempt_counters
    (set_current_intervals (set_service_status st pair true) pair
       (inject_Z (base_interval cfg)))
    pair 0.

(** The remediation step of a failed check (lines 275-284), with the
    pair's counter already read. *)
Definition remediation (dc_config : SshConfig) (pair : Pair) (attempts : Z) : M unit :=
  if negb (all_values dc_config) then log ERROR (IncompleteSsh (fst pair))
  else
    _ <- log INFO (RunningCommand (fst pair) attempts (command cfg)) ;;
    '(success, output) <- execute_ssh_command net dc_config (command cfg) pair ;;
    log INFO (CommandResult (fst pair) success attempts).

Definition next_interval (interval : Q) : Q :=
  Py.min (interval * backoff_factor cfg)%Q (inject_Z (max_interval cfg)).

Definition failed_state (st : State) (pair : Pair) (attempts : Z) (interval : Q)
    (status : bool) : State :=
  let st := set_attempt_counters st pair (attempts + 1) in
  let st := set_current_intervals st pair (next_interval interval) in
  if status then set_service_status st pair false else st.

Definition failure_message (status : bool) (attempts attempts_made : Z) : Message :=
  if status then FirstFailureMsg attempts_made (command cfg)
  else StillDownMsg (attempts + 1) (command cfg) attempts_made (backoff_factor cfg).

End TransitionVocabulary.

Section LoopVocabulary.

Variable environ : string -> option string.
Variable net : Network.
Variable cfg : Config.

(** The URL the loop body probes for a pair. *)
Definition probe_url (pair : Pair) : string :=
  default "" (environ (snd pair ++ "_URL")).

(** The probe of a pair as the loop body runs it. *)
Definition probe (pair : Pair) : M (bool * Q * Z) :=
  check_service net (probe_url pair) (check_attempts cfg) (check_retry_delay cfg).

(** The status line logged after the probe, at the level the loop picks. *)
Definition status_line (pair : Pair) (result : bool * Q * Z) : Event :=
  let '(is_available, response_time, attempts_made) := result in
  Log (if is_available then if log_success environ then INFO else DEBUG else WARNING)
    (StatusMsg pair (probe_url pair) is_available response_time attempts_made
       (check_attempts cfg)).

(** The branch the loop body takes on the result of the probe. *)
Definition branch (st : State) (pair : Pair) (result : bool * Q * Z) : M State :=
  let '(is_available, _, attempts_made) := result in
  if is_available then on_success environ net cfg st pair
  else on_failure environ net cfg st pair attempts_made.

End LoopVocabulary.

(** The dictionaries of [st'] agree with those of [st] away from [pair]. *)
Definition only_changes (pair : Pair) (st st' : State) : Prop :=
  forall p, p <> pair ->
    service_status st' !! p = service_status st !! p /\
    next_checks st' !! p = next_checks st !! p /\
    current_intervals st' !! p = current_intervals st !! p /\
    attempt_counters st' !! p = attempt_counters st !! p.

(** Every recorded interval is positive. *)
Definition positive_intervals (st : State) : Prop :=
  forall (pair : Pair) (interval : Q),
    current_intervals st !! pair = Some interval -> (0 < interval)%Q.

(** The next check of [pair] lies after the snapshot [current_time]. *)
Definition scheduled_after (current_time : Q) (pair : Pair) (st : State) : Prop :=
  exists next_check,
    next_checks st !! pair = Some next_check /\ (current_time < next_check)%Q.

(** No event of the trace is the status line of a check of [pair]. *)
Definition no_check_of (pair : Pair) (evs : list Event) : Prop :=
  Forall (fun e => is_check_of pair e = false) evs.



Section Reachability.

Variable environ : string -> option string.
Variable net : Network.
Variable cfg : Config.

(** The states the loop can be in between two passes through its body:
    the initial one, and any state a pass of the body returns, at whatever
    time and for whatever pair it is run. *)
Inductive reachable : State -> Prop :=
| reachable_init : reachable (init_state cfg)
| reachable_check (st : State) (current_time : Q) (pair : Pair) (rt : Runtime)
    (st' : State) :
    reachable st ->
    value (check_pair environ net cfg current_time st pair rt) = Ret st' ->
    reachable st'.

(** [base_interval <= current_interval <= max_interval] for every pair. *)
Definition interval_bounds (st : State) : Prop :=
  forall (pair : Pair) (interval : Q),
    current_intervals st !! pair = Some interval ->
    (inject_Z (base_interval cfg) <= interval <= inject_Z (max_interval cfg))%Q.

(** A due check of [pair] whose probe failed took [st] to [st']. *)
Inductive failed_check (pair : Pair) (st st' : State) : Prop :=
| failed_check_intro (current_time : Q) (rt : Runtime) (next_check response_time : Q)
    (attempts_made : Z) :
    next_checks st !! pair = Some next_check ->
    (next_check <= current_time)%Q ->
    truthy (environ (snd pair ++ "_URL")) = true ->
    value (probe environ net cfg pair rt) = Ret (false, response_time, attempts_made) ->
    value (check_pair environ net cfg current_time st pair rt) = Ret st' ->
    failed_check pair st st'.

(** The values recorded in [current_intervals[pair]] along consecutive
    failed checks: the one before the first failure, then the one written
    by each failed check. *)
Inductive failure_run (pair : Pair) : State -> list Q -> Prop :=
| failure_run_start (st : State) (interval : Q) :
    current_intervals st !! pair = Some interval ->
    failure_run pair st [interval]
| failure_run_step (st st' : State) (interval : Q) (rest : list Q) :
    current_intervals st !! pair = Some interval ->
    failed_check pair st st' ->
    failure_run pair st' rest ->
    failure_run pair st (interval :: rest).

End Reachability.

(** ** Scenarios *)

Definition rt0 : Runtime :=
  {| clock := inject_Z 1000; http_calls := 0; ssh_calls := 0; telegram_calls := 0 |}.

Definition refused : HttpResult :=
  RequestFailed (Exn "ConnectionError" "connection refused").

(** A network whose HTTP requests get the listed results in order, each
    after [took] seconds (a refused connection once the list is used up),
    whose SSH sessions run the command in two seconds and whose Telegram
    posts are accepted in half a second. *)
Definition scripted (results : list HttpResult) (took : Q) : Network :=
  {| http := fun _ call => {| http_result := nth call results refused; http_took := took |};
     ssh := fun _ => {| key_error := None; connect_error := None;
                        exec_result := inl "restarted"; ssh_took := inject_Z 2 |};
     telegram := fun _ => {| telegram_result := TelegramJson true "{}";
                             telegram_took := 1 # 2 |} |}.

(** The settings of one site and one service, with Telegram in place. *)
Definition environ_demo : string -> option string :=
  environ_of
    [("INTERVAL", "10"); ("MAX_INTERVAL", "60"); ("MAPPINGS", "dc1:api");
     ("TELEGRAM_BOT_TOKEN", "token"); ("TELEGRAM_CHAT_ID", "chat");
     ("COMMAND", "systemctl restart vpn"); ("api_URL", "http://api.local/health");
     ("dc1_SSH_HOST", "10.0.0.1"); ("dc1_SSH_USERNAME", "root");
     ("dc1_SSH_PASSWORD", "secret"); ("dc1_SSH_KEY_PATH", "/keys/dc1")].

(** What [parse_config] reads from [environ_demo]. *)
Definition cfg_demo : Config :=
  {| base_interval := 10;
     max_interval := 60;
     backoff_factor := inject_Z 2;
     check_attempts := 3;
     check_retry_delay := inject_Z 1;
     mappings := [("dc1", "api")];
     command := "systemctl restart vpn" |}.

(** The pair [("dc1", "api")] after [attempts] failed checks have driven
    its interval to [interval], due for its next check at [next_check]. *)
Definition st_down (attempts : Z) (interval next_check : Q) : State :=
  {| service_status := {[ ("dc1", "api") := false ]};
     next_checks := {[ ("dc1", "api") := next_check ]};
     current_intervals := {[ ("dc1", "api") := interval ]};
     attempt_counters := {[ ("dc1", "api") := attempts ]} |}.


(** [environ_demo] with a password and no private key for the site. *)
Definition environ_password_only : string -> option string :=
  environ_of
    [("INTERVAL", "10"); ("MAX_INTERVAL", "60"); ("MAPPINGS", "dc1:api");
     ("TELEGRAM_BOT_TOKEN", "token"); ("TELEGRAM_CHAT_ID", "chat");
     ("COMMAND", "systemctl restart vpn"); ("api_URL", "http://api.local/health");
     ("dc1_SSH_HOST", "10.0.0.1"); ("dc1_SSH_USERNAME", "root");
     ("dc1_SSH_PASSWORD", "secret")].

(** [environ_demo] with a port that is not a number. *)
Definition environ_bad_port : string -> option string :=
  environ_of
    [("INTERVAL", "10"); ("MAX_INTERVAL", "60"); ("MAPPINGS", "dc1:api");
     ("TELEGRAM_BOT_TOKEN", "token"); ("TELEGRAM_CHAT_ID", "chat");
     ("COMMAND", "systemctl restart vpn"); ("api_URL", "http://api.local/health");
     ("dc1_SSH_HOST", "10.0.0.1"); ("dc1_SSH_PORT", "ssh");
     ("dc1_SSH_USERNAME", "root"); ("dc1_SSH_PASSWORD", "secret");
     ("dc1_SSH_KEY_PATH", "/keys/dc1")].

(** A zero base interval and the same pair listed twice. *)
Definition environ_zero_twice : string -> option string :=
  environ_of
    [("INTERVAL", "0"); ("MAPPINGS", "dc1:api,dc1:api");
     ("TELEGRAM_BOT_TOKEN", "token"); ("TELEGRAM_CHAT_ID", "chat");
     ("COMMAND", "systemctl restart vpn"); ("api_URL", "http://api.local/health")].

(** [environ_demo] with the pair listed twice. *)
Definition environ_twice : string -> option string :=
  environ_of
    [("INTERVAL", "10"); ("MAX_INTERVAL", "60"); ("MAPPINGS", "dc1:api,dc1:api");
     ("TELEGRAM_BOT_TOKEN", "token"); ("TELEGRAM_CHAT_ID", "chat");
     ("COMMAND", "systemctl restart vpn"); ("api_URL", "http://api.local/health");
     ("dc1_SSH_HOST", "10.0.0.1"); ("dc1_SSH_USERNAME", "root");
     ("dc1_SSH_PASSWORD", "secret"); ("dc1_SSH_KEY_PATH", "/keys/dc1")].

(** What [parse_config] reads from [environ_twice]. *)
Definition cfg_twice : Config :=
  {| base_interval := 10;
     max_interval := 60;
     backoff_factor := inject_Z 2;
     check_attempts := 3;
     check_retry_delay := inject_Z 1;
     mappings := [("dc1", "api"); ("dc1", "api")];
     command := "systemctl restart vpn" |}.

(** A base interval above the default maximum of 300 seconds. *)
Definition environ_600 : string -> option string :=
  environ_of
    [("INTERVAL", "600"); ("MAPPINGS", "dc1:api");
     ("TELEGRAM_BOT_TOKEN", "token"); ("TELEGRAM_CHAT_ID", "chat");
     ("COMMAND", "systemctl restart vpn"); ("api_URL", "http://api.local/health");
     ("dc1_SSH_HOST", "10.0.0.1"); ("dc1_SSH_USERNAME", "root");
     ("dc1_SSH_PASSWORD", "secret"); ("dc1_SSH_KEY_PATH", "/keys/dc1")].

(** What [parse_config] reads from [environ_600]. *)
Definition cfg_600 : Config :=
  {| base_interval := 600;
     max_interval := 300;
     backoff_factor := inject_Z 2;
     check_attempts := 3;
     check_retry_delay := inject_Z 1;
     mappings := [("dc1", "api")];
     command := "systemctl restart vpn" |}.

(** A negative base interval, with the default maximum of 300 seconds. *)
Definition environ_negative : string -> option string :=
  environ_of
    [("INTERVAL", "-5"); ("MAPPINGS", "dc1:api");
     ("TELEGRAM_BOT_TOKEN", "token"); ("TELEGRAM_CHAT_ID", "chat");
     ("COMMAND", "systemctl restart vpn"); ("api_URL", "http://api.local/health");
     ("dc1_SSH_HOST", "10.0.0.1"); ("dc1_SSH_USERNAME", "root");
     ("dc1_SSH_PASSWORD", "secret"); ("dc1_SSH_KEY_PATH", "/keys/dc1")].

(** What [parse_config] reads from [environ_negative]. *)
Definition cfg_negative : Config :=
  {| base_interval := -5;
     max_interval := 300;
     backoff_factor := inject_Z 2;
     check_attempts := 3;
     check_retry_delay := inject_Z 1;
     mappings := [("dc1", "api")];
     command := "systemctl restart vpn" |}.

(** ** Vocabulary of the further properties *)

(** [c in s] for a one-character [c]. *)
Fixpoint contains (c : ascii) (s : string) : bool :=
  match s with
  | EmptyString => false
  | String a s' => Ascii.eqb a c || contains c s'
  end.

(** The entry that one token of [MAPPINGS] stands for: the token is cut
    at its first colon and both parts are stripped; a token without a
    colon stands for none. *)
Definition token_pair (token : string) : option Pair :=
  match split_first ":" token with
  | Some (dc, srv) => Some (strip dc, strip srv)
  | None => None
  end.

(** The error lines of [parse_mappings]: one for each token without a
    colon, in the order of the tokens. *)
Definition malformed_logs (tokens : list string) : list Event :=
  map (fun token => Log ERROR (MalformedMapping token))
    (List.filter (fun token => negb (contains ":" token)) tokens).

Definition is_sleep (e : Event) : bool :=
  match e with
  | Sleep _ => true
  | _ => false
  end.

(** What a probe of [url] with the delay [retry_delay] may emit: requests
    to that URL, delays of that length, and warnings about that URL. *)
Definition probe_event_of (url : string) (retry_delay : Q) (e : Event) : Prop :=
  match e with
  | HttpGet u => u = url
  | Sleep secs => secs = retry_delay
  | Log WARNING (AttemptStatus _ _ u _) | Log WARNING (AttemptError _ _ u _) => u = url
  | _ => False
  end.

Definition is_ssh_close (e : Event) : bool :=
  match e with
  | SshClose => true
  | _ => false
  end.

Definition is_ssh_connect (e : Event) : bool :=
  match e with
  | SshConnect _ _ _ _ => true
  | _ => false
  end.

Definition is_ssh_exec (e : Event) : bool :=
  match e with
  | SshExec _ => true
  | _ => false
  end.

Definition is_ssh_load_key (e : Event) : bool :=
  match e with
  | SshLoadKey _ => true
  | _ => false
  end.

(** Loading the key fails: a stage only when a key is configured. *)
Definition key_load_fails (reply : SshReply) (dc_config : SshConfig) : bool :=
  truthy (key dc_config) &&
  match key_error reply with
  | Some _ => true
  | None => false
  end.

Definition connect_fails (reply : SshReply) : bool :=
  match connect_error reply with
  | Some _ => true
  | None => false
  end.

(** The audit entry [COMMAND_EXECUTED] of the remediator. *)
Definition is_command_executed (e : Event) : bool :=
  match e with
  | Log _ (CommandExecuted _ _ _ _) => true
  | _ => false
  end.

(** The exception that ends an SSH session early, if any: that of the
    first stage to fail among loading the key (a stage only when a key is
    configured), connecting, and running the command. *)
Definition ssh_failure (reply : SshReply) (dc_config : SshConfig) : option exn :=
  match (if truthy (key dc_config) then key_error reply else None) with
  | Some e => Some e
  | None =>
      match connect_error reply with
      | Some e => Some e
      | None =>
          match exec_result reply with
          | inl _ => None
          | inr e => Some e
          end
      end
  end.

(** What a session for [dc_config] may do besides opening, logging and
    closing: load the configured key, connect to the configured host with
    the key if there is one and with the password otherwise, and run
    [command]. *)
Definition ssh_event_of (dc_config : SshConfig) (command : string) (e : Event) : Prop :=
  match e with
  | SshLoadKey key_path =>
      truthy (key dc_config) = true /\ key_path = default "" (key dc_config)
  | SshConnect hostname port_ username_ auth =>
      hostname = host dc_config /\ port_ = port dc_config /\
      username_ = username dc_config /\
      auth = (if truthy (key dc_config) then Pkey (default "" (key dc_config))
              else Password (password dc_config))
  | SshExec c => c = command
  | SshClient | SshClose | Log _ _ => True
  | _ => False
  end.

Definition is_log (e : Event) : bool :=
  match e with
  | Log _ _ => true
  | _ => false
  end.

(** The required settings that are missing: unset or empty (line 169). *)
Definition missing_vars (environ : string -> option string) : list string :=
  List.filter (fun var => negb (truthy (environ var))) required_vars.


(** [backoff_factor] after the check of lines 181-183. *)
Definition clamp_factor (raw : Q) : Q := if Qlt_bool raw 1 then 1%Q else raw.

(** The status and the counter of every pair agree: the counter of a pair
    that is Available is zero, that of a pair that is Unavailable is at
    least one. *)
Definition counters_agree (st : State) : Prop :=
  forall (pair : Pair) (status : bool) (attempts : Z),
    service_status st !! pair = Some status ->
    attempt_counters st !! pair = Some attempts ->
    if status then attempts = 0 else 1 <= attempts.

(** The four dictionaries have the configured pairs as their keys. *)
Definition keys_are_mappings (cfg : Config) (st : State) : Prop :=
  dom (service_status st) = list_to_set (mappings cfg) /\
  dom (next_checks st) = list_to_set (mappings cfg) /\
  dom (current_intervals st) = list_to_set (mappings cfg) /\
  dom (attempt_counters st) = list_to_set (mappings cfg).

Section FailureVocabulary.

Variable environ : string -> option string.
Variable net : Network.
Variable cfg : Config.

(** [n] failed checks of [pair] in a row take [st] to [st']. *)
Inductive failed_checks (pair : Pair) : nat -> State -> State -> Prop :=
| failed_checks_none (st : State) : failed_checks pair O st st
| failed_checks_more (n : nat) (st st1 st' : State) :
    failed_check environ net cfg pair st st1 ->
    failed_checks pair n st1 st' ->
    failed_checks pair (S n) st st'.

End FailureVocabulary.

(** The trace begins with a request, if it begins at all. *)
Definition starts_with_request (evs : list Event) : bool :=
  match evs with
  | [] | HttpGet _ :: _ => true
  | _ => false
  end.

(** Every delay of the trace is directly followed by a request. *)
Fixpoint delays_precede_requests (evs : list Event) : bool :=
  match evs with
  | [] => true
  | Sleep _ :: rest =>
      match rest with
      | HttpGet _ :: _ => delays_precede_requests rest
      | _ => false
      end
  | _ :: rest => delays_precede_requests rest
  end.

(** ** Where exact arithmetic stands for Python's floats *)

(** A number that Python converts to a [float] without [OverflowError]
    (an [int] converts up to about 1.8e308). *)
Definition fits_float (q : Q) : Prop :=
  (- inject_Z (2 ^ 1023) <= q <= inject_Z (2 ^ 1023))%Q.

(** Settings with which the float arithmetic of the script stays finite
    and loses no integer: both intervals are at most 2^53 in absolute
    value (every such integer is a double), and so is the factor. *)
Definition float_safe (cfg : Config) : Prop :=
  Z.abs (base_interval cfg) <= 2 ^ 53 /\ Z.abs (max_interval cfg) <= 2 ^ 53 /\
  (backoff_factor cfg <= inject_Z (2 ^ 53))%Q.



(** * Properties *)

Local Open Scope list_scope.

(** ** Python primitives *)

Example int_22 : Py.int "22" = Some 22. Proof. reflexivity. Qed.
Example int_ws : Py.int " -7 " = Some (-7). Proof. reflexivity. Qed.
Example int_abc : Py.int "abc" = None. Proof. reflexivity. Qed.
Example int_empty : Py.int "" = None. Proof. reflexivity. Qed.
Example float_1_5 : Py.float "1.5" = Some (1 + 5 / 10)%Q. Proof. reflexivity. Qed.

Lemma Qlt_bool_false (a b : Q) : (b <= a)%Q -> Qlt_bool a b = false.
Proof.
  intros H. unfold Qlt_bool. apply Qle_bool_iff in H. rewrite H. reflexivity.
Qed.

Lemma Qlt_bool_true (a b : Q) : (a < b)%Q -> Qlt_bool a b = true.
Proof.
  intros H. unfold Qlt_bool. destruct (Qle_bool b a) eqn:E; [|reflexivity].
  apply Qle_bool_iff in E. exfalso. apply (Qlt_not_le _ _ H E).
Qed.

Lemma Qlt_bool_iff (a b : Q) : Qlt_bool a b = true <-> (a < b)%Q.
Proof.
  split; [|apply Qlt_bool_true].
  unfold Qlt_bool. intros H. apply Qnot_le_lt. intros Hle.
  apply Qle_bool_iff in Hle. rewrite Hle in H. discriminate.
Qed.

Lemma Qlt_add_pos (a b : Q) : (0 < b)%Q -> (a < a + b)%Q.
Proof. intros H. lra. Qed.

Lemma min_le_r (a b : Q) : (Py.min a b <= b)%Q.
Proof.
  unfold Py.min. destruct (Qlt_bool b a) eqn:E; [apply Qle_refl|].
  apply Qnot_lt_le. intros Hlt. apply Qlt_bool_iff in Hlt. congruence.
Qed.

Lemma min_glb (x a b : Q) : (x <= a)%Q -> (x <= b)%Q -> (x <= Py.min a b)%Q.
Proof. intros Ha Hb. unfold Py.min. destruct (Qlt_bool b a); assumption. Qed.

Lemma min_pos (a b : Q) : (0 < a)%Q -> (0 < b)%Q -> (0 < Py.min a b)%Q.
Proof. intros Ha Hb. unfold Py.min. destruct (Qlt_bool b a); assumption. Qed.

Lemma scale_ge (interval factor : Q) :
  (0 <= interval)%Q -> (1 <= factor)%Q -> (interval <= interval * factor)%Q.
Proof. intros Hi Hf. nra. Qed.

Lemma round2_Qeq (a b : Q) : (a == b)%Q -> round2 a = round2 b.
Proof.
  intros Hab. unfold round2, round_half_even.
  assert (Hm : (a * inject_Z 100 == b * inject_Z 100)%Q) by (rewrite Hab; reflexivity).
  rewrite (Qfloor_comp _ _ Hm).
  assert (Hc : (a * inject_Z 100 - inject_Z (Qfloor (b * inject_Z 100)) ==
                b * inject_Z 100 - inject_Z (Qfloor (b * inject_Z 100)))%Q)
    by (rewrite Hm; reflexivity).
  rewrite (Qcompare_comp _ _ Hc (1 # 2) (1 # 2) (Qeq_refl _)). reflexivity.
Qed.

Lemma response_ok_iff status_code :
  response_ok status_code = true <-> status_code < 400 \/ 600 <= status_code.
Proof. unfold response_ok. lia. Qed.

(** On the statuses a final HTTP response carries, 200 to 599,
    [response.ok] is the 2xx-3xx range. *)
Lemma response_ok_2xx_3xx status_code :
  200 <= status_code < 600 ->
  (response_ok status_code = true <-> 200 <= status_code <= 399).
Proof. unfold response_ok. lia. Qed.

(** The example of the specification: ["dc1:api,dc2"] keeps [("dc1",
    "api")] and logs the entry without a colon. *)
Example parse_mappings_example :
  parse_mappings "dc1:api,dc2" rt0 =
  {| events := [Log ERROR (MalformedMapping "dc2")];
     after := rt0;
     value := Ret [("dc1", "api")] |}.
Proof. reflexivity. Qed.

(** The example of the specification: base 10, factor 2, maximum 60 give
    20, 40 and 60 on three consecutive failures. *)
Example next_interval_example :
  next_interval cfg_demo (inject_Z 10) = inject_Z 20 /\
  next_interval cfg_demo (inject_Z 20) = inject_Z 40 /\
  next_interval cfg_demo (inject_Z 40) = inject_Z 60.
Proof. repeat split; reflexivity. Qed.

(** ** Dictionaries *)

Lemma dict_of_lookup {V : Type} (f : Pair -> V) (keys : list Pair) (d : gmap Pair V) k v :
  foldl (fun d k => <[k := f k]> d) d keys !! k = Some v ->
  v = f k \/ d !! k = Some v.
Proof.
  revert d. induction keys as [|k' keys IH]; intros d H; cbn [foldl] in H.
  - right. exact H.
  - destruct (IH _ H) as [->|H']; [left; reflexivity|].
    destruct (decide (k' = k)) as [->|Hne].
    + rewrite lookup_insert_eq in H'. left. congruence.
    + rewrite lookup_insert_ne in H' by assumption. right. exact H'.
Qed.

Lemma dict_of_dom {V : Type} (f : Pair -> V) (keys : list Pair) (d : gmap Pair V) :
  dom (foldl (fun d k => <[k := f k]> d) d keys) = list_to_set keys ∪ dom d.
Proof.
  revert d. induction keys as [|k keys IH]; intros d; cbn [foldl].
  - rewrite list_to_set_nil, (left_id_L ∅ (∪)). reflexivity.
  - rewrite IH, dom_insert_L, list_to_set_cons.
    rewrite (comm_L _ {[k]} (list_to_set keys)), <- (assoc_L _). reflexivity.
Qed.


(** ** Computations step by step *)

Lemma events_prepend {A} evs (o : Outcome A) : events (prepend evs o) = evs ++ events o.
Proof. destruct o; reflexivity. Qed.

Lemma after_prepend {A} evs (o : Outcome A) : after (prepend evs o) = after o.
Proof. destruct o; reflexivity. Qed.

Lemma value_prepend {A} evs (o : Outcome A) : value (prepend evs o) = value o.
Proof. destruct o; reflexivity. Qed.

Section MonadFacts.

Context {A B : Type}.
Implicit Types (m : M A) (f : A -> M B) (rt : Runtime).

Lemma value_bind m f rt :
  value (bind m f rt) =
  match value (m rt) with
  | Ret a => value (f a (after (m rt)))
  | Raise e => Raise e
  end.
Proof.
  unfold bind. destruct (m rt) as [evs rt' [a|e]]; cbn [value after];
    [apply value_prepend | reflexivity].
Qed.

Lemma events_bind m f rt :
  events (bind m f rt) =
  events (m rt) ++
  match value (m rt) with
  | Ret a => events (f a (after (m rt)))
  | Raise e => []
  end.
Proof.
  unfold bind. destruct (m rt) as [evs rt' [a|e]]; cbn [value after events];
    [apply events_prepend | symmetry; apply app_nil_r].
Qed.

Lemma after_bind m f rt :
  after (bind m f rt) =
  match value (m rt) with
  | Ret a => after (f a (after (m rt)))
  | Raise e => after (m rt)
  end.
Proof.
  unfold bind. destruct (m rt) as [evs rt' [a|e]]; cbn [value after];
    [apply after_prepend | reflexivity].
Qed.

Lemma bind_Ret_inv m f rt b :
  value (bind m f rt) = Ret b ->
  exists a, value (m rt) = Ret a /\ value (f a (after (m rt))) = Ret b.
Proof.
  rewrite value_bind. destruct (value (m rt)) as [a|e]; [eauto | discriminate].
Qed.

End MonadFacts.

Lemma count_app p (xs ys : list Event) :
  count p (xs ++ ys) = (count p xs + count p ys)%nat.
Proof. induction xs as [|x xs IH]; simpl; [reflexivity | rewrite IH; lia]. Qed.

Lemma getitem_Some {V} (d : gmap Pair V) k v rt :
  d !! k = Some v ->
  getitem d k rt = {| events := []; after := rt; value := Ret v |}.
Proof. intros H. unfold getitem. rewrite H. reflexivity. Qed.

Lemma getitem_events {V} (d : gmap Pair V) k rt : events (getitem d k rt) = [].
Proof. unfold getitem. destruct (d !! k); reflexivity. Qed.

Lemma getitem_after {V} (d : gmap Pair V) k rt : after (getitem d k rt) = rt.
Proof. unfold getitem. destruct (d !! k); reflexivity. Qed.

Lemma bind_outcome {A B} (m : M A) (f : A -> M B) rt evs rt' a :
  m rt = {| events := evs; after := rt'; value := Ret a |} ->
  bind m f rt = prepend evs (f a rt').
Proof. intros H. unfold bind. rewrite H. reflexivity. Qed.

Lemma prepend_prepend {A} xs ys (o : Outcome A) :
  prepend xs (prepend ys o) = prepend (xs ++ ys) o.
Proof. destruct o. cbn [prepend]. rewrite app_assoc. reflexivity. Qed.

Lemma prepend_nil {A} (o : Outcome A) : prepend [] o = o.
Proof. destruct o. reflexivity. Qed.

Lemma bind_value {A B : Type} (m : M A) (f : A -> M B) rt a :
  value (m rt) = Ret a ->
  bind m f rt = prepend (events (m rt)) (f a (after (m rt))).
Proof. unfold bind. destruct (m rt) as [evs rt' v]. cbn. intros ->. reflexivity. Qed.

Lemma bind_value_raises {A B : Type} (m : M A) (f : A -> M B) rt e :
  value (m rt) = Raise e ->
  bind m f rt = {| events := events (m rt); after := after (m rt); value := Raise e |}.
Proof. unfold bind. destruct (m rt) as [evs rt' v]. cbn. intros ->. reflexivity. Qed.

Lemma bind_assoc {A B C : Type} (m : M A) (f : A -> M B) (g : B -> M C) rt :
  bind (bind m f) g rt = bind m (fun a => bind (f a) g) rt.
Proof.
  unfold bind. destruct (m rt) as [evs rt' [a|e]]; [|reflexivity].
  destruct (f a rt') as [evs' rt'' [b|e]]; cbn [prepend]; [|reflexivity].
  symmetry. apply prepend_prepend.
Qed.

Lemma bind_getitem {V B : Type} (d : gmap Pair V) k v (f : V -> M B) rt :
  d !! k = Some v -> bind (getitem d k) f rt = f v rt.
Proof.
  intros H. rewrite (bind_outcome _ _ _ _ _ _ (getitem_Some d k v rt H)).
  apply prepend_nil.
Qed.

Lemma bind_getitem_missing {V B : Type} (d : gmap Pair V) k (f : V -> M B) rt :
  d !! k = None -> value (bind (getitem d k) f rt) = Raise (Exn "KeyError" "").
Proof. intros H. unfold bind, getitem. rewrite H. reflexivity. Qed.

Lemma bind_log {B : Type} level msg (f : unit -> M B) rt :
  bind (log level msg) f rt = prepend [Log level msg] (f tt rt).
Proof. reflexivity. Qed.

Lemma bind_ret {A B : Type} (a : A) (f : A -> M B) rt : bind (ret a) f rt = f a rt.
Proof. unfold bind, ret. apply prepend_nil. Qed.

Lemma count_zero p (evs : list Event) :
  Forall (fun e => p e = false) evs -> count p evs = O.
Proof.
  induction 1 as [|e evs He _ IH]; cbn [count]; [reflexivity|].
  rewrite He, IH. reflexivity.
Qed.

Lemma count_zero_inv p (evs : list Event) :
  count p evs = O -> Forall (fun e => p e = false) evs.
Proof.
  induction evs as [|e evs IH]; cbn [count]; intros H; constructor.
  - destruct (p e); [discriminate | reflexivity].
  - apply IH. destruct (p e); [discriminate | exact H].
Qed.

(** Looks a key up in a dictionary of a state built by the setters. *)
Ltac lookup :=
  cbn [service_status next_checks current_intervals attempt_counters
       set_service_status set_next_checks set_current_intervals set_attempt_counters];
  first [eassumption | apply lookup_insert_eq].

(** Runs the [d[k]] at the head of the next bind, given its value. *)
Ltac read v :=
  lazymatch goal with
  | |- context [bind (getitem ?d ?k) ?f ?rt] =>
      let H := fresh in
      assert (H : d !! k = Some v); [lookup|];
      rewrite (bind_getitem d k v f rt H); clear H
  end.

(** ** The collaborators: what they return and what they emit *)

(** Reduces the projections of computed outcomes, and nothing else. *)
Ltac outcome :=
  cbn [value after events emit log ret raise prepend negb orb andb app fst snd].

(** Case analysis on whatever a computation is still waiting for. *)
Ltac cases :=
  repeat (outcome;
          match goal with
          | |- context [match ?x with _ => _ end] =>
              lazymatch x with
              | context [match _ with _ => _ end] => fail
              | _ => destruct x
              end
          end);
  outcome.

Section Collaborators.

Variable environ : string -> option string.
Variable net : Network.

Ltac run_alert :=
  unfold send_telegram_alert, try_except, bind, requests_post; cases.

(** The notifier catches everything it can raise. *)
Lemma send_telegram_alert_returns pair next_check message attempt_count is_recovered rt :
  value (send_telegram_alert environ net pair next_check message attempt_count
           is_recovered rt) = Ret tt.
Proof. run_alert; reflexivity. Qed.


Lemma send_telegram_alert_no_check p pair next_check message attempt_count is_recovered rt :
  count (is_check_of p)
    (events (send_telegram_alert environ net pair next_check message attempt_count
               is_recovered rt)) = O.
Proof. run_alert; reflexivity. Qed.

(** With both Telegram settings in place the alert is posted, once,
    whatever the API answers. *)
Lemma send_telegram_alert_posts pair next_check message attempt_count is_recovered rt :
  truthy (environ "TELEGRAM_BOT_TOKEN") = true ->
  truthy (environ "TELEGRAM_CHAT_ID") = true ->
  exists rest,
    events (send_telegram_alert environ net pair next_check message attempt_count
              is_recovered rt) =
    TelegramPost (default "" (environ "TELEGRAM_BOT_TOKEN"))
      (default "" (environ "TELEGRAM_CHAT_ID"))
      {| alert_pair := pair;
         alert_recovered := is_recovered;
         alert_attempt_info := if 0 <? attempt_count then Some attempt_count else None;
         alert_message := message;
         alert_next_check := next_check |} :: rest /\
    count is_telegram_post rest = O.
Proof.
  intros Htok Hchat. unfold send_telegram_alert, getenv. rewrite Htok, Hchat.
  unfold try_except, bind, requests_post; cases; eexists; split; reflexivity.
Qed.

Ltac run_ssh :=
  unfold execute_ssh_command, try_finally, try_except, bind, ssh_client,
    from_private_key_file, client_connect, exec_command, bind; cases.

(** The remediator catches everything the session can raise, closes the
    session, and builds exactly one client per call. *)
Lemma execute_ssh_command_returns dc_config command pair rt :
  exists success output,
    value (execute_ssh_command net dc_config command pair rt) = Ret (success, output).
Proof. run_ssh; eauto. Qed.


Lemma execute_ssh_command_no_check p dc_config command pair rt :
  count (is_check_of p) (events (execute_ssh_command net dc_config command pair rt)) = O.
Proof. run_ssh; reflexivity. Qed.

End Collaborators.

(** ** The prober *)

Lemma probe_event_not_ssh e : probe_event e -> is_ssh_client e = false.
Proof. destruct e as [[] []| | | | | | | |]; simpl; tauto. Qed.

Lemma probe_event_not_telegram e : probe_event e -> is_telegram_post e = false.
Proof. destruct e as [[] []| | | | | | | |]; simpl; tauto. Qed.

Lemma probe_event_not_check p e : probe_event e -> is_check_of p e = false.
Proof. destruct e as [[] []| | | | | | | |]; simpl; tauto. Qed.

Section Prober.

Variable net : Network.
Variables (url : string) (max_attempts : Z) (retry_delay : Q).

Local Abbreviation requested := (requested net url).
Local Abbreviation attempt_fails := (attempt_fails net url).
Local Abbreviation elapsed_ms := (elapsed_ms net url).
Local Abbreviation attempt_log := (attempt_log net url max_attempts).
Local Abbreviation retry_runtime := (retry_runtime net url max_attempts retry_delay).
Local Abbreviation retry_events := (retry_events net url max_attempts retry_delay).

Lemma attempt_request_outcome attempt rt :
  attempt_request net url max_attempts attempt rt =
  {| events := HttpGet url :: attempt_log attempt rt;
     after := requested rt;
     value := Ret (if attempt_fails (http_calls rt) then None
                   else Some (true, elapsed_ms rt, attempt)) |}.
Proof.
  unfold attempt_request, try_except, bind, requests_get, time_time, attempt_log,
    attempt_fails, elapsed_ms, requested.
  destruct (http_result (http net url (http_calls rt))) as [status_code|e]; outcome;
    [destruct (response_ok status_code)|]; outcome; reflexivity.
Qed.

Lemma attempt_log_probe attempt rt : Forall probe_event (attempt_log attempt rt).
Proof.
  unfold attempt_log.
  destruct (http_result (http net url (http_calls rt))) as [status_code|e];
    [destruct (response_ok status_code)|]; repeat constructor.
Qed.

Lemma attempt_log_no_get attempt rt : count is_http_get (attempt_log attempt rt) = O.
Proof.
  unfold attempt_log.
  destruct (http_result (http net url (http_calls rt))) as [status_code|e];
    [destruct (response_ok status_code)|]; reflexivity.
Qed.

(** A delay of a length that [time.sleep] accepts. *)
Lemma time_sleep_outcome (secs : Q) rt :
  (0 <= secs <= sleep_safe)%Q ->
  time_sleep secs rt =
  {| events := [Sleep secs]; after := advance secs rt; value := Ret tt |}.
Proof.
  intros [H0 Hs]. unfold time_sleep.
  assert (Hl : (sleep_safe <= sleep_limit)%Q) by (vm_compute; discriminate).
  rewrite (Qlt_bool_false sleep_limit secs) by (eapply Qle_trans; eassumption).
  rewrite (Qlt_bool_false secs (- sleep_limit)).
  - rewrite (Qlt_bool_false _ _ H0). reflexivity.
  - apply Qle_trans with 0%Q; [vm_compute; discriminate | exact H0].
Qed.

(** The retry delay between two attempts. *)
Lemma retry_sleep_outcome (more : bool) rt :
  (0 <= retry_delay <= sleep_safe)%Q ->
  (if more then time_sleep retry_delay else ret tt) rt =
  {| events := if more then [Sleep retry_delay] else [];
     after := if more then advance retry_delay rt else rt;
     value := Ret tt |}.
Proof.
  intros Hd. destruct more; [|reflexivity]. apply time_sleep_outcome, Hd.
Qed.

Lemma check_service_from_retry remaining attempt rt :
  (0 <= retry_delay <= sleep_safe)%Q ->
  attempt_fails (http_calls rt) = true ->
  check_service_from net url max_attempts retry_delay (S remaining) attempt rt =
  prepend (retry_events attempt rt)
    (check_service_from net url max_attempts retry_delay remaining (attempt + 1)
       (retry_runtime attempt rt)).
Proof.
  intros Hd Hfail. cbn [check_service_from].
  rewrite (bind_outcome _ _ _ _ _ _ (attempt_request_outcome attempt rt)).
  rewrite Hfail.
  rewrite (bind_outcome _ _ _ _ _ _ (retry_sleep_outcome _ (requested rt) Hd)).
  rewrite prepend_prepend. unfold retry_events, retry_runtime.
  rewrite <- app_comm_cons. reflexivity.
Qed.

Lemma check_service_from_hit remaining attempt rt :
  attempt_fails (http_calls rt) = false ->
  check_service_from net url max_attempts retry_delay (S remaining) attempt rt =
  {| events := [HttpGet url];
     after := requested rt;
     value := Ret (true, elapsed_ms rt, attempt) |}.
Proof.
  intros Hok. cbn [check_service_from].
  rewrite (bind_outcome _ _ _ _ _ _ (attempt_request_outcome attempt rt)).
  rewrite Hok. unfold attempt_log. unfold attempt_fails in Hok.
  destruct (http_result (http net url (http_calls rt))) as [status_code|e];
    [|discriminate].
  destruct (response_ok status_code); [|discriminate]. reflexivity.
Qed.

Lemma http_calls_retry_runtime attempt rt :
  http_calls (retry_runtime attempt rt) = S (http_calls rt).
Proof. unfold retry_runtime. destruct (attempt <? max_attempts); reflexivity. Qed.

Lemma count_get_retry_events attempt rt :
  count is_http_get (retry_events attempt rt) = 1%nat.
Proof.
  unfold retry_events. cbn [count is_http_get]. rewrite count_app, attempt_log_no_get.
  destruct (attempt <? max_attempts); reflexivity.
Qed.

Lemma attempt_log_no_sleep attempt rt : count is_sleep (attempt_log attempt rt) = O.
Proof.
  unfold attempt_log.
  destruct (http_result (http net url (http_calls rt))) as [status_code|e];
    [destruct (response_ok status_code)|]; reflexivity.
Qed.

Lemma retry_events_sleeps attempt rt :
  count is_sleep (retry_events attempt rt) =
  if attempt <? max_attempts then 1%nat else O.
Proof.
  unfold retry_events. cbn [count is_sleep]. rewrite count_app, attempt_log_no_sleep.
  destruct (attempt <? max_attempts); reflexivity.
Qed.

(** Whatever happens, the prober emits only its own events. *)
Lemma check_service_from_events remaining attempt rt :
  Forall probe_event
    (events (check_service_from net url max_attempts retry_delay remaining attempt rt)).
Proof.
  revert attempt rt.
  induction remaining as [|remaining IH]; intros attempt rt; cbn [check_service_from].
  - constructor.
  - rewrite (bind_outcome _ _ _ _ _ _ (attempt_request_outcome attempt rt)).
    rewrite events_prepend. apply Forall_app. split.
    + constructor; [exact I | apply attempt_log_probe].
    + destruct (attempt_fails (http_calls rt)); [|constructor].
      rewrite events_bind. apply Forall_app. split.
      * destruct (attempt <? max_attempts); [|constructor].
        unfold time_sleep.
        destruct (Qlt_bool sleep_limit retry_delay || Qlt_bool retry_delay (- sleep_limit));
          [|destruct (Qlt_bool retry_delay 0)]; repeat constructor.
      * destruct (value _); [apply IH | constructor].
Qed.

End Prober.

Section ProberLoop.

Variable net : Network.
Variables (url : string) (max_attempts : Z) (retry_delay : Q).

Lemma elapsed_ms_took rt :
  elapsed_ms net url rt =
  round2 (http_took (http net url (http_calls rt)) * inject_Z 1000)%Q.
Proof.
  unfold elapsed_ms, requested. cbn [clock]. apply round2_Qeq. ring.
Qed.

Lemma check_service_from_returns remaining attempt rt :
  (0 <= retry_delay <= sleep_safe)%Q ->
  exists res,
    value (check_service_from net url max_attempts retry_delay remaining attempt rt) = Ret res.
Proof.
  intros Hd. revert attempt rt.
  induction remaining as [|remaining IH]; intros attempt rt.
  - eexists. reflexivity.
  - destruct (attempt_fails net url (http_calls rt)) eqn:Hfail.
    + rewrite check_service_from_retry by assumption. rewrite value_prepend. apply IH.
    + rewrite check_service_from_hit by assumption. eexists. reflexivity.
Qed.

Lemma check_service_from_exhausted remaining attempt rt :
  (0 <= retry_delay <= sleep_safe)%Q ->
  (forall i, (i < remaining)%nat -> attempt_fails net url (http_calls rt + i) = true) ->
  let o := check_service_from net url max_attempts retry_delay remaining attempt rt in
  value o = Ret (false, 0%Q, max_attempts) /\
  count is_http_get (events o) = remaining /\
  http_calls (after o) = (http_calls rt + remaining)%nat.
Proof.
  intros Hd. revert attempt rt.
  induction remaining as [|remaining IH]; intros attempt rt Hfail; cbn zeta.
  - cbn [check_service_from ret value events after count]. auto with arith.
  - rewrite check_service_from_retry;
      [| assumption | rewrite <- (Nat.add_0_r (http_calls rt)); apply Hfail; lia].
    rewrite value_prepend, events_prepend, after_prepend, count_app,
      count_get_retry_events.
    destruct (IH (attempt + 1) (retry_runtime net url max_attempts retry_delay attempt rt))
      as (Hv & Hc & Ha).
    + intros i Hi. rewrite http_calls_retry_runtime.
      rewrite Nat.add_succ_comm. apply Hfail. lia.
    + rewrite Hv, Hc, Ha, http_calls_retry_runtime. repeat split; lia.
Qed.

Lemma check_service_from_first_success failed remaining attempt rt :
  (failed < remaining)%nat ->
  failed = O \/ (0 <= retry_delay <= sleep_safe)%Q ->
  (forall i, (i < failed)%nat -> attempt_fails net url (http_calls rt + i) = true) ->
  attempt_fails net url (http_calls rt + failed) = false ->
  let o := check_service_from net url max_attempts retry_delay remaining attempt rt in
  value o =
    Ret (true,
         round2 (http_took (http net url (http_calls rt + failed)) * inject_Z 1000)%Q,
         attempt + Z.of_nat failed) /\
  count is_http_get (events o) = S failed /\
  http_calls (after o) = (http_calls rt + S failed)%nat.
Proof.
  revert remaining attempt rt.
  induction failed as [|failed IH]; intros remaining attempt rt Hlt Hd Hfail Hok; cbn zeta.
  - destruct remaining as [|remaining]; [lia|].
    rewrite Nat.add_0_r in Hok. rewrite check_service_from_hit by assumption.
    cbn [value events after count is_http_get requested http_calls].
    rewrite elapsed_ms_took, Nat.add_0_r, Z.add_0_r. repeat split; lia.
  - destruct remaining as [|remaining]; [lia|].
    destruct Hd as [Hd|Hd]; [discriminate|].
    rewrite check_service_from_retry;
      [| assumption | rewrite <- (Nat.add_0_r (http_calls rt)); apply Hfail; lia].
    rewrite value_prepend, events_prepend, after_prepend, count_app,
      count_get_retry_events.
    destruct (IH remaining (attempt + 1)
                (retry_runtime net url max_attempts retry_delay attempt rt))
      as (Hv & Hc & Ha).
    + lia.
    + right. assumption.
    + intros i Hi. rewrite http_calls_retry_runtime, Nat.add_succ_comm. apply Hfail. lia.
    + rewrite http_calls_retry_runtime, Nat.add_succ_comm. assumption.
    + rewrite Hv, Hc, Ha, !http_calls_retry_runtime, Nat.add_succ_comm.
      replace (attempt + 1 + Z.of_nat failed) with (attempt + Z.of_nat (S failed)) by lia.
      repeat split; lia.
Qed.

End ProberLoop.

(** ** The prober's contract *)

Lemma attempt_fails_iff net url call :
  attempt_fails net url call = false <->
  exists status_code,
    http_result (http net url call) = Response status_code /\
    (status_code < 400 \/ 600 <= status_code).
Proof.
  unfold attempt_fails. destruct (http_result (http net url call)) as [status_code|e].
  - rewrite negb_false_iff, response_ok_iff. split; [eauto|].
    intros (s & Hs & Hok). congruence.
  - split; [discriminate|]. intros (s & Hs & _). discriminate.
Qed.

(** The successful request is the last event of the probe, and there was
    one delay after each of the failed attempts before it. *)
Lemma check_service_from_success_trace net url max_attempts retry_delay
    failed remaining attempt rt :
  (failed < remaining)%nat ->
  attempt + Z.of_nat failed <= max_attempts ->
  failed = O \/ (0 <= retry_delay <= sleep_safe)%Q ->
  (forall i, (i < failed)%nat -> attempt_fails net url (http_calls rt + i) = true) ->
  attempt_fails net url (http_calls rt + failed) = false ->
  exists before,
    events (check_service_from net url max_attempts retry_delay remaining attempt rt)
    = before ++ [HttpGet url] /\
    count is_sleep before = failed.
Proof.
  revert remaining attempt rt.
  induction failed as [|failed IH]; intros remaining attempt rt Hlt Hmax Hd Hfail Hok.
  - destruct remaining as [|remaining]; [lia|].
    rewrite Nat.add_0_r in Hok. rewrite check_service_from_hit by assumption.
    exists []. split; reflexivity.
  - destruct remaining as [|remaining]; [lia|].
    destruct Hd as [Hd|Hd]; [discriminate|].
    rewrite check_service_from_retry;
      [| assumption | rewrite <- (Nat.add_0_r (http_calls rt)); apply Hfail; lia].
    rewrite events_prepend.
    destruct (IH remaining (attempt + 1)
                (retry_runtime net url max_attempts retry_delay attempt rt))
      as (before & Hev & Hs).
    + lia.
    + lia.
    + right. assumption.
    + intros i Hi. rewrite http_calls_retry_runtime, Nat.add_succ_comm. apply Hfail. lia.
    + rewrite http_calls_retry_runtime, Nat.add_succ_comm. assumption.
    + exists (retry_events net url max_attempts retry_delay attempt rt ++ before).
      rewrite Hev, app_assoc. split; [reflexivity|].
      rewrite count_app, retry_events_sleeps, Hs.
      replace (attempt <? max_attempts) with true by (symmetry; apply Z.ltb_lt; lia).
      reflexivity.
Qed.

(** C8 (as amended): an attempt counts as a success exactly when the
    request returns a response whose status is outside 400-599 (on the
    final statuses 200-599 that is the 2xx-3xx range, see
    [response_ok_2xx_3xx]); earlier attempts that raised or got a 4xx/5xx
    status do not end the probe.  On the first successful attempt the
    prober returns [(True, elapsed, attempt)] with the time that request
    took in milliseconds rounded to two decimals and its 1-based number,
    and it returns at once: the successful request is the last thing it
    does, after one delay for each of the failed attempts before it and
    no further request.  (The delays have to be of a length that
    [time.sleep] accepts.) *)
Theorem check_service_first_success :
  forall (net : Network) (url : string) (max_attempts : Z) (retry_delay : Q)
         (rt : Runtime) (failed : nat) (status_code : Z),
    Z.of_nat failed < max_attempts ->
    failed = O \/ (0 <= retry_delay <= sleep_safe)%Q ->
    (forall i, (i < failed)%nat ->
               forall s, http_result (http net url (http_calls rt + i)) = Response s ->
                         400 <= s < 600) ->
    http_result (http net url (http_calls rt + failed)) = Response status_code ->
    status_code < 400 \/ 600 <= status_code ->
    let o := check_service net url max_attempts retry_delay rt in
    value o =
      Ret (true,
           round2 (http_took (http net url (http_calls rt + failed)) * inject_Z 1000)%Q,
           Z.of_nat failed + 1) /\
    count is_http_get (events o) = S failed /\
    http_calls (after o) = (http_calls rt + S failed)%nat /\
    exists before,
      events o = before ++ [HttpGet url] /\
      count is_sleep before = failed.
Proof.
  intros net url max_attempts retry_delay rt failed status_code Hlt Hd Hfail Hresp Hok.
  assert (Hfails : forall i, (i < failed)%nat ->
                             attempt_fails net url (http_calls rt + i) = true).
  { intros i Hi. destruct (attempt_fails net url (http_calls rt + i)) eqn:Hf;
      [reflexivity|].
    apply attempt_fails_iff in Hf. destruct Hf as (s & Hs & Hout).
    specialize (Hfail i Hi s Hs). lia. }
  assert (Hhit : attempt_fails net url (http_calls rt + failed) = false)
    by (apply attempt_fails_iff; eauto).
  unfold check_service. cbn zeta. rewrite (Z.add_comm (Z.of_nat failed) 1).
  destruct (check_service_from_first_success net url max_attempts retry_delay failed
              (Z.to_nat max_attempts) 1 rt) as (Hv & Hc & Ha);
    [lia | assumption | assumption | assumption |].
  do 3 (split; [assumption|]).
  apply check_service_from_success_trace; [lia | lia | assumption | assumption | assumption].
Qed.

(** The example of the specification: failure, failure, success (200)
    with [max_attempts = 3] gives [(True, latency of the third, 3)]. *)
Lemma check_service_first_success_witness :
  let o := check_service (scripted [Response 500; refused; Response 200] (1 # 8))
             "http://svc" 3 1 rt0 in
  value o = Ret (true, round2 ((1 # 8) * inject_Z 1000)%Q, 3) /\
  count is_http_get (events o) = 3%nat /\
  http_calls (after o) = 3%nat /\
  exists before,
    events o = before ++ [HttpGet "http://svc"] /\
    count is_sleep before = 2%nat.
Proof.
  apply (check_service_first_success
           (scripted [Response 500; refused; Response 200] (1 # 8))
           "http://svc" 3 1 rt0 2 200).
  - lia.
  - right. vm_compute. split; discriminate.
  - intros [|[|i]] Hi s Hs; [injection Hs as <-; lia | discriminate | lia].
  - reflexivity.
  - lia.
Defined.

(** C8 (as stated) fails: a response with status 103 is outside 2xx-3xx,
    and the prober returns success on it at the first attempt. *)
Lemma check_service_success_outside_2xx_3xx :
  http_result (http (scripted [Response 103] (1 # 8)) "http://svc" 0) = Response 103 /\
  ~ (200 <= 103 <= 399) /\
  value (check_service (scripted [Response 103] (1 # 8)) "http://svc" 3 1 rt0) =
    Ret (true, round2 ((1 # 8) * inject_Z 1000)%Q, 1).
Proof.
  split; [reflexivity|]. split; [lia|]. vm_compute. reflexivity.
Qed.

(** C9 (as amended): for every url, every [max_attempts] and every
    [retry_delay >= 0] the prober returns and does not raise, whatever the
    network does; and when none of the [max_attempts] requests gets a
    response with a status outside 400-599 (each raises or gets a 4xx/5xx
    status), it has made exactly that many requests and returns
    [(False, 0, max_attempts)]. *)
Theorem check_service_never_raises :
  forall (net : Network) (url : string) (max_attempts : Z) (retry_delay : Q)
         (rt : Runtime),
    (0 <= retry_delay <= sleep_safe)%Q ->
    let o := check_service net url max_attempts retry_delay rt in
    (exists res, value o = Ret res) /\
    ((forall i, (i < Z.to_nat max_attempts)%nat ->
                forall s, http_result (http net url (http_calls rt + i)) = Response s ->
                          400 <= s < 600) ->
     value o = Ret (false, 0%Q, max_attempts) /\
     count is_http_get (events o) = Z.to_nat max_attempts).
Proof.
  intros net url max_attempts retry_delay rt Hd. cbn zeta. split.
  - apply check_service_from_returns. assumption.
  - intros Hfail.
    destruct (check_service_from_exhausted net url max_attempts retry_delay
                (Z.to_nat max_attempts) 1 rt Hd) as (Hv & Hc & _).
    + intros i Hi. destruct (attempt_fails net url (http_calls rt + i)) eqn:Hf;
        [reflexivity|].
      apply attempt_fails_iff in Hf. destruct Hf as (s & Hs & Hout).
      specialize (Hfail i Hi s Hs). lia.
    + split; assumption.
Qed.

(** Three refused connections with [max_attempts = 3]. *)
Lemma check_service_never_raises_witness :
  let o := check_service (scripted [] (1 # 8)) "http://svc" 3 1 rt0 in
  (exists res, value o = Ret res) /\
  value o = Ret (false, 0%Q, 3) /\
  count is_http_get (events o) = 3%nat.
Proof.
  destruct (check_service_never_raises (scripted [] (1 # 8)) "http://svc" 3 1 rt0)
    as [Hret Hfail].
  - vm_compute. split; discriminate.
  - split; [exact Hret|]. apply Hfail.
    intros [|[|[|i]]] Hi s Hs; discriminate || lia.
Defined.

(** C9 (as stated) fails: with two attempts allowed and a negative retry
    delay, the [time.sleep] after the first failed attempt raises
    [ValueError] out of the prober. *)
Lemma check_service_raises_on_negative_delay :
  1 <= 2 /\
  value (check_service (scripted [] (1 # 8)) "http://svc" 2 (-1) rt0) =
    Raise (Exn "ValueError" "sleep length must be non-negative").
Proof. split; [lia | reflexivity]. Qed.

(** ** The two branches of the loop body *)

Section Transitions.

Variable environ : string -> option string.
Variable net : Network.
Variable cfg : Config.

Local Abbreviation recovered_state := (recovered_state cfg).
Local Abbreviation remediation := (remediation net cfg).
Local Abbreviation next_interval := (next_interval cfg).
Local Abbreviation failed_state := (failed_state cfg).
Local Abbreviation failure_message := (failure_message cfg).

Lemma on_success_steady st pair rt :
  service_status st !! pair = Some true ->
  on_success environ net cfg st pair rt = ret st rt.
Proof.
  intros Hs. unfold on_success. rewrite (bind_getitem _ _ _ _ _ Hs). reflexivity.
Qed.

Lemma on_success_recovery st pair rt attempts :
  service_status st !! pair = Some false ->
  attempt_counters st !! pair = Some attempts ->
  let alert :=
    send_telegram_alert environ net pair (inject_Z (base_interval cfg))
      (RecoveryMsg pair attempts) attempts true rt in
  on_success environ net cfg st pair rt =
  {| events := Log INFO (RecoveryMsg pair attempts) :: events alert;
     after := after alert;
     value := Ret (recovered_state st pair) |}.
Proof.
  intros Hs Hk alert. unfold on_success.
  rewrite (bind_getitem _ _ _ _ _ Hs). cbn [negb].
  rewrite (bind_getitem _ _ attempts) by exact Hk.
  rewrite bind_log.
  rewrite (bind_getitem _ _ (inject_Z (base_interval cfg)))
    by (cbn [current_intervals set_current_intervals]; apply lookup_insert_eq).
  rewrite (bind_getitem _ _ attempts) by exact Hk.
  rewrite (bind_value _ _ _ tt) by apply send_telegram_alert_returns.
  fold alert. rewrite prepend_prepend. unfold ret. cbn [prepend].
  rewrite app_nil_r. reflexivity.
Qed.

Lemma remediation_returns dc_config pair attempts rt :
  value (remediation dc_config pair attempts rt) = Ret tt.
Proof.
  unfold remediation. destruct (negb (all_values dc_config)); [reflexivity|].
  rewrite bind_log, value_prepend.
  destruct (execute_ssh_command_returns net dc_config (command cfg) pair rt)
    as (success & output & Hv).
  rewrite (bind_value _ _ _ _ Hv), value_prepend. reflexivity.
Qed.


Lemma remediation_no_check p dc_config pair attempts rt :
  count (is_check_of p) (events (remediation dc_config pair attempts rt)) = O.
Proof.
  unfold remediation. destruct (all_values dc_config); [|reflexivity]. cbn [negb].
  rewrite bind_log, events_prepend.
  destruct (execute_ssh_command_returns net dc_config (command cfg) pair rt)
    as (success & output & Hv).
  rewrite (bind_value _ _ _ _ Hv), events_prepend, !count_app,
    execute_ssh_command_no_check.
  reflexivity.
Qed.

Lemma get_ssh_config_pure dc_name rt :
  events (get_ssh_config environ dc_name rt) = [] /\
  after (get_ssh_config environ dc_name rt) = rt.
Proof.
  unfold get_ssh_config, to_int, bind.
  destruct (Py.int _); split; reflexivity.
Qed.

Lemma on_failure_outcome st pair attempts_made rt attempts interval status dc_config :
  attempt_counters st !! pair = Some attempts ->
  current_intervals st !! pair = Some interval ->
  service_status st !! pair = Some status ->
  value (get_ssh_config environ (fst pair) rt) = Ret dc_config ->
  let fix_ := remediation dc_config pair (attempts + 1) rt in
  let alert :=
    send_telegram_alert environ net pair (next_interval interval)
      (failure_message status attempts attempts_made) (attempts + 1) false (after fix_) in
  on_failure environ net cfg st pair attempts_made rt =
  {| events := events fix_ ++ events alert;
     after := after alert;
     value := Ret (failed_state st pair attempts interval status) |}.
Proof.
  intros Hk Hc Hs Hcfg fix_ alert. unfold on_failure.
  rewrite (bind_getitem _ _ _ _ _ Hk).
  rewrite (bind_value _ _ _ _ Hcfg).
  destruct (get_ssh_config_pure (fst pair) rt) as [-> ->]. rewrite prepend_nil.
  assert (Hk' : attempt_counters (set_attempt_counters st pair (attempts + 1)) !! pair
                = Some (attempts + 1)) by apply lookup_insert_eq.
  match goal with
  | |- bind ?m _ _ = _ =>
      assert (Hfix : m rt = fix_)
  end.
  { unfold fix_, remediation. destruct (negb (all_values dc_config)); [reflexivity|].
    rewrite (bind_getitem _ _ _ _ _ Hk'). rewrite !bind_log. f_equal.
    destruct (execute_ssh_command_returns net dc_config (command cfg) pair rt)
      as (success & output & Hv).
    rewrite !(bind_value _ _ _ _ Hv). f_equal.
    rewrite (bind_getitem _ _ _ _ _ Hk'). reflexivity. }
  rewrite (bind_value _ _ _ tt) by (rewrite Hfix; apply remediation_returns).
  rewrite Hfix.
  read interval. read status. fold (next_interval interval).
  destruct status.
  - rewrite bind_ret. cbn beta iota. read (attempts + 1).
    rewrite (bind_value _ _ _ tt) by apply send_telegram_alert_returns.
    rewrite prepend_prepend. unfold ret. cbn [prepend]. rewrite app_nil_r. reflexivity.
  - rewrite bind_assoc. read (attempts + 1). rewrite bind_ret. cbn beta iota.
    read (attempts + 1).
    rewrite (bind_value _ _ _ tt) by apply send_telegram_alert_returns.
    rewrite prepend_prepend. unfold ret. cbn [prepend]. rewrite app_nil_r. reflexivity.
Qed.

End Transitions.

Section TransitionsInverted.

Variable environ : string -> option string.
Variable net : Network.
Variable cfg : Config.

Lemma on_success_inv st pair rt st' :
  value (on_success environ net cfg st pair rt) = Ret st' ->
  (service_status st !! pair = Some true /\ st' = st) \/
  (service_status st !! pair = Some false /\
   exists attempts, attempt_counters st !! pair = Some attempts /\
                    st' = recovered_state cfg st pair).
Proof.
  intros H.
  destruct (service_status st !! pair) as [[|]|] eqn:Hs.
  - rewrite (on_success_steady _ _ _ _ _ _ Hs) in H. cbn [ret value] in H.
    left. split; congruence.
  - right. split; [reflexivity|].
    destruct (attempt_counters st !! pair) as [attempts|] eqn:Hk.
    + rewrite (on_success_recovery _ _ _ _ _ _ _ Hs Hk) in H. cbn [value] in H.
      exists attempts. split; congruence.
    + unfold on_success in H. rewrite (bind_getitem _ _ _ _ _ Hs) in H.
      cbn [negb] in H. rewrite bind_getitem_missing in H by lookup. discriminate.
  - unfold on_success in H. rewrite bind_getitem_missing in H by assumption.
    discriminate.
Qed.

(** The remediation step as it stands in the loop body, where the counter
    is read back from the dictionary. *)
Lemma remediation_inline st pair n dc_config rt :
  let st := set_attempt_counters st pair n in
  (if negb (all_values dc_config) then log ERROR (IncompleteSsh (fst pair))
   else
     attempts <- getitem (attempt_counters st) pair ;;
     _ <- log INFO (RunningCommand (fst pair) attempts (command cfg)) ;;
     '(success, output) <- execute_ssh_command net dc_config (command cfg) pair ;;
     attempts <- getitem (attempt_counters st) pair ;;
     log INFO (CommandResult (fst pair) success attempts)) rt =
  remediation net cfg dc_config pair n rt.
Proof.
  cbn zeta. unfold remediation. destruct (negb (all_values dc_config)); [reflexivity|].
  read n. rewrite !bind_log. f_equal.
  destruct (execute_ssh_command_returns net dc_config (command cfg) pair rt)
    as (success & output & Hv).
  rewrite !(bind_value _ _ _ _ Hv). f_equal. read n. reflexivity.
Qed.

Lemma on_failure_inv st pair attempts_made rt st' :
  value (on_failure environ net cfg st pair attempts_made rt) = Ret st' ->
  exists attempts interval status dc_config,
    attempt_counters st !! pair = Some attempts /\
    current_intervals st !! pair = Some interval /\
    service_status st !! pair = Some status /\
    value (get_ssh_config environ (fst pair) rt) = Ret dc_config /\
    st' = failed_state cfg st pair attempts interval status.
Proof.
  intros H.
  destruct (attempt_counters st !! pair) as [attempts|] eqn:Hk;
    [| unfold on_failure in H; rewrite bind_getitem_missing in H by assumption;
       discriminate].
  destruct (value (get_ssh_config environ (fst pair) rt)) as [dc_config|e] eqn:Hcfg;
    [| unfold on_failure in H; rewrite (bind_getitem _ _ _ _ _ Hk) in H;
       rewrite (bind_value_raises _ _ _ _ Hcfg) in H; discriminate].
  destruct (current_intervals st !! pair) as [interval|] eqn:Hc.
  - destruct (service_status st !! pair) as [status|] eqn:Hs.
    + rewrite (on_failure_outcome _ _ _ _ _ _ _ _ _ _ _ Hk Hc Hs Hcfg) in H.
      cbn [value] in H.
      exists attempts, interval, status, dc_config. repeat split; congruence.
    + exfalso. unfold on_failure in H. rewrite (bind_getitem _ _ _ _ _ Hk) in H.
      rewrite (bind_value _ _ _ _ Hcfg), value_prepend in H.
      rewrite (bind_value _ _ _ tt) in H
        by (rewrite (remediation_inline st pair (attempts + 1)); apply remediation_returns).
      rewrite value_prepend in H.
      rewrite (bind_getitem _ _ interval) in H by lookup.
      rewrite bind_getitem_missing in H by lookup. discriminate.
  - exfalso. unfold on_failure in H. rewrite (bind_getitem _ _ _ _ _ Hk) in H.
    rewrite (bind_value _ _ _ _ Hcfg), value_prepend in H.
    rewrite (bind_value _ _ _ tt) in H
      by (rewrite (remediation_inline st pair (attempts + 1)); apply remediation_returns).
    rewrite value_prepend in H.
    rewrite bind_getitem_missing in H by lookup. discriminate.
Qed.

End TransitionsInverted.

(** ** The loop body *)

Section LoopBody.

Variable environ : string -> option string.
Variable net : Network.
Variable cfg : Config.

Local Abbreviation probe := (probe environ net cfg).
Local Abbreviation branch := (branch environ net cfg).
Local Abbreviation status_line := (status_line environ cfg).

Lemma status_line_logged pair (is_available : bool) response_time attempts_made rt :
  let status_msg :=
    StatusMsg pair (probe_url environ pair) is_available response_time attempts_made
      (check_attempts cfg) in
  (if is_available then
     if log_success environ then log INFO status_msg else log DEBUG status_msg
   else log WARNING status_msg) rt =
  {| events := [status_line pair (is_available, response_time, attempts_made)];
     after := rt;
     value := Ret tt |}.
Proof.
  unfold status_line. destruct is_available; [destruct (log_success environ)|];
    reflexivity.
Qed.

Lemma check_pair_skipped current_time st pair rt next_check :
  next_checks st !! pair = Some next_check ->
  Qlt_bool current_time next_check = true ->
  check_pair environ net cfg current_time st pair rt = ret st rt.
Proof.
  intros Hn Hlt. unfold check_pair. read next_check. rewrite Hlt. reflexivity.
Qed.

Lemma check_pair_no_url current_time st pair rt next_check interval :
  next_checks st !! pair = Some next_check ->
  Qlt_bool current_time next_check = false ->
  truthy (environ (snd pair ++ "_URL")%string) = false ->
  current_intervals st !! pair = Some interval ->
  check_pair environ net cfg current_time st pair rt =
  {| events := [Log ERROR (UrlNotConfigured (snd pair) (snd pair ++ "_URL")%string)];
     after := rt;
     value := Ret (set_next_checks st pair (current_time + interval)%Q) |}.
Proof.
  intros Hn Hdue Hurl Hc. unfold check_pair. read next_check. rewrite Hdue.
  unfold getenv. rewrite Hurl. cbn [negb]. rewrite bind_log. read interval.
  reflexivity.
Qed.

Lemma check_pair_probed current_time st pair rt next_check result st1 interval :
  next_checks st !! pair = Some next_check ->
  Qlt_bool current_time next_check = false ->
  truthy (environ (snd pair ++ "_URL")%string) = true ->
  value (probe pair rt) = Ret result ->
  value (branch st pair result (after (probe pair rt))) = Ret st1 ->
  current_intervals st1 !! pair = Some interval ->
  check_pair environ net cfg current_time st pair rt =
  {| events := events (probe pair rt)
               ++ status_line pair result
               :: events (branch st pair result (after (probe pair rt)));
     after := after (branch st pair result (after (probe pair rt)));
     value := Ret (set_next_checks st1 pair (current_time + interval)%Q) |}.
Proof.
  intros Hn Hdue Hurl Hp Hb Hc. unfold check_pair. read next_check. rewrite Hdue.
  unfold getenv. rewrite Hurl. cbn [negb].
  fold (probe_url environ pair). fold (probe pair).
  rewrite (bind_value _ _ _ _ Hp). destruct result as [[is_available response_time] attempts_made].
  rewrite (bind_outcome _ _ _ _ _ _ (status_line_logged _ _ _ _ _)).
  fold (branch st pair (is_available, response_time, attempts_made)).
  rewrite (bind_value _ _ _ _ Hb). read interval.
  rewrite !prepend_prepend. unfold ret. cbn [prepend]. rewrite app_nil_r.
  rewrite <- app_assoc. reflexivity.
Qed.

Lemma check_pair_inv current_time st pair rt st' :
  value (check_pair environ net cfg current_time st pair rt) = Ret st' ->
  exists next_check,
    next_checks st !! pair = Some next_check /\
    ((Qlt_bool current_time next_check = true /\ st' = st) \/
     (Qlt_bool current_time next_check = false /\
      truthy (environ (snd pair ++ "_URL")%string) = false /\
      exists interval,
        current_intervals st !! pair = Some interval /\
        st' = set_next_checks st pair (current_time + interval)%Q) \/
     (Qlt_bool current_time next_check = false /\
      truthy (environ (snd pair ++ "_URL")%string) = true /\
      exists result st1 interval,
        value (probe pair rt) = Ret result /\
        value (branch st pair result (after (probe pair rt))) = Ret st1 /\
        current_intervals st1 !! pair = Some interval /\
        st' = set_next_checks st1 pair (current_time + interval)%Q)).
Proof.
  intros H.
  destruct (next_checks st !! pair) as [next_check|] eqn:Hn;
    [| unfold check_pair in H; rewrite bind_getitem_missing in H by assumption;
       discriminate].
  exists next_check. split; [reflexivity|].
  destruct (Qlt_bool current_time next_check) eqn:Hdue.
  { left. rewrite (check_pair_skipped _ _ _ _ _ Hn Hdue) in H. cbn [ret value] in H.
    split; congruence. }
  right.
  destruct (truthy (environ (snd pair ++ "_URL")%string)) eqn:Hurl.
  - right. do 2 (split; [reflexivity|]).
    destruct (value (probe pair rt)) as [result|e] eqn:Hp.
    + destruct (value (branch st pair result (after (probe pair rt)))) as [st1|e] eqn:Hb.
      * destruct (current_intervals st1 !! pair) as [interval|] eqn:Hc.
        -- rewrite (check_pair_probed _ _ _ _ _ _ _ _ Hn Hdue Hurl Hp Hb Hc) in H.
           cbn [value] in H. exists result, st1, interval. repeat split; congruence.
        -- exfalso. unfold check_pair in H. rewrite (bind_getitem _ _ _ _ _ Hn) in H.
           rewrite Hdue in H. unfold getenv in H. rewrite Hurl in H. cbn [negb] in H.
           fold (probe_url environ pair) in H. fold (probe pair) in H.
           rewrite (bind_value _ _ _ _ Hp), value_prepend in H.
           destruct result as [[is_available response_time] attempts_made].
           rewrite (bind_outcome _ _ _ _ _ _ (status_line_logged _ _ _ _ _)),
             value_prepend in H.
           fold (branch st pair (is_available, response_time, attempts_made)) in H.
           rewrite (bind_value _ _ _ _ Hb), value_prepend in H.
           rewrite bind_getitem_missing in H by assumption. discriminate.
      * exfalso. unfold check_pair in H. rewrite (bind_getitem _ _ _ _ _ Hn) in H.
        rewrite Hdue in H. unfold getenv in H. rewrite Hurl in H. cbn [negb] in H.
        fold (probe_url environ pair) in H. fold (probe pair) in H.
        rewrite (bind_value _ _ _ _ Hp), value_prepend in H.
        destruct result as [[is_available response_time] attempts_made].
        rewrite (bind_outcome _ _ _ _ _ _ (status_line_logged _ _ _ _ _)),
          value_prepend in H.
        fold (branch st pair (is_available, response_time, attempts_made)) in H.
        rewrite (bind_value_raises _ _ _ _ Hb) in H. discriminate.
    + exfalso. unfold check_pair in H. rewrite (bind_getitem _ _ _ _ _ Hn) in H.
      rewrite Hdue in H. unfold getenv in H. rewrite Hurl in H. cbn [negb] in H.
      fold (probe_url environ pair) in H. fold (probe pair) in H.
      rewrite (bind_value_raises _ _ _ _ Hp) in H. discriminate.
  - left. do 2 (split; [reflexivity|]).
    destruct (current_intervals st !! pair) as [interval|] eqn:Hc.
    + rewrite (check_pair_no_url _ _ _ _ _ _ Hn Hdue Hurl Hc) in H. cbn [value] in H.
      exists interval. split; congruence.
    + exfalso. unfold check_pair in H. rewrite (bind_getitem _ _ _ _ _ Hn) in H.
      rewrite Hdue in H. unfold getenv in H. rewrite Hurl in H. cbn [negb] in H.
      rewrite bind_log, value_prepend in H.
      rewrite bind_getitem_missing in H by assumption. discriminate.
Qed.

End LoopBody.

(** ** Recovery *)

(** C1: when a pair is Unavailable and a due check's probe succeeds, the
    check returns, posts exactly one alert, marked recovered and carrying
    the counter as it stood before the reset, and leaves the pair
    Available with [attempt_counters = 0] and [current_intervals =
    base_interval], whatever the interval was before. *)
Theorem recovery_resets :
  forall (environ : string -> option string) (net : Network) (cfg : Config)
         (current_time : Q) (st : State) (pair : Pair) (rt : Runtime)
         (next_check response_time : Q) (attempts_made attempts : Z),
    next_checks st !! pair = Some next_check ->
    (next_check <= current_time)%Q ->
    truthy (environ (snd pair ++ "_URL")%string) = true ->
    truthy (environ "TELEGRAM_BOT_TOKEN") = true ->
    truthy (environ "TELEGRAM_CHAT_ID") = true ->
    value (probe environ net cfg pair rt) = Ret (true, response_time, attempts_made) ->
    service_status st !! pair = Some false ->
    attempt_counters st !! pair = Some attempts ->
    let o := check_pair environ net cfg current_time st pair rt in
    exists st' before rest,
      value o = Ret st' /\
      events o =
        before ++
        TelegramPost (default "" (environ "TELEGRAM_BOT_TOKEN"))
          (default "" (environ "TELEGRAM_CHAT_ID"))
          {| alert_pair := pair;
             alert_recovered := true;
             alert_attempt_info := if 0 <? attempts then Some attempts else None;
             alert_message := RecoveryMsg pair attempts;
             alert_next_check := inject_Z (base_interval cfg) |} :: rest /\
      count is_telegram_post (events o) = 1%nat /\
      service_status st' !! pair = Some true /\
      attempt_counters st' !! pair = Some 0 /\
      current_intervals st' !! pair = Some (inject_Z (base_interval cfg)).
Proof.
  intros environ net cfg current_time st pair rt next_check response_time
    attempts_made attempts Hn Hdue Hurl Htok Hchat Hp Hs Hk o.
  pose proof (on_success_recovery environ net cfg st pair
                (after (probe environ net cfg pair rt)) attempts Hs Hk) as Hb.
  cbn zeta in Hb.
  destruct (send_telegram_alert_posts environ net pair (inject_Z (base_interval cfg))
              (RecoveryMsg pair attempts) attempts true
              (after (probe environ net cfg pair rt)) Htok Hchat)
    as (rest & Hev & Hrest).
  assert (Hc : current_intervals (recovered_state cfg st pair) !! pair
               = Some (inject_Z (base_interval cfg))) by lookup.
  assert (Ho : o = _) by
    (refine (check_pair_probed environ net cfg current_time st pair rt next_check
               (true, response_time, attempts_made) (recovered_state cfg st pair) _
               Hn (Qlt_bool_false _ _ Hdue) Hurl Hp _ Hc);
     cbn [branch]; rewrite Hb; reflexivity).
  rewrite Ho. cbn [branch value events]. rewrite Hb. cbn [events]. rewrite Hev.
  exists (set_next_checks (recovered_state cfg st pair) pair
            (current_time + inject_Z (base_interval cfg))%Q),
    (events (probe environ net cfg pair rt)
     ++ [status_line environ cfg pair (true, response_time, attempts_made);
         Log INFO (RecoveryMsg pair attempts)]),
    rest.
  split; [reflexivity|]. split; [rewrite <- app_assoc; reflexivity|].
  split.
  - rewrite count_app.
    rewrite (count_zero is_telegram_post (events (probe environ net cfg pair rt))).
    + cbn [count is_telegram_post status_line]. rewrite Hrest. reflexivity.
    + eapply Forall_impl; [apply check_service_from_events|].
      intros e He. apply probe_event_not_telegram, He.
  - repeat split; lookup.
Qed.

Lemma recovery_resets_witness :
  let o := check_pair environ_demo (scripted [Response 200] (1 # 8)) cfg_demo
             (inject_Z 1000) (st_down 3 (inject_Z 60) (inject_Z 990)) ("dc1", "api") rt0 in
  exists st' before rest,
    value o = Ret st' /\
    events o =
      before ++
      TelegramPost "token" "chat"
        {| alert_pair := ("dc1", "api");
           alert_recovered := true;
           alert_attempt_info := Some 3;
           alert_message := RecoveryMsg ("dc1", "api") 3;
           alert_next_check := inject_Z 10 |} :: rest /\
    count is_telegram_post (events o) = 1%nat /\
    service_status st' !! ("dc1", "api") = Some true /\
    attempt_counters st' !! ("dc1", "api") = Some 0 /\
    current_intervals st' !! ("dc1", "api") = Some (inject_Z 10).
Proof.
  apply (recovery_resets environ_demo (scripted [Response 200] (1 # 8)) cfg_demo
           (inject_Z 1000) (st_down 3 (inject_Z 60) (inject_Z 990)) ("dc1", "api") rt0
           (inject_Z 990) (round2 ((1 # 8) * inject_Z 1000)%Q) 1 3).
  - reflexivity.
  - discriminate.
  - reflexivity.
  - reflexivity.
  - reflexivity.
  - vm_compute. reflexivity.
  - reflexivity.
  - reflexivity.
Defined.

(** ** Remediation *)

Example parse_config_demo : value (parse_config environ_demo rt0) = Ret cfg_demo.
Proof. reflexivity. Qed.






(** The remediator hands [client.connect] the private key when a key path
    is configured, and the password otherwise. *)
Lemma execute_ssh_command_auth net dc_config command pair rt :
  key_error (ssh net (ssh_calls rt)) = None ->
  In (SshConnect (host dc_config) (port dc_config) (username dc_config)
        (if truthy (key dc_config) then Pkey (default "" (key dc_config))
         else Password (password dc_config)))
     (events (execute_ssh_command net dc_config command pair rt)).
Proof.
  intros Hkey.
  unfold execute_ssh_command, try_finally, try_except, bind, ssh_client,
    from_private_key_file, client_connect, exec_command, bind; outcome.
  rewrite Hkey. cases; cbn [In]; auto.
Qed.

(** C7, evaluated on a site with host, user name and password but no key:
    the failed check logs the incomplete-configuration error and never
    builds an SSH client, although [execute_ssh_command] would have
    connected with the password. *)
Lemma password_only_site_is_skipped :
  let net := scripted [] (1 # 8) in
  let o := check_pair environ_password_only net cfg_demo (inject_Z 1000)
             (init_state cfg_demo) ("dc1", "api") rt0 in
  let dc_config :=
    {| host := Some "10.0.0.1"; port := 22; username := Some "root";
       password := Some "secret"; key := None |} in
  value (get_ssh_config environ_password_only "dc1" rt0) = Ret dc_config /\
  value (probe environ_password_only net cfg_demo ("dc1", "api") rt0) =
    Ret (false, 0%Q, 3) /\
  In (Log ERROR (IncompleteSsh "dc1")) (events o) /\
  count is_ssh_client (events o) = O /\
  In (SshConnect (Some "10.0.0.1") 22 (Some "root") (Password (Some "secret")))
     (events (execute_ssh_command net dc_config "systemctl restart vpn"
                ("dc1", "api") rt0)).
Proof.
  cbn zeta. split; [reflexivity|]. split; [vm_compute; reflexivity|].
  split; [vm_compute; tauto|]. split; [vm_compute; reflexivity|].
  vm_compute. tauto.
Qed.

(** ** Backoff arithmetic *)

Section Backoff.

Variable cfg : Config.

Hypothesis factor_ge_1 : (1 <= backoff_factor cfg)%Q.

Lemma next_interval_le_max interval :
  (next_interval cfg interval <= inject_Z (max_interval cfg))%Q.
Proof. apply min_le_r. Qed.

Lemma next_interval_ge interval :
  (0 <= interval)%Q ->
  (interval <= inject_Z (max_interval cfg))%Q ->
  (interval <= next_interval cfg interval)%Q.
Proof.
  intros H0 Hmax. apply min_glb; [apply scale_ge|]; assumption.
Qed.

Lemma next_interval_pos interval :
  (0 < interval)%Q ->
  (0 < inject_Z (max_interval cfg))%Q ->
  (0 < next_interval cfg interval)%Q.
Proof.
  intros H0 Hmax. apply min_pos; [|assumption].
  apply Qlt_le_trans with interval; [assumption|].
  apply scale_ge; [apply Qlt_le_weak|]; assumption.
Qed.

End Backoff.

(** ** What one pass of the loop body does to the dictionaries *)

Lemma init_state_interval cfg pair interval :
  current_intervals (init_state cfg) !! pair = Some interval ->
  interval = inject_Z (base_interval cfg).
Proof.
  unfold init_state, dict_of. cbn [current_intervals]. intros H.
  destruct (dict_of_lookup _ _ _ _ _ H) as [->|H']; [reflexivity|].
  rewrite lookup_empty in H'. discriminate.
Qed.

Section Frame.

Variable environ : string -> option string.
Variable net : Network.
Variable cfg : Config.

Lemma only_changes_refl pair st : only_changes pair st st.
Proof. intros p _. auto. Qed.

Lemma only_changes_trans pair st1 st2 st3 :
  only_changes pair st1 st2 -> only_changes pair st2 st3 -> only_changes pair st1 st3.
Proof.
  intros H12 H23 p Hp. destruct (H12 p Hp) as (? & ? & ? & ?).
  destruct (H23 p Hp) as (? & ? & ? & ?). repeat split; congruence.
Qed.

Ltac frame :=
  intros p Hp;
  cbn [service_status next_checks current_intervals attempt_counters
       set_service_status set_next_checks set_current_intervals set_attempt_counters];
  rewrite ?lookup_insert_ne by congruence; auto.

Lemma set_next_checks_frame pair st v : only_changes pair st (set_next_checks st pair v).
Proof. frame. Qed.

Lemma recovered_state_frame pair st : only_changes pair st (recovered_state cfg st pair).
Proof. unfold recovered_state. frame. Qed.

Lemma failed_state_frame pair st attempts interval status :
  only_changes pair st (failed_state cfg st pair attempts interval status).
Proof. unfold failed_state. destruct status; frame. Qed.

Lemma branch_inv st pair result rt st1 :
  value (branch environ net cfg st pair result rt) = Ret st1 ->
  st1 = st \/ st1 = recovered_state cfg st pair \/
  exists attempts interval status,
    fst (fst result) = false /\
    attempt_counters st !! pair = Some attempts /\
    current_intervals st !! pair = Some interval /\
    service_status st !! pair = Some status /\
    st1 = failed_state cfg st pair attempts interval status.
Proof.
  destruct result as [[[|] response_time] attempts_made]; cbn [branch]; intros H.
  - destruct (on_success_inv _ _ _ _ _ _ _ H) as [[_ ->]|[_ (attempts & _ & ->)]]; auto.
  - destruct (on_failure_inv _ _ _ _ _ _ _ _ H)
      as (attempts & interval & status & dc_config & Hk & Hc & Hs & _ & ->).
    right. right. exists attempts, interval, status. auto.
Qed.

Lemma check_pair_frame current_time st pair rt st' :
  value (check_pair environ net cfg current_time st pair rt) = Ret st' ->
  only_changes pair st st'.
Proof.
  intros H. destruct (check_pair_inv _ _ _ _ _ _ _ _ H) as (next_check & Hn & Hcases).
  destruct Hcases as [(_ & ->)|[(_ & _ & interval & _ & ->)|
    (_ & _ & result & st1 & interval & _ & Hb & _ & ->)]].
  - apply only_changes_refl.
  - apply set_next_checks_frame.
  - eapply only_changes_trans; [|apply set_next_checks_frame].
    destruct (branch_inv _ _ _ _ _ Hb)
      as [->|[->|(attempts & c & status & _ & _ & _ & _ & ->)]].
    + apply only_changes_refl.
    + apply recovered_state_frame.
    + apply failed_state_frame.
Qed.

(** Where the interval of [pair] comes from after a pass for [pair]. *)
Lemma check_pair_interval current_time st pair rt st' interval' :
  value (check_pair environ net cfg current_time st pair rt) = Ret st' ->
  current_intervals st' !! pair = Some interval' ->
  current_intervals st !! pair = Some interval' \/
  interval' = inject_Z (base_interval cfg) \/
  exists interval,
    current_intervals st !! pair = Some interval /\
    interval' = next_interval cfg interval.
Proof.
  intros H Hc'. destruct (check_pair_inv _ _ _ _ _ _ _ _ H) as (next_check & Hn & Hcases).
  destruct Hcases as [(_ & ->)|[(_ & _ & interval & _ & ->)|
    (_ & _ & result & st1 & interval & _ & Hb & _ & ->)]].
  - auto.
  - auto.
  - cbn [current_intervals set_next_checks] in Hc'.
    destruct (branch_inv _ _ _ _ _ Hb)
      as [->|[->|(attempts & c & status & _ & _ & Hc & _ & ->)]].
    + auto.
    + right. left. unfold recovered_state in Hc'.
      cbn [current_intervals set_attempt_counters set_current_intervals] in Hc'.
      rewrite lookup_insert_eq in Hc'. congruence.
    + right. right. exists c. split; [assumption|].
      unfold failed_state in Hc'. destruct status;
        cbn [current_intervals set_service_status set_current_intervals] in Hc';
        rewrite lookup_insert_eq in Hc'; congruence.
Qed.

End Frame.

(** ** Startup *)

Lemma parse_config_factor environ rt cfg :
  value (parse_config environ rt) = Ret cfg -> (1 <= backoff_factor cfg)%Q.
Proof.
  unfold parse_config. intros H.
  apply bind_Ret_inv in H. destruct H as (base & _ & H).
  apply bind_Ret_inv in H. destruct H as (max & _ & H).
  apply bind_Ret_inv in H. destruct H as (raw & _ & H).
  apply bind_Ret_inv in H. destruct H as (factor & Hclamp & H).
  apply bind_Ret_inv in H. destruct H as (attempts & _ & H).
  apply bind_Ret_inv in H. destruct H as (delay & _ & H).
  apply bind_Ret_inv in H. destruct H as (pairs & _ & H).
  cbn [ret value] in H. injection H as <-. cbn [backoff_factor].
  destruct (Qlt_bool raw 1) eqn:Hlt.
  - rewrite bind_log, value_prepend in Hclamp. cbn [ret value] in Hclamp.
    injection Hclamp as <-. apply Qle_refl.
  - cbn [ret value] in Hclamp. injection Hclamp as <-.
    apply Qnot_lt_le. intros Hraw. apply Qlt_bool_iff in Hraw. congruence.
Qed.

(** ** The interval invariant *)

Section Invariant.

Variable environ : string -> option string.
Variable net : Network.
Variable cfg : Config.

Hypothesis factor_ge_1 : (1 <= backoff_factor cfg)%Q.
Hypothesis base_le_max : 0 <= base_interval cfg <= max_interval cfg.

Lemma base_bounds :
  (0 <= inject_Z (base_interval cfg))%Q /\
  (inject_Z (base_interval cfg) <= inject_Z (max_interval cfg))%Q.
Proof.
  split; [change 0%Q with (inject_Z 0)|]; rewrite <- Zle_Qle; lia.
Qed.

Lemma interval_bounds_init : interval_bounds cfg (init_state cfg).
Proof.
  intros pair interval H. rewrite (init_state_interval _ _ _ H).
  split; [apply Qle_refl | apply base_bounds].
Qed.

Lemma interval_bounds_check current_time st pair rt st' :
  interval_bounds cfg st ->
  value (check_pair environ net cfg current_time st pair rt) = Ret st' ->
  interval_bounds cfg st'.
Proof.
  intros Hinv H p interval' Hc'.
  destruct (decide (p = pair)) as [->|Hne].
  - destruct (check_pair_interval _ _ _ _ _ _ _ _ _ H Hc')
      as [Hc|[->|(interval & Hc & ->)]].
    + exact (Hinv _ _ Hc).
    + split; [apply Qle_refl | apply base_bounds].
    + destruct (Hinv _ _ Hc) as [Hlo Hhi]. split; [|apply next_interval_le_max].
      apply Qle_trans with interval; [assumption|].
      apply next_interval_ge; [assumption | | assumption].
      apply Qle_trans with (inject_Z (base_interval cfg)); [apply base_bounds | assumption].
  - destruct (check_pair_frame _ _ _ _ _ _ _ _ H p Hne) as (_ & _ & Hsame & _).
    rewrite Hsame in Hc'. exact (Hinv _ _ Hc').
Qed.

Lemma interval_bounds_reachable st :
  reachable environ net cfg st -> interval_bounds cfg st.
Proof.
  induction 1 as [|st current_time pair rt st' _ IH H].
  - apply interval_bounds_init.
  - exact (interval_bounds_check _ _ _ _ _ IH H).
Qed.

End Invariant.

(** The states the loop of [main] goes through are reachable. *)
Section LoopReachable.

Variable environ : string -> option string.
Variable net : Network.
Variable cfg : Config.




End LoopReachable.

(** C3 (as amended): when the configured intervals satisfy
    [0 <= base_interval <= max_interval], the factor is a finite number
    and intervals and factor are at most 2^53 (so that Python's floats
    keep them exact and finite), every state the loop reaches after
    startup (where the factor is clamped to at least 1) has
    [base_interval <= current_interval <= max_interval] for every pair: at
    initialisation, after every backoff update and after every reset.
    (That [parse_config] returns says that the factor was written as a
    finite number: [nan] and [inf] are not read here.) *)
Theorem interval_within_bounds :
  forall (environ : string -> option string) (net : Network) (cfg : Config)
         (rt : Runtime) (st : State),
    value (parse_config environ rt) = Ret cfg ->
    0 <= base_interval cfg <= max_interval cfg ->
    float_safe cfg ->
    reachable environ net cfg st ->
    interval_bounds cfg st.
Proof.
  intros environ net cfg rt st Hcfg Hbase _ Hst.
  eapply interval_bounds_reachable; [|exact Hbase|exact Hst].
  eapply parse_config_factor. exact Hcfg.
Qed.

(** C3 (as stated) fails: with [INTERVAL=600] and the default maximum of
    300 the initial state already records an interval above the maximum,
    and the first failed check then records one below the base interval. *)
Lemma interval_out_of_bounds :
  let net := scripted [] (1 # 8) in
  value (parse_config environ_600 rt0) = Ret cfg_600 /\
  reachable environ_600 net cfg_600 (init_state cfg_600) /\
  current_intervals (init_state cfg_600) !! ("dc1", "api") = Some (inject_Z 600) /\
  ~ (inject_Z 600 <= inject_Z (max_interval cfg_600))%Q /\
  exists st',
    value (check_pair environ_600 net cfg_600 (inject_Z 1000) (init_state cfg_600)
             ("dc1", "api") rt0) = Ret st' /\
    current_intervals st' !! ("dc1", "api") = Some (inject_Z 300) /\
    ~ (inject_Z (base_interval cfg_600) <= inject_Z 300)%Q.
Proof.
  cbn zeta. split; [reflexivity|]. split; [constructor|]. split; [reflexivity|].
  split; [intros H; vm_compute in H; congruence|].
  eexists. split; [vm_compute; reflexivity|]. split; [reflexivity|].
  intros H; vm_compute in H; congruence.
Qed.

Lemma interval_within_bounds_witness :
  interval_bounds cfg_demo
    (set_next_checks
       (failed_state cfg_demo (init_state cfg_demo) ("dc1", "api") 0 (inject_Z 10) true)
       ("dc1", "api") (inject_Z 1000 + next_interval cfg_demo (inject_Z 10))%Q).
Proof.
  apply (interval_within_bounds environ_demo (scripted [] (1 # 8)) cfg_demo rt0).
  - reflexivity.
  - cbn. lia.
  - vm_compute. repeat split; discriminate.
  - apply (reachable_check environ_demo (scripted [] (1 # 8)) cfg_demo
             (init_state cfg_demo) (inject_Z 1000) ("dc1", "api") rt0).
    + apply reachable_init.
    + vm_compute. reflexivity.
Defined.

(** ** Consecutive failures *)

Section FailureRuns.

Variable environ : string -> option string.
Variable net : Network.
Variable cfg : Config.
Variable pair : Pair.

Lemma failed_check_interval st st' interval :
  failed_check environ net cfg pair st st' ->
  current_intervals st !! pair = Some interval ->
  current_intervals st' !! pair = Some (next_interval cfg interval).
Proof.
  intros [current_time rt next_check response_time attempts_made Hn Hdue Hurl Hp H] Hc.
  destruct (check_pair_inv _ _ _ _ _ _ _ _ H) as (next_check' & Hn' & Hcases).
  assert (next_check' = next_check) as -> by congruence.
  rewrite (Qlt_bool_false _ _ Hdue), Hurl in Hcases.
  destruct Hcases as [(? & _)|[(_ & ? & _)|
    (_ & _ & result & st1 & c1 & Hp' & Hb & _ & ->)]]; try discriminate.
  assert (result = (false, response_time, attempts_made)) as -> by congruence.
  cbn [branch] in Hb.
  destruct (on_failure_inv _ _ _ _ _ _ _ _ Hb)
    as (attempts & interval0 & status & dc_config & _ & Hc0 & _ & _ & ->).
  assert (interval0 = interval) as -> by congruence.
  unfold failed_state. destruct status; lookup.
Qed.

Lemma failure_run_head st intervals :
  failure_run environ net cfg pair st intervals ->
  exists interval rest,
    intervals = interval :: rest /\ current_intervals st !! pair = Some interval.
Proof. intros [st0 interval H|st0 st' interval rest H _ _]; eauto. Qed.

Hypothesis factor_ge_1 : (1 <= backoff_factor cfg)%Q.

Lemma failure_run_monotone st intervals :
  failure_run environ net cfg pair st intervals ->
  (forall interval, current_intervals st !! pair = Some interval ->
                    (0 <= interval <= inject_Z (max_interval cfg))%Q) ->
  Sorted Qle intervals /\
  Forall (fun interval => (interval <= inject_Z (max_interval cfg))%Q) intervals.
Proof.
  induction 1 as [st interval Hc|st st' interval rest Hc Hstep Hrun IH]; intros Hstart.
  - destruct (Hstart _ Hc) as [_ Hmax]. split; repeat constructor. exact Hmax.
  - destruct (Hstart _ Hc) as [H0 Hmax].
    pose proof (failed_check_interval _ _ _ Hstep Hc) as Hc'.
    destruct IH as [Hsorted Hall].
    { intros interval' Hi. assert (interval' = next_interval cfg interval) as ->
        by congruence.
      split; [|apply next_interval_le_max].
      apply Qle_trans with interval; [assumption|].
      apply next_interval_ge; assumption. }
    destruct (failure_run_head _ _ Hrun) as (interval' & rest' & -> & Hhead).
    assert (interval' = next_interval cfg interval) as -> by congruence.
    split.
    + constructor; [assumption|]. constructor. apply next_interval_ge; assumption.
    + constructor; assumption.
Qed.

End FailureRuns.

(** C4 (as amended): with a finite backoff factor of at least 1, and
    intervals and factor of at most 2^53 (so that Python's floats keep
    them exact and finite), along any run of consecutive failed checks of
    a pair that starts from a recorded interval between 0 and
    [max_interval], the recorded [current_interval] values are
    non-decreasing and never exceed [max_interval]. *)
Theorem backoff_nondecreasing :
  forall (environ : string -> option string) (net : Network) (cfg : Config)
         (pair : Pair) (st : State) (intervals : list Q),
    (1 <= backoff_factor cfg)%Q ->
    float_safe cfg ->
    (forall interval, current_intervals st !! pair = Some interval ->
                      (0 <= interval <= inject_Z (max_interval cfg))%Q) ->
    failure_run environ net cfg pair st intervals ->
    Sorted Qle intervals /\
    Forall (fun interval => (interval <= inject_Z (max_interval cfg))%Q) intervals.
Proof.
  intros environ net cfg pair st intervals Hfactor _ Hstart Hrun.
  eapply failure_run_monotone; eassumption.
Qed.

(** The example of the specification: base 10, factor 2, maximum 60; the
    first failure takes the interval from 10 to 20. *)
Lemma backoff_nondecreasing_witness :
  Sorted Qle [inject_Z 10; next_interval cfg_demo (inject_Z 10)] /\
  Forall (fun interval => (interval <= inject_Z (max_interval cfg_demo))%Q)
    [inject_Z 10; next_interval cfg_demo (inject_Z 10)].
Proof.
  apply (backoff_nondecreasing environ_demo (scripted [] (1 # 8)) cfg_demo
           ("dc1", "api") (init_state cfg_demo)).
  - discriminate.
  - vm_compute. repeat split; discriminate.
  - intros interval H. vm_compute in H. injection H as <-. split; discriminate.
  - eapply failure_run_step.
    + reflexivity.
    + apply (failed_check_intro environ_demo (scripted [] (1 # 8)) cfg_demo
               ("dc1", "api") (init_state cfg_demo) _ (inject_Z 1000) rt0 0%Q 0%Q 3).
      * reflexivity.
      * discriminate.
      * reflexivity.
      * vm_compute. reflexivity.
      * vm_compute. reflexivity.
    + apply failure_run_start. vm_compute. reflexivity.
Defined.

(** C4 (as stated) fails: with [INTERVAL=600], the default maximum of 300
    and factor 2, the first failed check takes the recorded interval from
    600 down to 300, and 600 exceeds the maximum.  The values written by
    the update alone can decrease as well: with [INTERVAL=-5] two
    consecutive failed checks write -10 and then -20. *)
Lemma backoff_decreases_from_above_max :
  ((1 <= backoff_factor cfg_600)%Q /\
   failure_run environ_600 (scripted [] (1 # 8)) cfg_600 ("dc1", "api")
     (init_state cfg_600) [inject_Z 600; inject_Z 300] /\
   ~ Sorted Qle [inject_Z 600; inject_Z 300] /\
   ~ Forall (fun interval => (interval <= inject_Z (max_interval cfg_600))%Q)
       [inject_Z 600; inject_Z 300]) /\
  ((1 <= backoff_factor cfg_negative)%Q /\
   value (parse_config environ_negative rt0) = Ret cfg_negative /\
   failure_run environ_negative (scripted [] (1 # 8)) cfg_negative ("dc1", "api")
     (init_state cfg_negative) [inject_Z (-5); inject_Z (-10); inject_Z (-20)] /\
   ~ Sorted Qle [inject_Z (-10); inject_Z (-20)]).
Proof.
  split.
  - split; [discriminate|]. split.
    + eapply failure_run_step.
      * reflexivity.
      * apply (failed_check_intro environ_600 (scripted [] (1 # 8)) cfg_600
                 ("dc1", "api") (init_state cfg_600) _ (inject_Z 1000) rt0 0%Q 0%Q 3).
        -- reflexivity.
        -- discriminate.
        -- reflexivity.
        -- vm_compute. reflexivity.
        -- vm_compute. reflexivity.
      * apply failure_run_start. vm_compute. reflexivity.
    + split.
      * intros H. inversion H as [|? ? _ Hhd]. inversion Hhd as [|? ? Hle].
        vm_compute in Hle. congruence.
      * intros H. inversion H as [|? ? Hle _]. vm_compute in Hle. congruence.
  - split; [discriminate|]. split; [reflexivity|]. split.
    + eapply failure_run_step.
      * reflexivity.
      * apply (failed_check_intro environ_negative (scripted [] (1 # 8)) cfg_negative
                 ("dc1", "api") (init_state cfg_negative) _ (inject_Z 1000) rt0
                 0%Q 0%Q 3).
        -- reflexivity.
        -- discriminate.
        -- reflexivity.
        -- vm_compute. reflexivity.
        -- vm_compute. reflexivity.
      * eapply failure_run_step.
        -- vm_compute. reflexivity.
        -- eapply (failed_check_intro environ_negative (scripted [] (1 # 8))
                     cfg_negative ("dc1", "api") _ _ (inject_Z 1040) rt0
                     (inject_Z 1000 + inject_Z (-10))%Q 0%Q 3).
           ++ vm_compute. reflexivity.
           ++ discriminate.
           ++ reflexivity.
           ++ vm_compute. reflexivity.
           ++ vm_compute. reflexivity.
        -- apply failure_run_start. vm_compute. reflexivity.
    + intros H. inversion H as [|? ? _ Hhd]. inversion Hhd as [|? ? Hle].
      vm_compute in Hle. congruence.
Qed.

(** ** Rescheduling *)

(** C5 (as amended): the [next_checks] entry written at the end of a due
    check is the time snapshot of the tick plus the pair's interval as the
    check left it; so it is at or after the time the check completed
    exactly when the time from the snapshot to the completion is at most
    that interval. *)
Theorem next_check_from_snapshot :
  forall (environ : string -> option string) (net : Network) (cfg : Config)
         (current_time : Q) (st : State) (pair : Pair) (rt : Runtime)
         (next_check : Q) (st' : State),
    next_checks st !! pair = Some next_check ->
    (next_check <= current_time)%Q ->
    let o := check_pair environ net cfg current_time st pair rt in
    value o = Ret st' ->
    exists interval,
      current_intervals st' !! pair = Some interval /\
      next_checks st' !! pair = Some (current_time + interval)%Q /\
      ((clock (after o) <= current_time + interval)%Q <->
       (clock (after o) - current_time <= interval)%Q).
Proof.
  intros environ net cfg current_time st pair rt next_check st' Hn Hdue o H.
  destruct (check_pair_inv _ _ _ _ _ _ _ _ H) as (next_check' & Hn' & Hcases).
  assert (next_check' = next_check) as -> by congruence.
  rewrite (Qlt_bool_false _ _ Hdue) in Hcases.
  destruct Hcases as [(? & _)|[(_ & _ & interval & Hc & ->)|
    (_ & _ & result & st1 & interval & _ & _ & Hc & ->)]]; try discriminate;
    exists interval; (split; [lookup|]); (split; [lookup|]); split; intros Hle; lra.
Qed.

Lemma next_check_from_snapshot_witness :
  let o := check_pair environ_demo (scripted [Response 200] (1 # 8)) cfg_demo
             (inject_Z 1000) (init_state cfg_demo) ("dc1", "api") rt0 in
  exists interval,
    current_intervals
      (set_next_checks (init_state cfg_demo) ("dc1", "api")
         (inject_Z 1000 + inject_Z 10)%Q) !! ("dc1", "api") = Some interval /\
    next_checks
      (set_next_checks (init_state cfg_demo) ("dc1", "api")
         (inject_Z 1000 + inject_Z 10)%Q) !! ("dc1", "api")
    = Some (inject_Z 1000 + interval)%Q /\
    ((clock (after o) <= inject_Z 1000 + interval)%Q <->
     (clock (after o) - inject_Z 1000 <= interval)%Q).
Proof.
  apply (next_check_from_snapshot environ_demo (scripted [Response 200] (1 # 8))
           cfg_demo (inject_Z 1000) (init_state cfg_demo) ("dc1", "api") rt0 0%Q).
  - reflexivity.
  - discriminate.
  - vm_compute. reflexivity.
Defined.

(** C5 (as stated) fails: three attempts that each time out after ten
    seconds, the remediation and the alert take the check past the 20
    seconds of the new interval, counted from the snapshot. *)
Lemma next_check_before_completion :
  let o := check_pair environ_demo (scripted [] (inject_Z 10)) cfg_demo (clock rt0)
             (init_state cfg_demo) ("dc1", "api") rt0 in
  exists st' next_check,
    value o = Ret st' /\
    next_checks st' !! ("dc1", "api") = Some next_check /\
    (next_check == inject_Z 1020)%Q /\
    (clock (after o) == 2069 # 2)%Q /\
    ~ (clock (after o) <= next_check)%Q.
Proof.
  cbn zeta. eexists. eexists.
  split; [vm_compute; reflexivity|]. split; [vm_compute; reflexivity|].
  split; [reflexivity|]. split; [vm_compute; reflexivity|].
  intros H. vm_compute in H. congruence.
Qed.

(** ** One check per pair and tick *)

Lemma count_no_check_of (pair : Pair) (evs : list Event) :
  no_check_of pair evs -> count (is_check_of pair) evs = O.
Proof. apply count_zero. Qed.

Lemma bind_no_check_of {A B : Type} (pair : Pair) (m : M A) (f : A -> M B) rt :
  no_check_of pair (events (m rt)) ->
  (forall a rt', no_check_of pair (events (f a rt'))) ->
  no_check_of pair (events (bind m f rt)).
Proof.
  intros Hm Hf. rewrite events_bind. apply Forall_app. split; [assumption|].
  destruct (value (m rt)); [apply Hf | constructor].
Qed.

Lemma getitem_no_check_of {V : Type} (pair : Pair) (d : gmap Pair V) (k : Pair) (rt : Runtime) :
  no_check_of pair (events (getitem d k rt)).
Proof. rewrite getitem_events. constructor. Qed.

Section Quiet.

Variable environ : string -> option string.
Variable net : Network.
Variable cfg : Config.
Variable p : Pair.

Lemma get_ssh_config_no_check dc_name rt :
  no_check_of p (events (get_ssh_config environ dc_name rt)).
Proof. destruct (get_ssh_config_pure environ dc_name rt) as [-> _]. constructor. Qed.

(** Discharges [no_check_of] goals along the binds of a computation. *)
Ltac quiet :=
  repeat match goal with
    | |- no_check_of _ (events (getitem _ _ _)) => apply getitem_no_check_of
    | |- no_check_of _ (events (send_telegram_alert _ _ _ _ _ _ _ _)) =>
        apply count_zero_inv, send_telegram_alert_no_check
    | |- no_check_of _ (events (execute_ssh_command _ _ _ _ _)) =>
        apply count_zero_inv, execute_ssh_command_no_check
    | |- no_check_of _ (events (get_ssh_config _ _ _)) => apply get_ssh_config_no_check
    | |- no_check_of _ (events (bind _ _ _)) => apply bind_no_check_of; [|intros ? ?]
    | |- no_check_of _ (events (ret _ _)) => constructor
    | |- no_check_of _ (events (log _ _ _)) => repeat constructor
    end.

Lemma on_success_no_check st pair rt :
  no_check_of p (events (on_success environ net cfg st pair rt)).
Proof.
  unfold on_success. quiet.
  match goal with |- context [negb ?b] => destruct b end; cbn [negb]; quiet.
Qed.

Lemma on_failure_no_check st pair attempts_made rt :
  no_check_of p (events (on_failure environ net cfg st pair attempts_made rt)).
Proof.
  unfold on_failure. quiet.
  - match goal with |- context [negb ?b] => destruct b end; cbn [negb]; quiet.
    match goal with x : (bool * string)%type |- _ => destruct x end. quiet.
  - match goal with |- context [if ?b then _ else _] => destruct b end; quiet.
  - match goal with x : (Message * State)%type |- _ => destruct x end. quiet.
Qed.

Lemma branch_no_check st pair result rt :
  no_check_of p (events (branch environ net cfg st pair result rt)).
Proof.
  destruct result as [[[|] response_time] attempts_made]; cbn [branch];
    [apply on_success_no_check | apply on_failure_no_check].
Qed.

Lemma probe_no_check pair rt : no_check_of p (events (probe environ net cfg pair rt)).
Proof.
  eapply Forall_impl; [apply check_service_from_events|].
  intros e He. apply probe_event_not_check, He.
Qed.

(** A pass of the loop body logs at most one status line, and none for
    another pair. *)
Lemma check_pair_checks current_time st pair rt :
  (count (is_check_of p) (events (check_pair environ net cfg current_time st pair rt))
   <= if decide (pair = p) then 1 else 0)%nat.
Proof.
  unfold check_pair, getenv. rewrite events_bind, getitem_events. cbn [app].
  destruct (value (getitem (next_checks st) pair rt)) as [next_check|e];
    [|cbn [count]; lia].
  rewrite getitem_after.
  destruct (Qlt_bool current_time next_check); [cbn [ret events count]; lia|].
  destruct (negb (truthy (environ (snd pair ++ "_URL")%string))).
  - rewrite count_no_check_of; [lia|]. quiet.
  - fold (probe_url environ pair). fold (probe environ net cfg pair).
    rewrite events_bind, count_app, (count_no_check_of _ _ (probe_no_check pair rt)).
    destruct (value (probe environ net cfg pair rt))
      as [[[is_available response_time] attempts_made]|e]; [|cbn [count]; lia].
    rewrite (bind_outcome _ _ _ _ _ _ (status_line_logged environ cfg _ _ _ _ _)).
    rewrite events_prepend, count_app.
    fold (branch environ net cfg st pair (is_available, response_time, attempts_made)).
    rewrite (count_no_check_of p (events (bind _ _ _))).
    + cbn [count status_line is_check_of]. unfold decide, bool_decide.
      destruct (decide_rel eq pair p); cbn; lia.
    + quiet. apply branch_no_check.
Qed.

End Quiet.

(** The same pair listed several times has one entry in each dictionary. *)
Lemma init_state_dom cfg :
  dom (service_status (init_state cfg)) = list_to_set (mappings cfg) /\
  dom (next_checks (init_state cfg)) = list_to_set (mappings cfg) /\
  dom (current_intervals (init_state cfg)) = list_to_set (mappings cfg) /\
  dom (attempt_counters (init_state cfg)) = list_to_set (mappings cfg).
Proof.
  unfold init_state, dict_of.
  cbn [service_status next_checks current_intervals attempt_counters].
  rewrite !dict_of_dom, !dom_empty_L, !(right_id_L ∅ (∪)). auto.
Qed.

Section Schedule.

Variable environ : string -> option string.
Variable net : Network.
Variable cfg : Config.

Hypothesis factor_ge_1 : (1 <= backoff_factor cfg)%Q.
Hypothesis base_pos : 0 < base_interval cfg.
Hypothesis max_pos : 0 < max_interval cfg.

Lemma base_pos_Q : (0 < inject_Z (base_interval cfg))%Q.
Proof. change 0%Q with (inject_Z 0). rewrite <- Zlt_Qlt. exact base_pos. Qed.

Lemma max_pos_Q : (0 < inject_Z (max_interval cfg))%Q.
Proof. change 0%Q with (inject_Z 0). rewrite <- Zlt_Qlt. exact max_pos. Qed.

Lemma positive_init : positive_intervals (init_state cfg).
Proof.
  intros pair interval H. rewrite (init_state_interval _ _ _ H). apply base_pos_Q.
Qed.

Lemma positive_check current_time st pair rt st' :
  positive_intervals st ->
  value (check_pair environ net cfg current_time st pair rt) = Ret st' ->
  positive_intervals st'.
Proof.
  intros Hpos H p interval' Hc'.
  destruct (decide (p = pair)) as [->|Hne].
  - destruct (check_pair_interval _ _ _ _ _ _ _ _ _ H Hc')
      as [Hc|[->|(interval & Hc & ->)]].
    + exact (Hpos _ _ Hc).
    + apply base_pos_Q.
    + apply next_interval_pos; [assumption | exact (Hpos _ _ Hc) | apply max_pos_Q].
  - destruct (check_pair_frame _ _ _ _ _ _ _ _ H p Hne) as (_ & _ & Hsame & _).
    rewrite Hsame in Hc'. exact (Hpos _ _ Hc').
Qed.

Lemma positive_reachable st :
  reachable environ net cfg st -> positive_intervals st.
Proof.
  induction 1 as [|st current_time pair rt st' _ IH H].
  - apply positive_init.
  - exact (positive_check _ _ _ _ _ IH H).
Qed.

(** Once a pass for [pair] has returned, its next check lies after the
    snapshot of the tick. *)
Lemma scheduled_after_check current_time st pair rt st' :
  positive_intervals st ->
  value (check_pair environ net cfg current_time st pair rt) = Ret st' ->
  scheduled_after current_time pair st'.
Proof.
  intros Hpos H. pose proof (positive_check _ _ _ _ _ Hpos H) as Hpos'.
  destruct (check_pair_inv _ _ _ _ _ _ _ _ H) as (next_check & Hn & Hcases).
  destruct Hcases as [(Hlt & ->)|[(_ & _ & interval & Hc & ->)|
    (_ & _ & result & st1 & interval & _ & _ & Hc & ->)]].
  - exists next_check. split; [assumption | apply Qlt_bool_iff, Hlt].
  - exists (current_time + interval)%Q. split; [lookup|].
    apply Qlt_add_pos. exact (Hpos _ _ Hc).
  - exists (current_time + interval)%Q. split; [lookup|].
    apply Qlt_add_pos. apply (Hpos' pair). lookup.
Qed.

Lemma scheduled_after_other current_time st pair p rt st' :
  p <> pair ->
  scheduled_after current_time p st ->
  value (check_pair environ net cfg current_time st pair rt) = Ret st' ->
  scheduled_after current_time p st'.
Proof.
  intros Hne (next_check & Hn & Hlt) H.
  destruct (check_pair_frame _ _ _ _ _ _ _ _ H p Hne) as (_ & Hsame & _).
  exists next_check. split; [congruence | assumption].
Qed.

Lemma for_pairs_scheduled current_time p pairs st rt :
  positive_intervals st ->
  scheduled_after current_time p st ->
  count (is_check_of p) (events (for_pairs environ net cfg current_time pairs st rt)) = O.
Proof.
  revert st rt. induction pairs as [|pair pairs IH]; intros st rt Hpos Hsched;
    cbn [for_pairs]; [reflexivity|].
  rewrite events_bind, count_app.
  assert (Hfirst : count (is_check_of p)
                     (events (check_pair environ net cfg current_time st pair rt)) = O).
  { destruct (decide (pair = p)) as [->|Hne].
    - destruct Hsched as (next_check & Hn & Hlt).
      rewrite (check_pair_skipped _ _ _ _ _ _ _ _ Hn (Qlt_bool_true _ _ Hlt)).
      reflexivity.
    - pose proof (check_pair_checks environ net cfg p current_time st pair rt) as Hle.
      destruct (decide (pair = p)); [contradiction | lia]. }
  rewrite Hfirst.
  destruct (value (check_pair environ net cfg current_time st pair rt)) as [st'|e] eqn:H;
    [|reflexivity].
  apply IH.
  - exact (positive_check _ _ _ _ _ Hpos H).
  - destruct (decide (p = pair)) as [->|Hne].
    + exact (scheduled_after_check _ _ _ _ _ Hpos H).
    + exact (scheduled_after_other _ _ _ _ _ _ Hne Hsched H).
Qed.

Lemma for_pairs_once current_time p pairs st rt :
  positive_intervals st ->
  (count (is_check_of p) (events (for_pairs environ net cfg current_time pairs st rt))
   <= 1)%nat.
Proof.
  revert st rt. induction pairs as [|pair pairs IH]; intros st rt Hpos;
    cbn [for_pairs]; [cbn; lia|].
  rewrite events_bind, count_app.
  pose proof (check_pair_checks environ net cfg p current_time st pair rt) as Hle.
  destruct (value (check_pair environ net cfg current_time st pair rt)) as [st'|e] eqn:H.
  - pose proof (positive_check _ _ _ _ _ Hpos H) as Hpos'.
    destruct (decide (pair = p)) as [->|Hne].
    + rewrite for_pairs_scheduled;
        [lia | assumption | exact (scheduled_after_check _ _ _ _ _ Hpos H)].
    + specialize (IH st' (after (check_pair environ net cfg current_time st pair rt))
                    Hpos'). lia.
  - cbn [count]. destruct (decide (pair = p)); lia.
Qed.

Lemma tick_once p st rt :
  positive_intervals st ->
  (count (is_check_of p) (events (tick environ net cfg st rt)) <= 1)%nat.
Proof.
  intros Hpos. unfold tick. rewrite events_bind. cbn [time_time events value after app].
  rewrite events_bind, count_app.
  pose proof (for_pairs_once (clock rt) p (mappings cfg) st rt Hpos) as Hle.
  destruct (value (for_pairs environ net cfg (clock rt) (mappings cfg) st rt));
    [|cbn [count]; lia].
  rewrite (bind_outcome _ _ _ [Sleep (inject_Z 5)] _ tt) by reflexivity.
  rewrite events_prepend. cbn [ret events app count is_check_of]. lia.
Qed.

End Schedule.

(** C10 (as amended): the dictionaries have one entry per distinct pair,
    so every occurrence of a pair in the mapping list reads and writes the
    same record; and when [base_interval] and [max_interval] are positive,
    the factor is a finite number and intervals and factor are at most
    2^53 (so that Python's floats keep them exact and finite), a pass of
    the loop body for a pair leaves its next check after the snapshot of
    the tick, so that in any single tick at most one check of that pair is
    performed, however often the pair is listed.  (That [parse_config]
    returns says that the factor was written as a finite number: [nan]
    and [inf] are not read here.) *)
Theorem one_check_per_pair_and_tick :
  forall (environ : string -> option string) (net : Network) (cfg : Config)
         (rt_start : Runtime) (st : State) (rt : Runtime) (pair : Pair),
    value (parse_config environ rt_start) = Ret cfg ->
    0 < base_interval cfg ->
    0 < max_interval cfg ->
    float_safe cfg ->
    reachable environ net cfg st ->
    (dom (service_status (init_state cfg)) = list_to_set (mappings cfg) /\
     dom (next_checks (init_state cfg)) = list_to_set (mappings cfg) /\
     dom (current_intervals (init_state cfg)) = list_to_set (mappings cfg) /\
     dom (attempt_counters (init_state cfg)) = list_to_set (mappings cfg)) /\
    (forall current_time rt' st',
        value (check_pair environ net cfg current_time st pair rt') = Ret st' ->
        scheduled_after current_time pair st') /\
    (count (is_check_of pair) (events (tick environ net cfg st rt)) <= 1)%nat.
Proof.
  intros environ net cfg rt_start st rt pair Hcfg Hbase Hmax _ Hst.
  pose proof (parse_config_factor _ _ _ Hcfg) as Hfactor.
  pose proof (positive_reachable environ net cfg Hfactor Hbase Hmax st Hst) as Hpos.
  split; [apply init_state_dom|]. split.
  - intros current_time rt' st' H.
    exact (scheduled_after_check environ net cfg Hfactor Hbase Hmax _ _ _ _ _ Hpos H).
  - exact (tick_once environ net cfg Hfactor Hbase Hmax pair st rt Hpos).
Qed.

Lemma one_check_per_pair_and_tick_witness :
  (dom (service_status (init_state cfg_twice)) = list_to_set (mappings cfg_twice) /\
   dom (next_checks (init_state cfg_twice)) = list_to_set (mappings cfg_twice) /\
   dom (current_intervals (init_state cfg_twice)) = list_to_set (mappings cfg_twice) /\
   dom (attempt_counters (init_state cfg_twice)) = list_to_set (mappings cfg_twice)) /\
  (forall current_time rt' st',
      value (check_pair environ_twice (scripted [Response 200] (1 # 8)) cfg_twice
               current_time (init_state cfg_twice) ("dc1", "api") rt') = Ret st' ->
      scheduled_after current_time ("dc1", "api") st') /\
  (count (is_check_of ("dc1", "api"))
     (events (tick environ_twice (scripted [Response 200] (1 # 8)) cfg_twice
                (init_state cfg_twice) rt0)) <= 1)%nat.
Proof.
  apply (one_check_per_pair_and_tick environ_twice (scripted [Response 200] (1 # 8))
           cfg_twice rt0 (init_state cfg_twice) rt0 ("dc1", "api")).
  - vm_compute. reflexivity.
  - reflexivity.
  - reflexivity.
  - vm_compute. repeat split; discriminate.
  - apply reachable_init.
Defined.

(** With the pair listed twice, the tick above performs one check. *)
Example tick_twice_listed :
  count (is_check_of ("dc1", "api"))
    (events (tick environ_twice (scripted [Response 200] (1 # 8)) cfg_twice
               (init_state cfg_twice) rt0)) = 1%nat.
Proof. vm_compute. reflexivity. Qed.

(** C10 (as stated) fails: with [INTERVAL=0] the next check written by the
    first occurrence equals the snapshot, and the second occurrence of the
    pair is checked again in the same tick. *)
Lemma zero_interval_checks_twice :
  exists cfg,
    value (parse_config environ_zero_twice rt0) = Ret cfg /\
    mappings cfg = [("dc1", "api"); ("dc1", "api")] /\
    count (is_check_of ("dc1", "api"))
      (events (tick environ_zero_twice (scripted [Response 200; Response 200] (1 # 8))
                 cfg (init_state cfg) rt0)) = 2%nat.
Proof.
  eexists. split; [vm_compute; reflexivity|]. split; vm_compute; reflexivity.
Qed.

(** ** Errors of the collaborators stay inside the loop *)


Section Containment.

Variable environ : string -> option string.
Variable net : Network.
Variable cfg : Config.

Hypothesis delay_nonneg : (0 <= check_retry_delay cfg)%Q.
Hypothesis delay_safe : (check_retry_delay cfg <= sleep_safe)%Q.









End Containment.


(** C6, evaluated on a site whose SSH port is not a number: the first
    failed check raises [ValueError] out of the loop, and [main] ends. *)
Lemma bad_port_stops_the_loop :
  value (probe environ_bad_port (scripted [] (1 # 8)) cfg_demo ("dc1", "api") rt0) =
    Ret (false, 0%Q, 3) /\
  value (main environ_bad_port (scripted [] (1 # 8)) 1 rt0) =
    Raise (Exn "ValueError" "invalid literal for int() with base 10").
Proof. split; vm_compute; reflexivity. Qed.

(** * Further properties *)

(** ** Strings *)

Lemma contains_app c (a b : string) :
  contains c (a ++ b)%string = contains c a || contains c b.
Proof.
  induction a as [|x a IH]; simpl; [reflexivity|].
  rewrite IH. apply orb_assoc.
Qed.

Lemma split_first_Some c s h t :
  split_first c s = Some (h, t) ->
  s = (h ++ String c t)%string /\ contains c h = false.
Proof.
  revert h. induction s as [|a s IH]; intros h; cbn [split_first]; [discriminate|].
  destruct (Ascii.eqb a c) eqn:E.
  - intros [= <- <-]. apply Ascii.eqb_eq in E as ->. split; reflexivity.
  - destruct (split_first c s) as [[h' t']|]; [|discriminate].
    intros [= <- <-]. destruct (IH h' eq_refl) as [-> Hh].
    split; [reflexivity|]. cbn [contains]. rewrite E, Hh. reflexivity.
Qed.

Lemma split_first_None c s : split_first c s = None <-> contains c s = false.
Proof.
  induction s as [|a s IH]; cbn [split_first contains]; [tauto|].
  destruct (Ascii.eqb a c); cbn [orb].
  - split; discriminate.
  - destruct (split_first c s) as [[h t]|].
    + split; [discriminate|]. intros H. apply IH in H. discriminate.
    + split; [intros _; apply IH; reflexivity | reflexivity].
Qed.

Lemma split_first_app c h t :
  contains c h = false -> split_first c (h ++ String c t)%string = Some (h, t).
Proof.
  induction h as [|a h IH]; simpl.
  - intros _. rewrite Ascii.eqb_refl. reflexivity.
  - intros H. apply orb_false_iff in H as [-> H]. rewrite (IH H). reflexivity.
Qed.

Lemma contains_lstrip c s : contains c (lstrip s) = true -> contains c s = true.
Proof.
  induction s as [|a s IH]; cbn [lstrip contains]; [auto|].
  destruct (is_space a); [|auto].
  intros H. rewrite (IH H). apply orb_true_r.
Qed.

Lemma contains_rstrip c s : contains c (rstrip s) = true -> contains c s = true.
Proof.
  induction s as [|a s IH]; cbn [rstrip contains]; [auto|].
  destruct (is_space a && String.eqb (rstrip s) ""); cbn [contains]; [discriminate|].
  intros H. apply orb_true_iff in H as [-> | H]; [reflexivity|].
  rewrite (IH H). apply orb_true_r.
Qed.

Lemma contains_strip c s : contains c s = false -> contains c (strip s) = false.
Proof.
  intros H. destruct (contains c (strip s)) eqn:E; [|reflexivity].
  apply contains_rstrip, contains_lstrip in E. congruence.
Qed.

Lemma split_nonempty c s : split c s <> [].
Proof.
  destruct s as [|a s]; cbn [split]; [discriminate|].
  destruct (Ascii.eqb a c); [discriminate|]. destruct (split c s); discriminate.
Qed.

Lemma split_no_sep c s t : In t (split c s) -> contains c t = false.
Proof.
  revert t. induction s as [|a s IH]; intros t; cbn [split].
  - intros [<- | []]. reflexivity.
  - destruct (Ascii.eqb a c) eqn:E.
    + intros [<- | H]; [reflexivity | auto].
    + destruct (split c s) as [|h rest] eqn:Hs.
      * intros [<- | []]. cbn [contains]. rewrite E. reflexivity.
      * intros [<- | H].
        -- cbn [contains]. rewrite E. apply IH. left. reflexivity.
        -- apply IH. right. exact H.
Qed.

Lemma rstrip_idempotent s : rstrip (rstrip s) = rstrip s.
Proof.
  induction s as [|a s IH]; cbn [rstrip]; [reflexivity|].
  destruct (is_space a && String.eqb (rstrip s) "") eqn:E; [reflexivity|].
  cbn [rstrip]. rewrite IH, E. reflexivity.
Qed.

Lemma lstrip_head s : lstrip s = "" \/ exists a r, lstrip s = String a r /\ is_space a = false.
Proof.
  induction s as [|a s IH]; cbn [lstrip]; [left; reflexivity|].
  destruct (is_space a) eqn:E; [exact IH|]. right. eauto.
Qed.

Lemma strip_idempotent s : strip (strip s) = strip s.
Proof.
  unfold strip. destruct (lstrip_head s) as [-> | (a & r & -> & Ha)]; [reflexivity|].
  assert (Hr : rstrip (String a r) = String a (rstrip r)).
  { cbn [rstrip]. rewrite Ha. reflexivity. }
  assert (Hl : lstrip (rstrip (String a r)) = rstrip (String a r)).
  { rewrite Hr. cbn [lstrip]. rewrite Ha. reflexivity. }
  rewrite Hl. apply rstrip_idempotent.
Qed.

(** ** The mapping list *)

Lemma parse_pairs_outcome tokens acc rt :
  parse_pairs tokens acc rt =
  {| events := malformed_logs tokens;
     after := rt;
     value := Ret (acc ++ omap token_pair tokens) |}.
Proof.
  revert acc. induction tokens as [|token rest IH]; intros acc.
  - cbn. rewrite app_nil_r. reflexivity.
  - cbn [parse_pairs]. unfold malformed_logs, token_pair. cbn [List.filter omap list_omap].
    destruct (split_first ":" token) as [[dc srv]|] eqn:E.
    + destruct (contains ":" token) eqn:Ec.
      * rewrite IH, <- app_assoc. reflexivity.
      * apply split_first_None in Ec. congruence.
    + apply split_first_None in E. rewrite E. cbn [negb map].
      rewrite bind_log, IH. reflexivity.
Qed.

Lemma token_accounting tokens :
  (length (omap token_pair tokens) + length (malformed_logs tokens) = length tokens)%nat.
Proof.
  unfold malformed_logs, token_pair.
  induction tokens as [|token rest IH]; [reflexivity|].
  cbn [List.filter omap list_omap length].
  destruct (split_first ":" token) as [[dc srv]|] eqn:E.
  - destruct (contains ":" token) eqn:Ec.
    + cbn [negb length]. lia.
    + apply split_first_None in Ec. congruence.
  - apply split_first_None in E. rewrite E. cbn [negb map length]. lia.
Qed.

(** X1: [parse_mappings] never raises and leaves the clock and the call
    counters alone.  It keeps the tokens of the comma-separated string
    that hold a colon, in their order, and logs one error for each token
    that holds none: the entries returned and the errors logged add up
    to the number of tokens, of which there is at least one. *)
Theorem parse_mappings_accounts_for_every_token :
  forall (mapping_str : string) (rt : Runtime),
    let tokens := split "," mapping_str in
    let o := parse_mappings mapping_str rt in
    value o = Ret (omap token_pair tokens) /\
    events o = malformed_logs tokens /\
    after o = rt /\
    (length (omap token_pair tokens) + length (events o) = length tokens)%nat /\
    (1 <= length tokens)%nat.
Proof.
  intros mapping_str rt tokens o. subst o. unfold parse_mappings.
  rewrite parse_pairs_outcome. cbn [value events after app].
  do 3 (split; [reflexivity|]). split.
  - apply token_accounting.
  - subst tokens. pose proof (split_nonempty "," mapping_str) as H.
    destruct (split "," mapping_str); [congruence | cbn [length]; lia].
Qed.

Lemma token_pair_Some token dc srv :
  token_pair token = Some (dc, srv) <->
  exists h t, token = (h ++ String ":" t)%string /\ contains ":" h = false /\
              dc = strip h /\ srv = strip t.
Proof.
  unfold token_pair. split.
  - destruct (split_first ":" token) as [[h t]|] eqn:E; [|discriminate].
    intros [= <- <-]. apply split_first_Some in E as [-> Hh]. exists h, t. auto.
  - intros (h & t & -> & Hh & -> & ->). rewrite (split_first_app _ _ _ Hh). reflexivity.
Qed.

(** X2: the entries [parse_mappings] returns are exactly the tokens cut at
    their FIRST colon: [(dc, srv)] is returned if and only if some token
    reads [h:t] with no colon in [h], [dc] is [h] stripped and [srv] is [t]
    stripped (so a service name may itself hold colons).  Stripping
    removes the white space of [str.isspace]; the strings are those of
    code points below 256. *)
Theorem parse_mappings_cuts_at_first_colon :
  forall (mapping_str : string) (rt : Runtime) (pairs : list Pair) (dc srv : string),
    value (parse_mappings mapping_str rt) = Ret pairs ->
    (In (dc, srv) pairs <->
     exists token h t,
       In token (split "," mapping_str) /\
       token = (h ++ String ":" t)%string /\ contains ":" h = false /\
       dc = strip h /\ srv = strip t).
Proof.
  intros mapping_str rt pairs dc srv. unfold parse_mappings.
  rewrite parse_pairs_outcome. cbn [value app]. intros [= <-].
  rewrite <- list_elem_of_In, list_elem_of_omap. split.
  - intros (token & Hin & Hp). apply token_pair_Some in Hp as (h & t & Hp).
    exists token, h, t. split; [apply list_elem_of_In, Hin | exact Hp].
  - intros (token & h & t & Hin & Hp). exists token.
    split; [apply list_elem_of_In, Hin | apply token_pair_Some; exists h, t; exact Hp].
Qed.

Lemma parse_mappings_cuts_at_first_colon_witness :
  In ("dc1", "http://api:8080") [("dc1", "http://api:8080")] <->
  exists token h t,
    In token (split "," " dc1 :http://api:8080,dc2") /\
    token = (h ++ String ":" t)%string /\ contains ":" h = false /\
    "dc1" = strip h /\ "http://api:8080" = strip t.
Proof.
  apply (parse_mappings_cuts_at_first_colon " dc1 :http://api:8080,dc2" rt0).
  reflexivity.
Defined.

(** X3: the names [parse_mappings] returns are clean: a site name holds
    neither a colon nor a comma, a service name holds no comma, and
    neither has white space at its ends. *)
Theorem parse_mappings_names_are_clean :
  forall (mapping_str : string) (rt : Runtime) (pairs : list Pair) (dc srv : string),
    value (parse_mappings mapping_str rt) = Ret pairs ->
    In (dc, srv) pairs ->
    contains ":" dc = false /\ contains "," dc = false /\ contains "," srv = false /\
    strip dc = dc /\ strip srv = srv.
Proof.
  intros mapping_str rt pairs dc srv. unfold parse_mappings.
  rewrite parse_pairs_outcome. cbn [value app]. intros [= <-].
  rewrite <- list_elem_of_In, list_elem_of_omap.
  intros (token & Hin & Hp). apply token_pair_Some in Hp as (h & t & -> & Hh & -> & ->).
  apply list_elem_of_In, split_no_sep in Hin. rewrite contains_app in Hin.
  apply orb_false_iff in Hin as [Hc Ht]. cbn [contains] in Ht.
  apply orb_false_iff in Ht as [_ Ht].
  repeat split; auto using contains_strip, strip_idempotent.
Qed.

Lemma parse_mappings_names_are_clean_witness :
  contains ":" "dc1" = false /\ contains "," "dc1" = false /\
  contains "," "http://api:8080" = false /\
  strip "dc1" = "dc1" /\ strip "http://api:8080" = "http://api:8080".
Proof.
  apply (parse_mappings_names_are_clean " dc1 :http://api:8080,dc2" rt0
           [("dc1", "http://api:8080")]).
  - reflexivity.
  - left. reflexivity.
Defined.

(** ** The prober on every path *)

Section ProberBounds.

Variable net : Network.
Variables (url : string) (max_attempts : Z) (retry_delay : Q).

Local Abbreviation from := (check_service_from net url max_attempts retry_delay).
Local Abbreviation retry_sleep attempt :=
  (if attempt <? max_attempts then time_sleep retry_delay else ret tt).

(** One iteration of the loop, whatever the delay is. *)
Lemma check_service_from_step remaining attempt rt :
  from (S remaining) attempt rt =
  if attempt_fails net url (http_calls rt) then
    prepend (HttpGet url :: attempt_log net url max_attempts attempt rt)
      (bind (retry_sleep attempt) (fun _ => from remaining (attempt + 1))
         (requested net url rt))
  else {| events := [HttpGet url];
          after := requested net url rt;
          value := Ret (true, elapsed_ms net url rt, attempt) |}.
Proof.
  destruct (attempt_fails net url (http_calls rt)) eqn:E;
    [|apply check_service_from_hit; exact E].
  cbn [check_service_from].
  rewrite (bind_outcome _ _ _ _ _ _ (attempt_request_outcome net url max_attempts attempt rt)).
  rewrite E. reflexivity.
Qed.

Lemma attempt_log_of attempt rt :
  Forall (probe_event_of url retry_delay) (attempt_log net url max_attempts attempt rt).
Proof.
  unfold attempt_log.
  destruct (http_result (http net url (http_calls rt))) as [status_code|e];
    [destruct (response_ok status_code)|]; repeat constructor.
Qed.

(** The delay step: it makes no request and touches no call counter,
    whether it returns or raises. *)
Lemma retry_sleep_quiet (more : bool) rt :
  let o := (if more then time_sleep retry_delay else ret tt) rt in
  count is_http_get (events o) = O /\
  Forall (probe_event_of url retry_delay) (events o) /\
  http_calls (after o) = http_calls rt /\
  ssh_calls (after o) = ssh_calls rt /\
  telegram_calls (after o) = telegram_calls rt.
Proof.
  destruct more;
    [unfold time_sleep;
     destruct (Qlt_bool sleep_limit retry_delay || Qlt_bool retry_delay (- sleep_limit));
     [|destruct (Qlt_bool retry_delay 0)]|];
    cbn; repeat split; repeat constructor.
Qed.

Lemma check_service_from_bounded remaining attempt rt :
  let o := from remaining attempt rt in
  (count is_http_get (events o) <= remaining)%nat /\
  Forall (probe_event_of url retry_delay) (events o) /\
  http_calls (after o) = (http_calls rt + count is_http_get (events o))%nat /\
  ssh_calls (after o) = ssh_calls rt /\
  telegram_calls (after o) = telegram_calls rt.
Proof.
  revert attempt rt.
  induction remaining as [|remaining IH]; intros attempt rt; cbn zeta.
  - cbn. repeat split; [lia | constructor | lia].
  - rewrite check_service_from_step.
    destruct (attempt_fails net url (http_calls rt)).
    2:{ cbn. repeat split; [lia | repeat constructor | lia]. }
    rewrite events_prepend, after_prepend, events_bind, after_bind.
    destruct (retry_sleep_quiet (attempt <? max_attempts) (requested net url rt))
      as (Hg & Hf & Hh & Hs & Ht).
    cbn [count is_http_get app]. rewrite !count_app, attempt_log_no_get, Hg.
    destruct (value (retry_sleep attempt (requested net url rt))) as [[]|e].
    + destruct (IH (attempt + 1) (after (retry_sleep attempt (requested net url rt))))
        as (Hg' & Hf' & Hh' & Hs' & Ht').
      rewrite Hh', Hs', Ht', Hh, Hs, Ht. cbn [requested http_calls ssh_calls telegram_calls].
      repeat split; try lia.
      constructor; [reflexivity|]. repeat (apply Forall_app; split); auto using attempt_log_of.
    + rewrite Hh, Hs, Ht. cbn [requested http_calls ssh_calls telegram_calls count].
      repeat split; try lia.
      constructor; [reflexivity|]. repeat (apply Forall_app; split); auto using attempt_log_of.
Qed.

Lemma check_service_from_inv remaining attempt rt (b : bool) (t : Q) (k : Z) :
  let o := from remaining attempt rt in
  value o = Ret (b, t, k) ->
  (exists failed : nat,
      (failed < remaining)%nat /\ b = true /\ k = attempt + Z.of_nat failed /\
      t = round2 (http_took (http net url (http_calls rt + failed)) * inject_Z 1000)%Q /\
      (forall i, (i < failed)%nat -> attempt_fails net url (http_calls rt + i) = true) /\
      attempt_fails net url (http_calls rt + failed) = false /\
      count is_http_get (events o) = S failed) \/
  (b = false /\ t = 0%Q /\ k = max_attempts /\
   (forall i, (i < remaining)%nat -> attempt_fails net url (http_calls rt + i) = true) /\
   count is_http_get (events o) = remaining).
Proof.
  revert attempt rt.
  induction remaining as [|remaining IH]; intros attempt rt; cbn zeta.
  - cbn. intros [= <- <- <-]. right. repeat split. intros i Hi. lia.
  - rewrite check_service_from_step.
    destruct (attempt_fails net url (http_calls rt)) eqn:E.
    + rewrite value_prepend, events_prepend. intros H.
      destruct (bind_Ret_inv _ _ _ _ H) as ([] & Hs & Hrest).
      destruct (retry_sleep_quiet (attempt <? max_attempts) (requested net url rt))
        as (Hg & _ & Hh & _).
      rewrite events_bind, Hs. cbn [count is_http_get app].
      rewrite !count_app, attempt_log_no_get, Hg.
      cbn [requested http_calls] in Hh.
      destruct (IH _ _ Hrest)
        as [(failed & Hlt & Hb & Hk & Ht & Hfail & Hok & Hc) | (Hb & Ht & Hk & Hfail & Hc)].
      * left. exists (S failed). rewrite Hh in *.
        rewrite Nat.add_succ_comm in Ht, Hok.
        repeat split; try assumption; try lia.
        intros [|i] Hi; [rewrite Nat.add_0_r; exact E|].
        rewrite <- Nat.add_succ_comm. apply Hfail. lia.
      * right. rewrite Hh in *. repeat split; try assumption; try lia.
        intros [|i] Hi; [rewrite Nat.add_0_r; exact E|].
        rewrite <- Nat.add_succ_comm. apply Hfail. lia.
    + cbn [value events count is_http_get]. intros [= <- <- <-]. left. exists O.
      rewrite Nat.add_0_r, Z.add_0_r, elapsed_ms_took.
      repeat split; try assumption; lia.
Qed.

Lemma check_service_from_sleeps remaining attempt rt :
  (0 <= retry_delay <= sleep_safe)%Q ->
  attempt + Z.of_nat remaining = max_attempts ->
  let o := from (S remaining) attempt rt in
  count is_http_get (events o) = S (count is_sleep (events o)).
Proof.
  intros Hd. revert attempt rt.
  induction remaining as [|remaining IH]; intros attempt rt Hn; cbn zeta.
  - destruct (attempt_fails net url (http_calls rt)) eqn:E.
    + rewrite check_service_from_retry by assumption.
      rewrite events_prepend, !count_app, count_get_retry_events, retry_events_sleeps.
      replace (attempt <? max_attempts) with false by (symmetry; apply Z.ltb_ge; lia).
      reflexivity.
    + rewrite check_service_from_hit by assumption. reflexivity.
  - destruct (attempt_fails net url (http_calls rt)) eqn:E.
    + rewrite check_service_from_retry by assumption.
      rewrite events_prepend, !count_app, count_get_retry_events, retry_events_sleeps.
      replace (attempt <? max_attempts) with true by (symmetry; apply Z.ltb_lt; lia).
      rewrite IH by lia. reflexivity.
    + rewrite check_service_from_hit by assumption. reflexivity.
Qed.

Lemma check_service_from_paced remaining attempt rt :
  (0 <= retry_delay <= sleep_safe)%Q ->
  attempt + Z.of_nat remaining = max_attempts ->
  let o := from (S remaining) attempt rt in
  (exists evs, events o = HttpGet url :: evs) /\
  delays_precede_requests (events o) = true.
Proof.
  intros Hd. revert attempt rt.
  induction remaining as [|remaining IH]; intros attempt rt Hn; cbn zeta.
  - destruct (attempt_fails net url (http_calls rt)) eqn:E.
    + rewrite check_service_from_retry by assumption.
      rewrite events_prepend. unfold retry_events.
      replace (attempt <? max_attempts) with false by (symmetry; apply Z.ltb_ge; lia).
      cbn [check_service_from ret events app]. rewrite !app_nil_r.
      split; [eexists; reflexivity|]. unfold attempt_log.
      destruct (http_result (http net url (http_calls rt))) as [status_code|e];
        [destruct (response_ok status_code)|]; reflexivity.
    + rewrite check_service_from_hit by assumption. split; [eexists|]; reflexivity.
  - destruct (attempt_fails net url (http_calls rt)) eqn:E.
    + rewrite check_service_from_retry by assumption.
      rewrite events_prepend. unfold retry_events.
      replace (attempt <? max_attempts) with true by (symmetry; apply Z.ltb_lt; lia).
      destruct (IH (attempt + 1)
                  (retry_runtime net url max_attempts retry_delay attempt rt))
        as [[evs Hstart] Hpaced]; [lia|].
      split; [eexists; reflexivity|].
      rewrite Hstart in *. unfold attempt_log.
      destruct (http_result (http net url (http_calls rt))) as [status_code|e];
        [destruct (response_ok status_code)|]; exact Hpaced.
    + rewrite check_service_from_hit by assumption. split; [eexists|]; reflexivity.
Qed.

End ProberBounds.

(** X4: on every path, and whatever the network answers, one call of
    [check_service] makes at most [max_attempts] requests (none when
    [max_attempts] is not positive).  All its requests go to the given
    URL, all its delays have the configured length, and it opens no SSH
    session and posts no Telegram message: the request counter advances
    by the number of requests made and the other counters stay. *)
Theorem check_service_requests_bounded :
  forall (net : Network) (url : string) (max_attempts : Z) (retry_delay : Q)
         (rt : Runtime),
    let o := check_service net url max_attempts retry_delay rt in
    (count is_http_get (events o) <= Z.to_nat max_attempts)%nat /\
    Forall (probe_event_of url retry_delay) (events o) /\
    http_calls (after o) = (http_calls rt + count is_http_get (events o))%nat /\
    ssh_calls (after o) = ssh_calls rt /\
    telegram_calls (after o) = telegram_calls rt.
Proof.
  intros net url max_attempts retry_delay rt. unfold check_service.
  apply check_service_from_bounded.
Qed.

(** X5: what a result of [check_service] says about the requests made.
    A result [(True, t, k)] means that the first [k - 1] requests failed,
    that request number [k] got a response that is ok, that [k] is between
    1 and [max_attempts], and that [t] is the duration of that request in
    milliseconds, rounded to two places.  A result [(False, t, k)] means
    that all of the [max_attempts] requests failed, [t = 0] and
    [k = max_attempts]. *)
Theorem check_service_result_inversion :
  forall (net : Network) (url : string) (max_attempts : Z) (retry_delay : Q)
         (rt : Runtime) (is_available : bool) (response_time : Q) (attempts_made : Z),
    let o := check_service net url max_attempts retry_delay rt in
    value o = Ret (is_available, response_time, attempts_made) ->
    (exists failed : nat,
        is_available = true /\
        attempts_made = Z.of_nat failed + 1 /\ 1 <= attempts_made <= max_attempts /\
        response_time =
          round2 (http_took (http net url (http_calls rt + failed)) * inject_Z 1000)%Q /\
        (forall i, (i < failed)%nat -> attempt_fails net url (http_calls rt + i) = true) /\
        attempt_fails net url (http_calls rt + failed) = false /\
        count is_http_get (events o) = S failed) \/
    (is_available = false /\ response_time = 0%Q /\ attempts_made = max_attempts /\
     (forall i, (i < Z.to_nat max_attempts)%nat ->
                attempt_fails net url (http_calls rt + i) = true) /\
     count is_http_get (events o) = Z.to_nat max_attempts).
Proof.
  intros net url max_attempts retry_delay rt is_available response_time attempts_made o H.
  destruct (check_service_from_inv _ _ _ _ _ _ _ _ _ _ H)
    as [(failed & Hlt & Hb & Hk & Ht & Hfail & Hok & Hc) | Hno].
  - left. exists failed. repeat split; try assumption; lia.
  - right. exact Hno.
Qed.

Lemma check_service_result_inversion_witness :
  let o := check_service (scripted [Response 500; refused; Response 200] (1 # 8))
             "http://svc" 3 1 rt0 in
  (exists failed : nat,
      true = true /\
      3 = Z.of_nat failed + 1 /\ 1 <= 3 <= 3 /\
      round2 ((1 # 8) * inject_Z 1000)%Q =
        round2 (http_took (http (scripted [Response 500; refused; Response 200] (1 # 8))
                             "http://svc" (http_calls rt0 + failed)) * inject_Z 1000)%Q /\
      (forall i, (i < failed)%nat ->
                 attempt_fails (scripted [Response 500; refused; Response 200] (1 # 8))
                   "http://svc" (http_calls rt0 + i) = true) /\
      attempt_fails (scripted [Response 500; refused; Response 200] (1 # 8))
        "http://svc" (http_calls rt0 + failed) = false /\
      count is_http_get (events o) = S failed) \/
  (true = false /\ round2 ((1 # 8) * inject_Z 1000)%Q = 0%Q /\ 3 = 3 /\
   (forall i, (i < Z.to_nat 3)%nat ->
              attempt_fails (scripted [Response 500; refused; Response 200] (1 # 8))
                "http://svc" (http_calls rt0 + i) = true) /\
   count is_http_get (events o) = Z.to_nat 3).
Proof.
  apply (check_service_result_inversion
           (scripted [Response 500; refused; Response 200] (1 # 8)) "http://svc" 3 1 rt0).
  vm_compute. reflexivity.
Defined.

(** X6: a number of attempts that is zero or negative makes
    [check_service] report the service as unavailable without a single
    request, delay or log line. *)
Theorem check_service_without_attempts :
  forall (net : Network) (url : string) (max_attempts : Z) (retry_delay : Q)
         (rt : Runtime),
    max_attempts <= 0 ->
    check_service net url max_attempts retry_delay rt =
    {| events := []; after := rt; value := Ret (false, 0%Q, max_attempts) |}.
Proof.
  intros net url max_attempts retry_delay rt H. unfold check_service.
  replace (Z.to_nat max_attempts) with O by lia. reflexivity.
Qed.

Lemma check_service_without_attempts_witness :
  check_service (scripted [Response 200] (1 # 8)) "http://svc" 0 1 rt0 =
  {| events := []; after := rt0; value := Ret (false, 0%Q, 0) |}.
Proof.
  apply (check_service_without_attempts (scripted [Response 200] (1 # 8))).
  lia.
Defined.

(** X7: with a delay of a length that [time.sleep] accepts,
    [check_service] sleeps between two requests and nowhere else: its
    trace begins with a request, every delay is directly followed by a
    request, and the number of delays is the number of requests less
    one.  So there is exactly one delay before each request but the
    first, and none after the last attempt or after a success. *)
Theorem check_service_sleeps_between_requests :
  forall (net : Network) (url : string) (max_attempts : Z) (retry_delay : Q)
         (rt : Runtime),
    (0 <= retry_delay <= sleep_safe)%Q ->
    let o := check_service net url max_attempts retry_delay rt in
    starts_with_request (events o) = true /\
    delays_precede_requests (events o) = true /\
    count is_sleep (events o) = Nat.pred (count is_http_get (events o)).
Proof.
  intros net url max_attempts retry_delay rt Hd. unfold check_service. cbn zeta.
  destruct (Z.to_nat max_attempts) as [|remaining] eqn:E; [repeat split|].
  destruct (check_service_from_paced net url max_attempts retry_delay remaining 1 rt Hd)
    as [[evs Hstart] Hpaced]; [lia|].
  split; [rewrite Hstart; reflexivity|]. split; [assumption|].
  rewrite (check_service_from_sleeps net url max_attempts retry_delay remaining 1 rt Hd)
    by lia.
  reflexivity.
Qed.

Lemma check_service_sleeps_between_requests_witness :
  let o := check_service (scripted [] (1 # 8)) "http://svc" 3 1 rt0 in
  starts_with_request (events o) = true /\
  delays_precede_requests (events o) = true /\
  count is_sleep (events o) = Nat.pred (count is_http_get (events o)).
Proof.
  apply (check_service_sleeps_between_requests (scripted [] (1 # 8)) "http://svc" 3 1 rt0).
  vm_compute. split; discriminate.
Defined.

(** ** The remediator on every path *)

Ltac run_ssh :=
  unfold execute_ssh_command, try_finally, try_except, bind, ssh_client,
    from_private_key_file, client_connect, exec_command, bind; cases.

(** X8: [execute_ssh_command] never raises, and the session it opens is
    closed on every path: the trace starts with the one client it builds
    and ends with the one [close], whatever happens in between.  It makes
    no HTTP request and posts no Telegram message. *)
Theorem execute_ssh_command_always_closes :
  forall (net : Network) (dc_config : SshConfig) (command : string) (pair : Pair)
         (rt : Runtime),
    let o := execute_ssh_command net dc_config command pair rt in
    exists (success : bool) (output : string) (middle : list Event),
      value o = Ret (success, output) /\
      events o = SshClient :: middle ++ [SshClose] /\
      count is_ssh_client middle = O /\ count is_ssh_close middle = O /\
      ssh_calls (after o) = S (ssh_calls rt) /\
      http_calls (after o) = http_calls rt /\
      telegram_calls (after o) = telegram_calls rt.
Proof.
  intros net dc_config command pair rt o.
  assert (H : exists success output, value o = Ret (success, output)).
  { subst o. run_ssh; eauto. }
  destruct H as (success & output & Hv).
  exists success, output, (removelast (tl (events o))).
  split; [exact Hv|]. clear Hv. subst o. run_ssh; cbn; repeat split.
Qed.

(** X9: the result of [execute_ssh_command] is decided by the first stage
    that fails.  If none fails it is [(True, output)] with the output of
    the command, and the audit entry [COMMAND_EXECUTED] is logged once
    with the pair, the host, the command and that output.  If one fails
    it is [(False, str(e))] for the exception of that stage, the error is
    logged, and there is no audit entry. *)
Theorem execute_ssh_command_result :
  forall (net : Network) (dc_config : SshConfig) (command : string) (pair : Pair)
         (rt : Runtime),
    let o := execute_ssh_command net dc_config command pair rt in
    let reply := ssh net (ssh_calls rt) in
    match ssh_failure reply dc_config with
    | None =>
        exists output,
          exec_result reply = inl output /\
          value o = Ret (true, output) /\
          In (Log INFO (CommandExecuted pair (host dc_config) command output)) (events o) /\
          count is_command_executed (events o) = 1%nat
    | Some e =>
        value o = Ret (false, exn_msg e) /\
        In (Log ERROR (SshError (host dc_config) (exn_msg e))) (events o) /\
        count is_command_executed (events o) = O
    end.
Proof.
  intros net dc_config command pair rt. cbn zeta. unfold ssh_failure.
  run_ssh; cbn; eauto 10.
Qed.

(** X10: [execute_ssh_command] stops at the first stage that fails.  The
    key file is loaded exactly when a key is configured; the connection
    is attempted once unless loading the key failed; the command is sent
    once unless loading the key or connecting failed. *)
Theorem execute_ssh_command_stops_at_first_failure :
  forall (net : Network) (dc_config : SshConfig) (command : string) (pair : Pair)
         (rt : Runtime),
    let o := execute_ssh_command net dc_config command pair rt in
    let reply := ssh net (ssh_calls rt) in
    (count is_ssh_load_key (events o) = if truthy (key dc_config) then 1 else 0)%nat /\
    (count is_ssh_connect (events o) =
       if key_load_fails reply dc_config then 0 else 1)%nat /\
    (count is_ssh_exec (events o) =
       if key_load_fails reply dc_config || connect_fails reply then 0 else 1)%nat.
Proof.
  intros net dc_config command pair rt. cbn zeta. unfold key_load_fails, connect_fails.
  run_ssh; cbn; repeat split.
Qed.

(** X11: a session only ever talks to the configured host, port and user
    and only runs the given command; it authenticates with the key file
    whenever one is configured, and with the password only when none is:
    a configured password is never sent next to a key. *)
Theorem execute_ssh_command_uses_key_over_password :
  forall (net : Network) (dc_config : SshConfig) (command : string) (pair : Pair)
         (rt : Runtime),
    Forall (ssh_event_of dc_config command)
      (events (execute_ssh_command net dc_config command pair rt)).
Proof.
  intros net dc_config command pair rt.
  unfold execute_ssh_command. destruct (truthy (key dc_config)) eqn:Hk;
    run_ssh; repeat constructor; rewrite ?Hk; reflexivity.
Qed.

(** ** The notifier on every path *)

Ltac run_alert :=
  unfold send_telegram_alert, getenv, try_except, bind, requests_post; cases.

(** X12: [send_telegram_alert] is best effort: it never raises, whatever
    the Telegram API answers, and it never retries.  It posts once when
    both the bot token and the chat id are set and not empty, and not at
    all otherwise; it makes no other request and opens no SSH session. *)
Theorem send_telegram_alert_best_effort :
  forall (environ : string -> option string) (net : Network) (pair : Pair)
         (next_check : Q) (message : Message) (attempt_count : Z) (is_recovered : bool)
         (rt : Runtime),
    let o := send_telegram_alert environ net pair next_check message attempt_count
               is_recovered rt in
    let posts :=
      if truthy (environ "TELEGRAM_BOT_TOKEN") && truthy (environ "TELEGRAM_CHAT_ID")
      then 1%nat else O in
    value o = Ret tt /\
    count is_telegram_post (events o) = posts /\
    telegram_calls (after o) = (telegram_calls rt + posts)%nat /\
    count is_http_get (events o) = O /\ http_calls (after o) = http_calls rt /\
    count is_ssh_client (events o) = O /\ ssh_calls (after o) = ssh_calls rt.
Proof.
  intros environ net pair next_check message attempt_count is_recovered rt. cbn zeta.
  unfold send_telegram_alert, getenv.
  destruct (truthy (environ "TELEGRAM_BOT_TOKEN")), (truthy (environ "TELEGRAM_CHAT_ID"));
    cbn [negb orb andb]; [|cbn; repeat split; lia ..].
  unfold try_except, bind, requests_post; cases; cbn; repeat split; lia.
Qed.

(** X13: with the bot token and the chat id in place, the trace of
    [send_telegram_alert] is the one post, carrying the pair, the status,
    the message and the next check, and the attempt number only when it is
    positive; it is followed by one error line exactly when the API
    answers that the message was not accepted or the request raises. *)
Theorem send_telegram_alert_posts_once :
  forall (environ : string -> option string) (net : Network) (pair : Pair)
         (next_check : Q) (message : Message) (attempt_count : Z) (is_recovered : bool)
         (rt : Runtime),
    truthy (environ "TELEGRAM_BOT_TOKEN") = true ->
    truthy (environ "TELEGRAM_CHAT_ID") = true ->
    events (send_telegram_alert environ net pair next_check message attempt_count
              is_recovered rt) =
    TelegramPost (default "" (environ "TELEGRAM_BOT_TOKEN"))
      (default "" (environ "TELEGRAM_CHAT_ID"))
      {| alert_pair := pair;
         alert_recovered := is_recovered;
         alert_attempt_info := if 0 <? attempt_count then Some attempt_count else None;
         alert_message := message;
         alert_next_check := next_check |}
    :: match telegram_result (telegram net (telegram_calls rt)) with
       | TelegramJson true _ => []
       | TelegramJson false body => [Log ERROR (TelegramError body)]
       | TelegramFailed e => [Log ERROR (TelegramSendError (exn_msg e))]
       end.
Proof.
  intros environ net pair next_check message attempt_count is_recovered rt Ht Hc.
  unfold send_telegram_alert, getenv. rewrite Ht, Hc.
  unfold try_except, bind, requests_post. cbn [negb orb].
  destruct (telegram_result (telegram net (telegram_calls rt))) as [[|] body|e];
    destruct (0 <? attempt_count); reflexivity.
Qed.

Lemma send_telegram_alert_posts_once_witness :
  events (send_telegram_alert environ_demo (scripted [] (1 # 8)) ("dc1", "api")
            (inject_Z 20) (FirstFailureMsg 3 "systemctl restart vpn") 0 false rt0) =
  TelegramPost (default "" (environ_demo "TELEGRAM_BOT_TOKEN"))
    (default "" (environ_demo "TELEGRAM_CHAT_ID"))
    {| alert_pair := ("dc1", "api");
       alert_recovered := false;
       alert_attempt_info := if 0 <? 0 then Some 0 else None;
       alert_message := FirstFailureMsg 3 "systemctl restart vpn";
       alert_next_check := inject_Z 20 |}
  :: match telegram_result (telegram (scripted [] (1 # 8)) (telegram_calls rt0)) with
     | TelegramJson true _ => []
     | TelegramJson false body => [Log ERROR (TelegramError body)]
     | TelegramFailed e => [Log ERROR (TelegramSendError (exn_msg e))]
     end.
Proof.
  apply (send_telegram_alert_posts_once environ_demo (scripted [] (1 # 8))); reflexivity.
Defined.

(** ** Startup *)


Lemma try_except_Raise {A : Type} (m : M A) (handler : exn -> M A) rt e :
  value (m rt) = Raise e ->
  try_except m handler rt = prepend (events (m rt)) (handler e (after (m rt))).
Proof.
  unfold try_except. destruct (m rt) as [evs rt' v]. cbn [value events after].
  intros ->. reflexivity.
Qed.

Lemma missing_vars_spec environ var :
  In var (missing_vars environ) <-> In var required_vars /\ truthy (environ var) = false.
Proof.
  unfold missing_vars. rewrite filter_In, negb_true_iff. reflexivity.
Qed.

Section Startup.

Variable environ : string -> option string.
Variable net : Network.

(** What [parse_config] returns when every number reads as one. *)
Lemma parse_config_outcome rt interval mapping_str base max raw attempts delay :
  environ "INTERVAL" = Some interval ->
  environ "MAPPINGS" = Some mapping_str ->
  Py.int interval = Some base ->
  Py.int (getenv_default environ "MAX_INTERVAL" "300") = Some max ->
  Py.float (getenv_default environ "BACKOFF_FACTOR" "2") = Some raw ->
  Py.int (getenv_default environ "CHECK_ATTEMPTS" "3") = Some attempts ->
  Py.float (getenv_default environ "CHECK_RETRY_DELAY" "1") = Some delay ->
  parse_config environ rt =
  {| events := (if Qlt_bool raw 1 then [Log WARNING (FactorTooSmall raw)] else [])
               ++ malformed_logs (split "," mapping_str);
     after := rt;
     value := Ret {| base_interval := base;
                     max_interval := max;
                     backoff_factor := clamp_factor raw;
                     check_attempts := attempts;
                     check_retry_delay := delay;
                     mappings := omap token_pair (split "," mapping_str);
                     command := default "" (environ "COMMAND") |} |}.
Proof.
  intros Hi Hm Hbase Hmax Hraw Hattempts Hdelay.
  unfold parse_config, getenv, to_int, to_float.
  rewrite Hi, Hm, Hbase, Hmax, Hraw, Hattempts, Hdelay. rewrite !bind_ret.
  unfold parse_mappings, clamp_factor. destruct (Qlt_bool raw 1).
  - rewrite bind_assoc, bind_log, !bind_ret.
    rewrite (bind_outcome _ _ _ _ _ _ (parse_pairs_outcome _ _ _)).
    cbn [prepend ret app]. rewrite ?app_nil_r. reflexivity.
  - rewrite !bind_ret.
    rewrite (bind_outcome _ _ _ _ _ _ (parse_pairs_outcome _ _ _)).
    cbn [prepend ret app]. rewrite ?app_nil_r. reflexivity.
Qed.

(** [parse_config] only logs, and it raises exactly when a number does
    not read as one. *)
Lemma parse_config_raises rt interval mapping_str :
  environ "INTERVAL" = Some interval ->
  environ "MAPPINGS" = Some mapping_str ->
  let o := parse_config environ rt in
  after o = rt /\ Forall (fun e => is_log e = true) (events o) /\
  ((exists e, value o = Raise e) <->
   Py.int interval = None \/
   Py.int (getenv_default environ "MAX_INTERVAL" "300") = None \/
   Py.float (getenv_default environ "BACKOFF_FACTOR" "2") = None \/
   Py.int (getenv_default environ "CHECK_ATTEMPTS" "3") = None \/
   Py.float (getenv_default environ "CHECK_RETRY_DELAY" "1") = None).
Proof.
  intros Hi Hm. cbn zeta.
  destruct (Py.int interval) as [base|] eqn:Hbase.
  2:{ unfold parse_config, getenv, to_int. rewrite Hi, Hbase. cbn.
      repeat split; eauto. }
  destruct (Py.int (getenv_default environ "MAX_INTERVAL" "300")) as [max|] eqn:Hmax.
  2:{ unfold parse_config, getenv, to_int. rewrite Hi, Hbase, Hmax, !bind_ret. cbn.
      repeat split; eauto. }
  destruct (Py.float (getenv_default environ "BACKOFF_FACTOR" "2")) as [raw|] eqn:Hraw.
  2:{ unfold parse_config, getenv, to_int, to_float.
      rewrite Hi, Hbase, Hmax, Hraw, !bind_ret. cbn. repeat split; eauto. }
  destruct (Py.int (getenv_default environ "CHECK_ATTEMPTS" "3")) as [attempts|] eqn:Hatt.
  2:{ unfold parse_config, getenv, to_int, to_float.
      rewrite Hi, Hbase, Hmax, Hraw, Hatt, !bind_ret.
      destruct (Qlt_bool raw 1);
        [rewrite bind_assoc, bind_log, !bind_ret | rewrite !bind_ret]; cbn;
        repeat split; eauto 10. }
  destruct (Py.float (getenv_default environ "CHECK_RETRY_DELAY" "1")) as [delay|] eqn:Hdel.
  2:{ unfold parse_config, getenv, to_int, to_float.
      rewrite Hi, Hbase, Hmax, Hraw, Hatt, Hdel, !bind_ret.
      destruct (Qlt_bool raw 1);
        [rewrite bind_assoc, bind_log, !bind_ret | rewrite !bind_ret]; cbn;
        repeat split; eauto 10. }
  rewrite (parse_config_outcome rt _ _ _ _ _ _ _ Hi Hm Hbase Hmax Hraw Hatt Hdel).
  cbn [after events value]. split; [reflexivity|]. split.
  - apply Forall_app. split.
    + destruct (Qlt_bool raw 1); repeat constructor.
    + unfold malformed_logs. apply Forall_map, Forall_forall. reflexivity.
  - split.
    + intros [e H]. discriminate.
    + intros [H|[H|[H|[H|H]]]]; discriminate.
Qed.

Lemma required_present :
  missing_vars environ = [] ->
  exists interval mapping_str,
    environ "INTERVAL" = Some interval /\ environ "MAPPINGS" = Some mapping_str /\
    truthy (environ "TELEGRAM_BOT_TOKEN") = true /\
    truthy (environ "TELEGRAM_CHAT_ID") = true.
Proof.
  intros H.
  assert (Hall : forall var, In var required_vars -> truthy (environ var) = true).
  { intros var Hin. destruct (truthy (environ var)) eqn:E; [reflexivity|].
    assert (Hm : In var (missing_vars environ)) by (apply missing_vars_spec; auto).
    rewrite H in Hm. destruct Hm. }
  assert (Hi := Hall "INTERVAL"). assert (Hm := Hall "MAPPINGS").
  destruct (environ "INTERVAL") as [interval|]; [|cbn in Hi; discriminate Hi; cbn; auto].
  destruct (environ "MAPPINGS") as [mapping_str|]; [|cbn in Hm; discriminate Hm; cbn; auto 6].
  exists interval, mapping_str. repeat split; apply Hall; cbn; auto 6.
Qed.


Lemma main_config_error ticks rt e :
  missing_vars environ = [] ->
  value (parse_config environ rt) = Raise e ->
  main environ net ticks rt =
  {| events := events (parse_config environ rt) ++ [Log ERROR (ConfigError (exn_msg e))];
     after := after (parse_config environ rt);
     value := Ret None |}.
Proof.
  intros Hmiss Hcfg. unfold main.
  change (List.filter (fun var => negb (truthy (getenv environ var))) required_vars)
    with (missing_vars environ).
  rewrite Hmiss.
  assert (Hp : value (bind (parse_config environ) (fun cfg => ret (Some cfg)) rt)
               = Raise e).
  { rewrite (bind_value_raises _ _ _ _ Hcfg). reflexivity. }
  assert (Ht : try_except (bind (parse_config environ) (fun cfg => ret (Some cfg)))
                 (fun e => bind (log ERROR (ConfigError (exn_msg e))) (fun _ => ret None)) rt
               = {| events := events (parse_config environ rt)
                              ++ [Log ERROR (ConfigError (exn_msg e))];
                    after := after (parse_config environ rt);
                    value := Ret None |}).
  { rewrite (try_except_Raise _ _ _ _ Hp), (bind_value_raises _ _ _ _ Hcfg).
    cbn [events after]. rewrite bind_log. reflexivity. }
  rewrite (bind_outcome _ _ _ _ _ _ Ht). cbn. rewrite app_nil_r. reflexivity.
Qed.

End Startup.

(** X14: [main] refuses to start when a required setting is unset or
    empty: it logs one error that lists exactly the missing ones among
    [INTERVAL], [MAPPINGS], [TELEGRAM_BOT_TOKEN], [TELEGRAM_CHAT_ID] and
    [COMMAND], and returns without a request, a session, a message or a
    pause. *)
Theorem main_refuses_missing_settings :
  forall (environ : string -> option string) (net : Network) (ticks : nat)
         (rt : Runtime),
    missing_vars environ <> [] ->
    main environ net ticks rt =
    {| events := [Log ERROR (MissingRequired (missing_vars environ))];
       after := rt;
       value := Ret None |} /\
    (forall var, In var (missing_vars environ) <->
                 In var required_vars /\ truthy (environ var) = false).
Proof.
  intros environ net ticks rt Hmiss. split; [|apply missing_vars_spec].
  unfold main.
  change (List.filter (fun var => negb (truthy (getenv environ var))) required_vars)
    with (missing_vars environ).
  destruct (missing_vars environ) as [|var rest]; [congruence|].
  rewrite bind_log. reflexivity.
Qed.

Lemma main_refuses_missing_settings_witness :
  main (environ_of [("INTERVAL", "10"); ("MAPPINGS", "dc1:api"); ("COMMAND", "")])
    (scripted [] (1 # 8)) 3 rt0 =
  {| events :=
       [Log ERROR
          (MissingRequired
             (missing_vars
                (environ_of [("INTERVAL", "10"); ("MAPPINGS", "dc1:api"); ("COMMAND", "")])))];
     after := rt0;
     value := Ret None |} /\
  (forall var,
      In var (missing_vars
                (environ_of [("INTERVAL", "10"); ("MAPPINGS", "dc1:api"); ("COMMAND", "")])) <->
      In var required_vars /\
      truthy (environ_of [("INTERVAL", "10"); ("MAPPINGS", "dc1:api"); ("COMMAND", "")] var)
      = false).
Proof.
  apply (main_refuses_missing_settings
           (environ_of [("INTERVAL", "10"); ("MAPPINGS", "dc1:api"); ("COMMAND", "")])).
  vm_compute. discriminate.
Defined.

(** X15: [main] refuses to start when one of its integer settings is
    not an integer literal as [int] accepts it ([INTERVAL], or
    [MAX_INTERVAL] and [CHECK_ATTEMPTS] with their defaults when unset):
    it logs the configuration error last, returns, and has done nothing
    but log. *)
Theorem main_refuses_bad_numbers :
  forall (environ : string -> option string) (net : Network) (ticks : nat)
         (rt : Runtime) (interval : string),
    missing_vars environ = [] ->
    environ "INTERVAL" = Some interval ->
    Py.int interval = None \/
    Py.int (getenv_default environ "MAX_INTERVAL" "300") = None \/
    Py.int (getenv_default environ "CHECK_ATTEMPTS" "3") = None ->
    let o := main environ net ticks rt in
    value o = Ret None /\ after o = rt /\
    Forall (fun e => is_log e = true) (events o) /\
    exists e before, events o = before ++ [Log ERROR (ConfigError (exn_msg e))].
Proof.
  intros environ net ticks rt interval Hmiss Hi Hbad. cbn zeta.
  destruct (required_present environ Hmiss) as (interval' & mapping_str & Hi' & Hm & _).
  destruct (parse_config_raises environ rt interval mapping_str Hi Hm) as (Ha & Hlog & Hiff).
  assert (Hraise : exists e, value (parse_config environ rt) = Raise e).
  { apply Hiff. destruct Hbad as [H|[H|H]]; auto. }
  destruct Hraise as [e He].
  rewrite (main_config_error environ net ticks rt e Hmiss He). cbn [value after events].
  repeat split; try assumption.
  - apply Forall_app. split; [exact Hlog | repeat constructor].
  - eauto.
Qed.

Lemma main_refuses_bad_numbers_witness :
  let environ :=
    environ_of [("INTERVAL", "10s"); ("MAPPINGS", "dc1:api"); ("TELEGRAM_BOT_TOKEN", "t");
                ("TELEGRAM_CHAT_ID", "c"); ("COMMAND", "reboot")] in
  let o := main environ (scripted [] (1 # 8)) 3 rt0 in
  value o = Ret None /\ after o = rt0 /\
  Forall (fun e => is_log e = true) (events o) /\
  exists e before, events o = before ++ [Log ERROR (ConfigError (exn_msg e))].
Proof.
  apply (main_refuses_bad_numbers
           (environ_of [("INTERVAL", "10s"); ("MAPPINGS", "dc1:api");
                        ("TELEGRAM_BOT_TOKEN", "t"); ("TELEGRAM_CHAT_ID", "c");
                        ("COMMAND", "reboot")])
           (scripted [] (1 # 8)) 3 rt0 "10s").
  - reflexivity.
  - reflexivity.
  - left. reflexivity.
Defined.









(** ** The initial state *)

Lemma dict_of_elem {V : Type} (f : Pair -> V) (keys : list Pair) (k : Pair) :
  In k keys -> dict_of f keys !! k = Some (f k).
Proof.
  intros Hin. unfold dict_of.
  assert (Hd : k ∈ dom (foldl (fun d k => <[k := f k]> d) (∅ : gmap Pair V) keys)).
  { rewrite dict_of_dom. apply elem_of_union_l, elem_of_list_to_set, list_elem_of_In, Hin. }
  apply elem_of_dom in Hd as [v Hv]. rewrite Hv.
  destruct (dict_of_lookup f keys ∅ k v Hv) as [-> | H]; [reflexivity|].
  rewrite lookup_empty in H. discriminate.
Qed.

(** X20: [main] starts with every configured pair Available, due at once
    (its next check is at time 0), at the base interval and with a
    counter of zero; this holds also for a pair listed more than once. *)
Theorem init_state_starts_available :
  forall (cfg : Config) (pair : Pair),
    In pair (mappings cfg) ->
    service_status (init_state cfg) !! pair = Some true /\
    next_checks (init_state cfg) !! pair = Some 0%Q /\
    current_intervals (init_state cfg) !! pair = Some (inject_Z (base_interval cfg)) /\
    attempt_counters (init_state cfg) !! pair = Some 0.
Proof.
  intros cfg pair Hin. unfold init_state.
  cbn [service_status next_checks current_intervals attempt_counters].
  rewrite !dict_of_elem by exact Hin. repeat split.
Qed.

Lemma init_state_starts_available_witness :
  service_status (init_state cfg_twice) !! ("dc1", "api") = Some true /\
  next_checks (init_state cfg_twice) !! ("dc1", "api") = Some 0%Q /\
  current_intervals (init_state cfg_twice) !! ("dc1", "api")
  = Some (inject_Z (base_interval cfg_twice)) /\
  attempt_counters (init_state cfg_twice) !! ("dc1", "api") = Some 0.
Proof.
  apply (init_state_starts_available cfg_twice ("dc1", "api")).
  left. reflexivity.
Defined.

(** ** One pass of the loop *)

Section Passes.

Variable environ : string -> option string.
Variable net : Network.
Variable cfg : Config.

Lemma for_pairs_idle current_time pairs st rt :
  (forall pair, In pair pairs -> scheduled_after current_time pair st) ->
  for_pairs environ net cfg current_time pairs st rt = ret st rt.
Proof.
  induction pairs as [|p rest IH]; intros Hall; cbn [for_pairs]; [reflexivity|].
  destruct (Hall p (or_introl eq_refl)) as (next_check & Hn & Hlt).
  rewrite (bind_outcome _ _ _ [] rt st).
  - rewrite prepend_nil. apply IH. intros q Hq. apply Hall. right. exact Hq.
  - apply (check_pair_skipped environ net cfg current_time st p rt next_check Hn).
    apply Qlt_bool_true, Hlt.
Qed.

Lemma probe_no_post pair rt :
  count is_telegram_post (events (probe environ net cfg pair rt)) = O.
Proof.
  apply count_zero. eapply Forall_impl; [apply check_service_from_events|].
  intros e He. apply probe_event_not_telegram, He.
Qed.

Lemma probe_no_ssh pair rt :
  count is_ssh_client (events (probe environ net cfg pair rt)) = O.
Proof.
  apply count_zero. eapply Forall_impl; [apply check_service_from_events|].
  intros e He. apply probe_event_not_ssh, He.
Qed.


End Passes.

(** X21: a pass of the loop in which no configured pair is due does
    nothing but sleep for five seconds: no request, no log line, and the
    state is the same. *)
Theorem tick_idle :
  forall (environ : string -> option string) (net : Network) (cfg : Config)
         (st : State) (rt : Runtime),
    (forall pair, In pair (mappings cfg) -> scheduled_after (clock rt) pair st) ->
    tick environ net cfg st rt =
    {| events := [Sleep (inject_Z 5)];
       after := advance (inject_Z 5) rt;
       value := Ret st |}.
Proof.
  intros environ net cfg st rt Hall. unfold tick, time_time.
  rewrite (bind_outcome _ _ _ [] rt (clock rt)) by reflexivity. rewrite prepend_nil.
  rewrite (bind_outcome _ _ _ [] rt st) by (apply for_pairs_idle, Hall).
  rewrite prepend_nil.
  rewrite (bind_outcome _ _ _ [Sleep (inject_Z 5)] (advance (inject_Z 5) rt) tt)
    by reflexivity.
  reflexivity.
Qed.

Lemma tick_idle_witness :
  tick environ_demo (scripted [] (1 # 8)) cfg_demo
    (st_down 3 (inject_Z 60) (inject_Z 1030)) rt0 =
  {| events := [Sleep (inject_Z 5)];
     after := advance (inject_Z 5) rt0;
     value := Ret (st_down 3 (inject_Z 60) (inject_Z 1030)) |}.
Proof.
  apply (tick_idle environ_demo (scripted [] (1 # 8)) cfg_demo).
  intros pair [<- | []]. exists (inject_Z 1030). split; [reflexivity|].
  vm_compute. reflexivity.
Defined.

(** X22: a due pair whose [<srv>_URL] is unset or empty is not probed.
    The pass logs one error and schedules the next check one current
    interval after the snapshot (the interval being a number that fits a
    float, so that the sum does not overflow); the status, the interval
    and the counter of the pair stay, and there is no request, no SSH
    session and no Telegram message. *)
Theorem check_pair_without_url :
  forall (environ : string -> option string) (net : Network) (cfg : Config)
         (current_time : Q) (st : State) (pair : Pair) (rt : Runtime)
         (next_check interval : Q),
    next_checks st !! pair = Some next_check ->
    (next_check <= current_time)%Q ->
    truthy (environ (snd pair ++ "_URL")%string) = false ->
    current_intervals st !! pair = Some interval ->
    fits_float interval ->
    let o := check_pair environ net cfg current_time st pair rt in
    exists st',
      value o = Ret st' /\
      events o = [Log ERROR (UrlNotConfigured (snd pair) (snd pair ++ "_URL")%string)] /\
      after o = rt /\
      next_checks st' = <[pair := (current_time + interval)%Q]> (next_checks st) /\
      service_status st' = service_status st /\
      current_intervals st' = current_intervals st /\
      attempt_counters st' = attempt_counters st.
Proof.
  intros environ net cfg current_time st pair rt next_check interval Hn Hdue Hurl Hc _ o.
  subst o.
  rewrite (check_pair_no_url environ net cfg current_time st pair rt next_check interval
             Hn (Qlt_bool_false _ _ Hdue) Hurl Hc).
  eexists. repeat split.
Qed.

Lemma check_pair_without_url_witness :
  let o := check_pair (environ_of []) (scripted [] (1 # 8)) cfg_demo (inject_Z 1000)
             (st_down 3 (inject_Z 60) (inject_Z 990)) ("dc1", "api") rt0 in
  exists st',
    value o = Ret st' /\
    events o = [Log ERROR (UrlNotConfigured "api" "api_URL")] /\
    after o = rt0 /\
    next_checks st' = <[("dc1", "api") := (inject_Z 1000 + inject_Z 60)%Q]>
                        (next_checks (st_down 3 (inject_Z 60) (inject_Z 990))) /\
    service_status st' = service_status (st_down 3 (inject_Z 60) (inject_Z 990)) /\
    current_intervals st' = current_intervals (st_down 3 (inject_Z 60) (inject_Z 990)) /\
    attempt_counters st' = attempt_counters (st_down 3 (inject_Z 60) (inject_Z 990)).
Proof.
  apply (check_pair_without_url (environ_of []) (scripted [] (1 # 8)) cfg_demo
           (inject_Z 1000) (st_down 3 (inject_Z 60) (inject_Z 990)) ("dc1", "api") rt0
           (inject_Z 990) (inject_Z 60)).
  - reflexivity.
  - vm_compute. discriminate.
  - reflexivity.
  - reflexivity.
  - vm_compute. split; discriminate.
Defined.

(** X23: a successful check of a pair that is Available, at an interval
    that fits a float (so that adding it to the snapshot does not
    overflow), changes nothing but the time of its next check: the trace
    is that of the probe followed by the status line, with no SSH session
    and no Telegram message, and the status, the interval and the counter
    stay. *)
Theorem check_pair_steady_success :
  forall (environ : string -> option string) (net : Network) (cfg : Config)
         (current_time : Q) (st : State) (pair : Pair) (rt : Runtime)
         (next_check response_time interval : Q) (attempts_made : Z),
    next_checks st !! pair = Some next_check ->
    (next_check <= current_time)%Q ->
    truthy (environ (snd pair ++ "_URL")%string) = true ->
    value (probe environ net cfg pair rt) = Ret (true, response_time, attempts_made) ->
    service_status st !! pair = Some true ->
    current_intervals st !! pair = Some interval ->
    fits_float interval ->
    let o := check_pair environ net cfg current_time st pair rt in
    value o = Ret (set_next_checks st pair (current_time + interval)%Q) /\
    events o = events (probe environ net cfg pair rt)
               ++ [status_line environ cfg pair (true, response_time, attempts_made)] /\
    after o = after (probe environ net cfg pair rt) /\
    count is_ssh_client (events o) = O /\
    count is_telegram_post (events o) = O.
Proof.
  intros environ net cfg current_time st pair rt next_check response_time interval
    attempts_made Hn Hdue Hurl Hp Hs Hc _ o.
  assert (Hb : branch environ net cfg st pair (true, response_time, attempts_made)
                 (after (probe environ net cfg pair rt))
               = ret st (after (probe environ net cfg pair rt))).
  { cbn [branch]. apply on_success_steady, Hs. }
  assert (Ho : o = _) by
    (refine (check_pair_probed environ net cfg current_time st pair rt next_check
               (true, response_time, attempts_made) st interval
               Hn (Qlt_bool_false _ _ Hdue) Hurl Hp _ Hc);
     rewrite Hb; reflexivity).
  rewrite Ho, Hb. cbn [value events after ret].
  repeat split.
  - rewrite count_app, probe_no_ssh. reflexivity.
  - rewrite count_app, probe_no_post. reflexivity.
Qed.

Lemma check_pair_steady_success_witness :
  let net := scripted [Response 200] (1 # 8) in
  let o := check_pair environ_demo net cfg_demo (inject_Z 1000) (init_state cfg_demo)
             ("dc1", "api") rt0 in
  value o = Ret (set_next_checks (init_state cfg_demo) ("dc1", "api")
                   (inject_Z 1000 + inject_Z 10)%Q) /\
  events o = events (probe environ_demo net cfg_demo ("dc1", "api") rt0)
             ++ [status_line environ_demo cfg_demo ("dc1", "api")
                   (true, round2 ((1 # 8) * inject_Z 1000)%Q, 1)] /\
  after o = after (probe environ_demo net cfg_demo ("dc1", "api") rt0) /\
  count is_ssh_client (events o) = O /\
  count is_telegram_post (events o) = O.
Proof.
  apply (check_pair_steady_success environ_demo (scripted [Response 200] (1 # 8)) cfg_demo
           (inject_Z 1000) (init_state cfg_demo) ("dc1", "api") rt0 0%Q).
  - reflexivity.
  - vm_compute. discriminate.
  - reflexivity.
  - vm_compute. reflexivity.
  - reflexivity.
  - reflexivity.
  - vm_compute. split; discriminate.
Defined.



(** ** Invariants of the loop *)

Lemma dom_insert_present {V : Type} (d : gmap Pair V) (k : Pair) (v : V) :
  k ∈ dom d -> dom (<[k := v]> d) = dom d.
Proof.
  intros H. rewrite dom_insert_L. apply subseteq_union_1_L, singleton_subseteq_l, H.
Qed.

Section LoopInvariants.

Variable environ : string -> option string.
Variable net : Network.
Variable cfg : Config.

Lemma counters_agree_init : counters_agree (init_state cfg).
Proof.
  intros pair status attempts Hs Hk. unfold init_state in Hs, Hk.
  cbn [service_status attempt_counters] in Hs, Hk.
  destruct (dict_of_lookup _ _ _ _ _ Hs) as [-> | H];
    [|rewrite lookup_empty in H; discriminate].
  destruct (dict_of_lookup _ _ _ _ _ Hk) as [-> | H];
    [|rewrite lookup_empty in H; discriminate].
  reflexivity.
Qed.

Ltac at_pair p pair H H' :=
  destruct (decide (p = pair)) as [->|Hne];
  [rewrite ?lookup_insert_eq in H; rewrite ?lookup_insert_eq in H'
  |rewrite ?lookup_insert_ne in H by congruence;
   rewrite ?lookup_insert_ne in H' by congruence].

Lemma counters_agree_check current_time st pair rt st' :
  counters_agree st ->
  value (check_pair environ net cfg current_time st pair rt) = Ret st' ->
  counters_agree st'.
Proof.
  intros Hinv H p status attempts Hs Hk.
  destruct (check_pair_inv _ _ _ _ _ _ _ _ H) as (next_check & Hn & Hcases).
  destruct Hcases as [(_ & ->)|[(_ & _ & interval & _ & ->)|
    (_ & _ & result & st1 & interval & _ & Hb & _ & ->)]].
  - exact (Hinv p status attempts Hs Hk).
  - exact (Hinv p status attempts Hs Hk).
  - cbn [service_status attempt_counters set_next_checks] in Hs, Hk.
    destruct (branch_inv _ _ _ _ _ _ _ _ Hb)
      as [->|[->|(attempts0 & c & status0 & _ & Hk0 & _ & Hs0 & ->)]].
    + exact (Hinv p status attempts Hs Hk).
    + unfold recovered_state in Hs, Hk.
      cbn [service_status attempt_counters set_attempt_counters set_current_intervals
           set_service_status] in Hs, Hk.
      at_pair p pair Hs Hk; [|exact (Hinv p status attempts Hs Hk)].
      injection Hs as <-. injection Hk as <-. reflexivity.
    + pose proof (Hinv pair status0 attempts0 Hs0 Hk0) as H0.
      unfold failed_state in Hs, Hk. destruct status0;
        cbn [service_status attempt_counters set_attempt_counters set_current_intervals
             set_service_status] in Hs, Hk;
        (at_pair p pair Hs Hk; [|exact (Hinv p status attempts Hs Hk)]).
      * injection Hs as <-. injection Hk as <-. lia.
      * assert (status = false) as -> by congruence. injection Hk as <-. lia.
Qed.

Lemma counters_agree_reachable st :
  reachable environ net cfg st -> counters_agree st.
Proof.
  induction 1 as [|st current_time pair rt st' _ IH H].
  - apply counters_agree_init.
  - exact (counters_agree_check _ _ _ _ _ IH H).
Qed.

Ltac same_keys :=
  unfold recovered_state, failed_state;
  cbn [service_status next_checks current_intervals attempt_counters
       set_service_status set_next_checks set_current_intervals set_attempt_counters];
  rewrite ?dom_insert_present; auto.

Lemma keys_are_mappings_check current_time st pair rt st' :
  keys_are_mappings cfg st ->
  value (check_pair environ net cfg current_time st pair rt) = Ret st' ->
  keys_are_mappings cfg st'.
Proof.
  intros (Hs & Hn & Hc & Hk) H.
  destruct (check_pair_inv _ _ _ _ _ _ _ _ H) as (next_check & Hn' & Hcases).
  assert (Hin : pair ∈ (list_to_set (mappings cfg) : gset Pair)).
  { rewrite <- Hn. apply elem_of_dom. eauto. }
  assert (Hin_s : pair ∈ dom (service_status st)) by (rewrite Hs; exact Hin).
  assert (Hin_n : pair ∈ dom (next_checks st)) by (rewrite Hn; exact Hin).
  assert (Hin_c : pair ∈ dom (current_intervals st)) by (rewrite Hc; exact Hin).
  assert (Hin_k : pair ∈ dom (attempt_counters st)) by (rewrite Hk; exact Hin).
  unfold keys_are_mappings.
  destruct Hcases as [(_ & ->)|[(_ & _ & interval & _ & ->)|
    (_ & _ & result & st1 & interval & _ & Hb & _ & ->)]].
  - auto.
  - same_keys.
  - destruct (branch_inv _ _ _ _ _ _ _ _ Hb)
      as [->|[->|(attempts & c & status & _ & _ & _ & _ & ->)]];
      [| |destruct status]; same_keys.
Qed.

Lemma keys_are_mappings_reachable st :
  reachable environ net cfg st -> keys_are_mappings cfg st.
Proof.
  induction 1 as [|st current_time pair rt st' _ IH H].
  - apply init_state_dom.
  - exact (keys_are_mappings_check _ _ _ _ _ IH H).
Qed.

Lemma failed_check_counter pair st st' attempts :
  failed_check environ net cfg pair st st' ->
  attempt_counters st !! pair = Some attempts ->
  attempt_counters st' !! pair = Some (attempts + 1) /\
  service_status st' !! pair = Some false.
Proof.
  intros [current_time rt next_check response_time attempts_made Hn Hdue Hurl Hp H] Hk.
  destruct (check_pair_inv _ _ _ _ _ _ _ _ H) as (next_check' & Hn' & Hcases).
  assert (next_check' = next_check) as -> by congruence.
  rewrite (Qlt_bool_false _ _ Hdue), Hurl in Hcases.
  destruct Hcases as [(? & _)|[(_ & ? & _)|
    (_ & _ & result & st1 & c1 & Hp' & Hb & _ & ->)]]; try discriminate.
  assert (result = (false, response_time, attempts_made)) as -> by congruence.
  cbn [branch] in Hb.
  destruct (on_failure_inv _ _ _ _ _ _ _ _ Hb)
    as (attempts0 & interval & status & dc_config & Hk0 & _ & Hs0 & _ & ->).
  assert (attempts0 = attempts) as -> by congruence.
  unfold failed_state. destruct status; split; lookup.
Qed.

Lemma failed_checks_counter pair n st st' attempts :
  failed_checks environ net cfg pair n st st' ->
  attempt_counters st !! pair = Some attempts ->
  attempt_counters st' !! pair = Some (attempts + Z.of_nat n).
Proof.
  intros H. revert attempts.
  induction H as [st|n st st1 st' H1 _ IH]; intros attempts Hk.
  - rewrite Z.add_0_r. exact Hk.
  - destruct (failed_check_counter _ _ _ _ H1 Hk) as [Hk1 _].
    rewrite (IH _ Hk1). f_equal. lia.
Qed.

Lemma failed_checks_status pair n st st' :
  failed_checks environ net cfg pair (S n) st st' ->
  is_Some (attempt_counters st !! pair) /\ service_status st' !! pair = Some false.
Proof.
  remember (S n) as m eqn:Hm. intros H. revert n Hm.
  induction H as [st|m st st1 st' H1 Hrest IH]; intros n Hm; [discriminate|].
  assert (Hk : is_Some (attempt_counters st !! pair)).
  { destruct H1 as [current_time rt next_check response_time attempts_made Hn Hdue Hurl Hp H].
    destruct (check_pair_inv _ _ _ _ _ _ _ _ H) as (next_check' & Hn' & Hcases).
    assert (next_check' = next_check) as -> by congruence.
    rewrite (Qlt_bool_false _ _ Hdue), Hurl in Hcases.
    destruct Hcases as [(? & _)|[(_ & ? & _)|
      (_ & _ & result & st1' & c1 & Hp' & Hb & _ & _)]]; try discriminate.
    assert (result = (false, response_time, attempts_made)) as -> by congruence.
    cbn [branch] in Hb.
    destruct (on_failure_inv _ _ _ _ _ _ _ _ Hb) as (attempts0 & _ & _ & _ & Hk0 & _).
    eauto. }
  split; [exact Hk|]. destruct Hk as [attempts Hk].
  destruct (failed_check_counter _ _ _ _ H1 Hk) as [_ Hs1].
  destruct m as [|m].
  - inversion Hrest; subst. exact Hs1.
  - apply (IH m eq_refl).
Qed.

Lemma failed_checks_interval pair n st st' interval :
  failed_checks environ net cfg pair n st st' ->
  current_intervals st !! pair = Some interval ->
  current_intervals st' !! pair = Some (Nat.iter n (next_interval cfg) interval).
Proof.
  intros H. revert interval.
  induction H as [st|n st st1 st' H1 _ IH]; intros interval Hc; [exact Hc|].
  rewrite (IH _ (failed_check_interval _ _ _ _ _ _ _ H1 Hc)).
  f_equal. symmetry. apply Nat.iter_succ_r.
Qed.

End LoopInvariants.

(** X25: in every state the loop can be in, the status and the counter
    of a pair agree: an Available pair has a counter of zero and an
    Unavailable pair has a counter of at least one.  (So a failure or
    recovery message always names an attempt number.) *)
Theorem status_and_counter_agree :
  forall (environ : string -> option string) (net : Network) (cfg : Config)
         (st : State) (pair : Pair) (status : bool) (attempts : Z),
    reachable environ net cfg st ->
    service_status st !! pair = Some status ->
    attempt_counters st !! pair = Some attempts ->
    if status then attempts = 0 else 1 <= attempts.
Proof.
  intros environ net cfg st pair status attempts Hst.
  apply (counters_agree_reachable environ net cfg st Hst).
Qed.

Lemma status_and_counter_agree_witness :
  if false then 1 = 0 else 1 <= 1.
Proof.
  apply (status_and_counter_agree environ_demo (scripted [] (1 # 8)) cfg_demo
           (set_next_checks
              (failed_state cfg_demo (init_state cfg_demo) ("dc1", "api") 0 (inject_Z 10) true)
              ("dc1", "api") (inject_Z 1000 + next_interval cfg_demo (inject_Z 10))%Q)
           ("dc1", "api") false 1).
  - apply (reachable_check environ_demo (scripted [] (1 # 8)) cfg_demo
             (init_state cfg_demo) (inject_Z 1000) ("dc1", "api") rt0).
    + apply reachable_init.
    + vm_compute. reflexivity.
  - reflexivity.
  - reflexivity.
Defined.

(** X26: the counter counts the failed checks since the pair was last
    Available: [n] failed checks in a row, starting from a state of the
    loop in which the pair is Available, leave the counter at [n], and
    the pair Unavailable as soon as [n] is not zero. *)
Theorem counter_counts_failed_checks :
  forall (environ : string -> option string) (net : Network) (cfg : Config)
         (pair : Pair) (n : nat) (st st' : State),
    reachable environ net cfg st ->
    service_status st !! pair = Some true ->
    failed_checks environ net cfg pair n st st' ->
    attempt_counters st' !! pair = Some (Z.of_nat n) /\
    service_status st' !! pair = Some (match n with O => true | S _ => false end).
Proof.
  intros environ net cfg pair n st st' Hst Hs Hrun.
  destruct (keys_are_mappings_reachable environ net cfg st Hst) as (Hds & _ & _ & Hdk).
  assert (Hk : is_Some (attempt_counters st !! pair)).
  { apply elem_of_dom. rewrite Hdk, <- Hds. apply elem_of_dom. eauto. }
  destruct Hk as [attempts Hk].
  pose proof (counters_agree_reachable environ net cfg st Hst pair true attempts Hs Hk)
    as H0.
  cbn in H0. subst attempts. split.
  - rewrite (failed_checks_counter environ net cfg pair n st st' 0 Hrun Hk).
    reflexivity.
  - destruct n as [|n].
    + inversion Hrun; subst. exact Hs.
    + apply (failed_checks_status environ net cfg pair n st st' Hrun).
Qed.

Lemma counter_counts_failed_checks_witness :
  let st' :=
    set_next_checks
      (failed_state cfg_demo (init_state cfg_demo) ("dc1", "api") 0 (inject_Z 10) true)
      ("dc1", "api") (inject_Z 1000 + next_interval cfg_demo (inject_Z 10))%Q in
  attempt_counters st' !! ("dc1", "api") = Some (Z.of_nat 1) /\
  service_status st' !! ("dc1", "api") = Some false.
Proof.
  apply (counter_counts_failed_checks environ_demo (scripted [] (1 # 8)) cfg_demo
           ("dc1", "api") 1 (init_state cfg_demo)).
  - apply reachable_init.
  - reflexivity.
  - eapply failed_checks_more; [|apply failed_checks_none].
    apply (failed_check_intro environ_demo (scripted [] (1 # 8)) cfg_demo
             ("dc1", "api") (init_state cfg_demo) _ (inject_Z 1000) rt0 0%Q 0%Q 3).
    + reflexivity.
    + discriminate.
    + reflexivity.
    + vm_compute. reflexivity.
    + vm_compute. reflexivity.
Defined.

(** X27: the loop never adds or removes a pair: in every state it can be
    in, each of the four dictionaries has exactly the configured pairs as
    its keys. *)
Theorem keys_never_change :
  forall (environ : string -> option string) (net : Network) (cfg : Config)
         (st : State),
    reachable environ net cfg st ->
    keys_are_mappings cfg st.
Proof.
  intros environ net cfg st. apply keys_are_mappings_reachable.
Qed.

Lemma keys_never_change_witness :
  keys_are_mappings cfg_demo
    (set_next_checks
       (failed_state cfg_demo (init_state cfg_demo) ("dc1", "api") 0 (inject_Z 10) true)
       ("dc1", "api") (inject_Z 1000 + next_interval cfg_demo (inject_Z 10))%Q).
Proof.
  apply (keys_never_change environ_demo (scripted [] (1 # 8)) cfg_demo).
  apply (reachable_check environ_demo (scripted [] (1 # 8)) cfg_demo
           (init_state cfg_demo) (inject_Z 1000) ("dc1", "api") rt0).
  - apply reachable_init.
  - vm_compute. reflexivity.
Defined.

(** X28: the pairs are independent: a pass of the loop body for one pair
    leaves the status, the next check, the interval and the counter of
    every other pair as they were, and logs no status line for another
    pair. *)
Theorem pairs_are_independent :
  forall (environ : string -> option string) (net : Network) (cfg : Config)
         (current_time : Q) (st : State) (pair other : Pair) (rt : Runtime)
         (st' : State),
    other <> pair ->
    value (check_pair environ net cfg current_time st pair rt) = Ret st' ->
    service_status st' !! other = service_status st !! other /\
    next_checks st' !! other = next_checks st !! other /\
    current_intervals st' !! other = current_intervals st !! other /\
    attempt_counters st' !! other = attempt_counters st !! other /\
    count (is_check_of other)
      (events (check_pair environ net cfg current_time st pair rt)) = O.
Proof.
  intros environ net cfg current_time st pair other rt st' Hne H.
  destruct (check_pair_frame environ net cfg current_time st pair rt st' H other Hne)
    as (Hs & Hn & Hc & Hk).
  do 4 (split; [assumption|]).
  pose proof (check_pair_checks environ net cfg other current_time st pair rt) as Hle.
  destruct (decide (pair = other)) as [->|_]; [congruence | lia].
Qed.

Lemma pairs_are_independent_witness :
  let st := init_state cfg_demo in
  let st' := set_next_checks (init_state cfg_demo) ("dc1", "api")
               (inject_Z 1000 + inject_Z 10)%Q in
  service_status st' !! ("dc2", "web") = service_status st !! ("dc2", "web") /\
  next_checks st' !! ("dc2", "web") = next_checks st !! ("dc2", "web") /\
  current_intervals st' !! ("dc2", "web") = current_intervals st !! ("dc2", "web") /\
  attempt_counters st' !! ("dc2", "web") = attempt_counters st !! ("dc2", "web") /\
  count (is_check_of ("dc2", "web"))
    (events (check_pair environ_demo (scripted [Response 200] (1 # 8)) cfg_demo
               (inject_Z 1000) (init_state cfg_demo) ("dc1", "api") rt0)) = O.
Proof.
  apply (pairs_are_independent environ_demo (scripted [Response 200] (1 # 8)) cfg_demo
           (inject_Z 1000) (init_state cfg_demo) ("dc1", "api") ("dc2", "web") rt0).
  - discriminate.
  - vm_compute. reflexivity.
Defined.

(** ** The backoff in closed form *)

Lemma Qlt_bool_false_inv (a b : Q) : Qlt_bool a b = false -> (b <= a)%Q.
Proof.
  intros H. apply Qnot_lt_le. intros Hlt. apply Qlt_bool_iff in Hlt. congruence.
Qed.

Ltac min_cases :=
  unfold Py.min;
  repeat match goal with
    | |- context [Qlt_bool ?a ?b] =>
        let E := fresh "E" in
        destruct (Qlt_bool a b) eqn:E;
        [apply Qlt_bool_iff in E | apply Qlt_bool_false_inv in E]
    end.

Lemma min_Qeq (a a' b b' : Q) :
  (a == a')%Q -> (b == b')%Q -> (Py.min a b == Py.min a' b')%Q.
Proof. intros Ha Hb. min_cases; lra. Qed.

Section ClosedForm.

Variable cfg : Config.

Hypothesis factor_ge_1 : (1 <= backoff_factor cfg)%Q.
Hypothesis max_nonneg : 0 <= max_interval cfg.

Lemma next_interval_Qeq (a a' : Q) :
  (a == a')%Q -> (next_interval cfg a == next_interval cfg a')%Q.
Proof.
  intros H. unfold next_interval. apply min_Qeq; [|reflexivity].
  rewrite H. reflexivity.
Qed.

Lemma next_interval_of_min (a : Q) :
  (next_interval cfg (Py.min a (inject_Z (max_interval cfg)))
   == next_interval cfg a)%Q.
Proof.
  assert (Hmax : (0 <= inject_Z (max_interval cfg))%Q).
  { change 0%Q with (inject_Z 0). rewrite <- Zle_Qle. exact max_nonneg. }
  unfold next_interval.
  set (f := backoff_factor cfg) in *. set (m := inject_Z (max_interval cfg)) in *.
  unfold Py.min at 2. destruct (Qlt_bool m a) eqn:E; [|reflexivity].
  apply Qlt_bool_iff in E.
  pose proof (scale_ge m f Hmax factor_ge_1) as Hm.
  assert (Ha : (a <= a * f)%Q) by (apply scale_ge; [lra | exact factor_ge_1]).
  min_cases; lra.
Qed.

Lemma backoff_iterated (n : nat) (interval : Q) :
  (Nat.iter (S n) (next_interval cfg) interval
   == Py.min (interval * backoff_factor cfg ^ Z.of_nat (S n))
        (inject_Z (max_interval cfg)))%Q.
Proof.
  induction n as [|n IH].
  - cbn [Nat.iter nat_rect]. unfold next_interval. apply min_Qeq; [|reflexivity].
    reflexivity.
  - change (Nat.iter (S (S n)) (next_interval cfg) interval)
      with (next_interval cfg (Nat.iter (S n) (next_interval cfg) interval)).
    rewrite (next_interval_Qeq _ _ IH), next_interval_of_min.
    unfold next_interval. apply min_Qeq; [|reflexivity].
    rewrite (Nat2Z.inj_succ (S n)). unfold Z.succ.
    rewrite Qpower_plus' by lia. change (backoff_factor cfg ^ 1)%Q with (backoff_factor cfg).
    ring.
Qed.

End ClosedForm.

(** X29: the backoff in closed form.  With a factor of at least 1 and a
    maximum that is not negative, [n >= 1] failed checks in a row take an
    interval [c] to [min(c * factor^n, max_interval)]. *)
Theorem backoff_closed_form :
  forall (environ : string -> option string) (net : Network) (cfg : Config)
         (pair : Pair) (n : nat) (st st' : State) (interval : Q),
    (1 <= backoff_factor cfg)%Q ->
    0 <= max_interval cfg ->
    current_intervals st !! pair = Some interval ->
    failed_checks environ net cfg pair (S n) st st' ->
    exists interval',
      current_intervals st' !! pair = Some interval' /\
      (interval' == Py.min (interval * backoff_factor cfg ^ Z.of_nat (S n))
                      (inject_Z (max_interval cfg)))%Q.
Proof.
  intros environ net cfg pair n st st' interval Hfactor Hmax Hc Hrun.
  exists (Nat.iter (S n) (next_interval cfg) interval). split.
  - exact (failed_checks_interval environ net cfg pair (S n) st st' interval Hrun Hc).
  - exact (backoff_iterated cfg Hfactor Hmax n interval).
Qed.

Lemma backoff_closed_form_witness :
  exists interval',
    current_intervals
      (set_next_checks
         (failed_state cfg_demo (init_state cfg_demo) ("dc1", "api") 0 (inject_Z 10) true)
         ("dc1", "api") (inject_Z 1000 + next_interval cfg_demo (inject_Z 10))%Q)
    !! ("dc1", "api") = Some interval' /\
    (interval' == Py.min (inject_Z 10 * backoff_factor cfg_demo ^ Z.of_nat 1)
                    (inject_Z (max_interval cfg_demo)))%Q.
Proof.
  apply (backoff_closed_form environ_demo (scripted [] (1 # 8)) cfg_demo ("dc1", "api") 0
           (init_state cfg_demo)).
  - vm_compute. discriminate.
  - vm_compute. discriminate.
  - reflexivity.
  - eapply failed_checks_more; [|apply failed_checks_none].
    apply (failed_check_intro environ_demo (scripted [] (1 # 8)) cfg_demo
             ("dc1", "api") (init_state cfg_demo) _ (inject_Z 1000) rt0 0%Q 0%Q 3).
    + reflexivity.
    + discriminate.
    + reflexivity.
    + vm_compute. reflexivity.
    + vm_compute. reflexivity.
Defined.

(** ** The reported response time *)

Lemma round_half_even_close (q : Q) :
  (- (1 # 2) <= inject_Z (round_half_even q) - q <= 1 # 2)%Q.
Proof.
  unfold round_half_even.
  pose proof (Qfloor_le q) as Hle. pose proof (Qlt_floor q) as Hlt.
  rewrite inject_Z_plus in Hlt. change (inject_Z 1) with 1%Q in Hlt.
  set (n := Qfloor q) in *.
  destruct (Qcompare (q - inject_Z n) (1 # 2)) eqn:E.
  - apply Qeq_alt in E. destruct (Z.even n).
    + lra.
    + rewrite inject_Z_plus. change (inject_Z 1) with 1%Q. lra.
  - apply Qlt_alt in E. lra.
  - apply Qgt_alt in E. rewrite inject_Z_plus. change (inject_Z 1) with 1%Q. lra.
Qed.

Lemma round2_close (q : Q) : (- (1 # 200) <= round2 q - q <= 1 # 200)%Q.
Proof.
  unfold round2. pose proof (round_half_even_close (q * inject_Z 100)) as H.
  set (z := inject_Z (round_half_even (q * inject_Z 100))) in *.
  change (inject_Z 100) with (100 # 1)%Q in *.
  assert (Hd : (z / (100 # 1) == z * (1 # 100))%Q) by (unfold Qdiv; reflexivity).
  rewrite Hd. lra.
Qed.

(** X30: the response time that a successful [check_service] reports is
    the duration of the request that succeeded, in milliseconds, rounded
    to two places: a whole number of hundredths that is within 0.005 of
    the measured time. *)
Theorem check_service_response_time :
  forall (net : Network) (url : string) (max_attempts : Z) (retry_delay : Q)
         (rt : Runtime) (response_time : Q) (attempts_made : Z),
    value (check_service net url max_attempts retry_delay rt)
    = Ret (true, response_time, attempts_made) ->
    exists (failed : nat) (hundredths : Z),
      attempts_made = Z.of_nat failed + 1 /\
      response_time = (inject_Z hundredths / inject_Z 100)%Q /\
      (- (1 # 200)
       <= response_time
          - http_took (http net url (http_calls rt + failed)) * inject_Z 1000
       <= 1 # 200)%Q.
Proof.
  intros net url max_attempts retry_delay rt response_time attempts_made H.
  destruct (check_service_from_inv _ _ _ _ _ _ _ _ _ _ H)
    as [(failed & _ & _ & Hk & Ht & _) | (Hb & _)]; [|discriminate].
  exists failed,
    (round_half_even
       ((http_took (http net url (http_calls rt + failed)) * inject_Z 1000)
        * inject_Z 100)%Q).
  split; [lia|]. split; [exact Ht|]. rewrite Ht. apply round2_close.
Qed.

Lemma check_service_response_time_witness :
  exists (failed : nat) (hundredths : Z),
    1 = Z.of_nat failed + 1 /\
    round2 ((1 # 3) * inject_Z 1000)%Q = (inject_Z hundredths / inject_Z 100)%Q /\
    (- (1 # 200)
     <= round2 ((1 # 3) * inject_Z 1000)%Q
        - http_took (http (scripted [Response 200] (1 # 3)) "http://svc"
                       (http_calls rt0 + failed)) * inject_Z 1000
     <= 1 # 200)%Q.
Proof.
  apply (check_service_response_time (scripted [Response 200] (1 # 3)) "http://svc" 3 1 rt0).
  vm_compute. reflexivity.
Defined.
